(** * blaze.compute.core: the evaluation engine, embedded in Rocq

    A shallow embedding of [blaze/compute/core.py]: the type-break detector
    ([issubtype], [type_change]), the leaf allocator ([makeleaf],
    [_reset_leaves]), the bottom-up partial evaluator
    ([bottom_up_until_type_break]), the fixpoint driver
    ([top_then_bottom_then_top_again_etc]), the resource binder
    ([swap_resources_into_scope]) and the two forms of [compute].

    The engine sorts values by class, [sorted(..., key=type)], which only an
    interpreter that orders classes can do for two values or more: the
    order of the interpreter on classes is a parameter of the engine
    ([class_order]), so that the runs of both Python 2 and Python 3 are
    covered.

    Python dictionaries keyed by expressions are association lists kept in
    insertion order, because the code iterates over them ([values()],
    [items()]) and hands the values on in that order.  Module-level mutable
    state ([_leaf_cache], [_used_tokens]) is threaded explicitly, and every
    call of a dispatched hook is recorded in a call log, so that "invokes" and
    "does not invoke" are statements about a run. *)

From Stdlib Require Import List ZArith String Bool Arith Lia Finite.
From Stdlib Require Import Sorted Permutation.
Import ListNotations.
Local Open Scope Z_scope.
Local Open Scope list_scope.
Set Warnings "-register-all".

Set Implicit Arguments.

(* ------------------------------------------------------------------ *)
(** ** Runtime values and their classes *)

(** The classes the core inspects with [type], [isinstance] and
    [issubclass].  Backend classes (arrays, frames, query handles) are
    opaque: [PyBackend c] derives from [object] only. *)
Inductive pytype : Type :=
| PyNoneType | PyBool | PyInt | PyFloat | PyStr | PyDate | PyDatetime
| PyList | PyTuple | PySet | PyDict
| PyListIterator | PyGenerator
| PyBackend (cls : nat).

(** Opaque data values: only their class is ever looked at. *)
Inductive value : Type :=
| VNone
| VBool (b : bool)
| VInt (z : Z)
| VFloat (bits : Z)
| VStr (s : string)
| VDate (ordinal : Z)
| VDatetime (stamp : Z)
| VList (items : list value)
| VTuple (items : list value)
| VSet (items : list value)
| VDict (items : list value)        (* a dictionary as a datum, by its items() *)
| VIter (items : list value)        (* iter([...]) *)
| VGen (items : list value)         (* a generator yielding the items *)
| VBackend (cls : nat) (payload : Z).

Definition pytype_eq_dec (a b : pytype) : {a = b} + {a <> b}.
Proof. decide equality; apply Nat.eq_dec. Defined.

Fixpoint value_eq_dec (a b : value) {struct a} : {a = b} + {a <> b}.
Proof.
  decide equality;
    try apply Z.eq_dec; try apply Bool.bool_dec; try apply string_dec;
    try apply Nat.eq_dec; apply (list_eq_dec value_eq_dec).
Defined.

(** [type(x)] *)
Definition type (x : value) : pytype :=
  match x with
  | VNone => PyNoneType
  | VBool _ => PyBool
  | VInt _ => PyInt
  | VFloat _ => PyFloat
  | VStr _ => PyStr
  | VDate _ => PyDate
  | VDatetime _ => PyDatetime
  | VList _ => PyList
  | VTuple _ => PyTuple
  | VSet _ => PySet
  | VDict _ => PyDict
  | VIter _ => PyListIterator
  | VGen _ => PyGenerator
  | VBackend c _ => PyBackend c
  end.

Definition pytype_eqb (a b : pytype) : bool :=
  if pytype_eq_dec a b then true else false.

(** [issubclass(a, b)] between the classes of values: reflexive, with
    [bool] deriving from [int] and [datetime] from [date]. *)
Definition issubclass (a b : pytype) : bool :=
  pytype_eqb a b ||
  match a, b with
  | PyBool, PyInt => true
  | PyDatetime, PyDate => true
  | _, _ => false
  end.

(** [issubclass(a, (tuple, list, set))] *)
Definition is_container (a : pytype) : bool :=
  issubclass a PyTuple || issubclass a PyList || issubclass a PySet.

(** [issubclass(a, Iterator)]: the classes registered with
    [collections.Iterator]. *)
Definition is_Iterator (a : pytype) : bool :=
  match a with
  | PyListIterator | PyGenerator => true
  | _ => false
  end.

(** [isinstance(x, base)] with
    [base = (numbers.Real, basestring, date, datetime)]. *)
Definition is_base_type (a : pytype) : bool :=
  match a with
  | PyBool | PyInt | PyFloat => true       (* numbers.Real *)
  | PyStr => true                          (* basestring *)
  | PyDate | PyDatetime => true
  | _ => false
  end.

Definition isinstance_base (x : value) : bool := is_base_type (type x).

(** [isinstance(x, dict)] *)
Definition is_dict (x : value) : bool := pytype_eqb (type x) PyDict.

(* ------------------------------------------------------------------ *)
(** ** The type-break detector *)

(** [issubtype(a, b)]: "A custom issubclass". *)
Definition issubtype (a b : pytype) : bool :=
  if issubclass a b then true
  else if is_container a && is_Iterator b then true
  else if is_container b && is_Iterator a then true
  else false.

(** [all(map(f, xs, ys))] for two lists of the same length (the only way
    [type_change] reaches it). *)
Fixpoint all_map2 {A B} (f : A -> B -> bool) (xs : list A) (ys : list B) : bool :=
  match xs, ys with
  | x :: xs', y :: ys' => f x y && all_map2 f xs' ys'
  | _, _ => true
  end.

(** [type_change(old, new)] *)
Definition type_change (old new : list value) : bool :=
  if forallb isinstance_base (old ++ new) then false
  else if negb (Nat.eqb (List.length old) (List.length new)) then true
  else
    let new_types := map type new in
    let old_types := map type old in
    negb (all_map2 issubtype new_types old_types).

(** [sorted(xs, key=type)]: a stable sort on the key.  Python 2 orders
    class objects by their addresses, an arbitrary but fixed total order;
    [type_key] is that order. *)
Section Sorted.
Variable type_key : pytype -> Z.

Fixpoint insert_by_type (x : value) (xs : list value) : list value :=
  match xs with
  | [] => [x]
  | y :: ys =>
      if type_key (type x) <=? type_key (type y) then x :: y :: ys
      else y :: insert_by_type x ys
  end.

(** Inserting from the right, each value before the values of an equal
    key that follow it, keeps equal keys in their original order. *)
Definition sorted_by_type (xs : list value) : list value :=
  fold_right insert_by_type [] xs.
End Sorted.

(** How the interpreter orders classes.  Python 2 orders any two class
    objects ([Ordered key]: as [key] does); Python 3 orders none
    ([Unordered]). *)
Inductive class_order : Type :=
| Ordered (key : pytype -> Z)
| Unordered.

(** [sorted(xs, key=type)] under either interpreter, [None] for TypeError:
    without an order of the classes the first comparison of two keys
    raises, and a list of two values or more has one. *)
Definition sorted_key_type (classes : class_order) (xs : list value)
  : option (list value) :=
  match classes with
  | Ordered key => Some (sorted_by_type key xs)
  | Unordered =>
      match xs with
      | [] | [_] => Some xs
      | _ :: _ :: _ => None
      end
  end.

(* ------------------------------------------------------------------ *)
(** ** Python containers: insertion-ordered dictionaries and sets *)

Section Dict.
Variables K V : Type.
Variable K_eq_dec : forall a b : K, {a = b} + {a <> b}.

(** [d.get(k)] before the default is applied; [k in d] when it is not
    [None]. *)
Fixpoint dict_get (k : K) (d : list (K * V)) : option V :=
  match d with
  | [] => None
  | (k', v) :: d' => if K_eq_dec k k' then Some v else dict_get k d'
  end.

(** [d[k] = v]: an existing key keeps its place, a new one goes last. *)
Fixpoint dict_set (k : K) (v : V) (d : list (K * V)) : list (K * V) :=
  match d with
  | [] => [(k, v)]
  | (k', v') :: d' =>
      if K_eq_dec k k' then (k', v) :: d' else (k', v') :: dict_set k v d'
  end.

(** [d.update(items)] *)
Definition dict_update (d : list (K * V)) (items : list (K * V)) : list (K * V) :=
  fold_left (fun acc kv => dict_set (fst kv) (snd kv) acc) items d.

(** [dict(items)] *)
Definition dict_of_items (items : list (K * V)) : list (K * V) :=
  dict_update [] items.

(** [toolz.merge(dicts)]: later dictionaries have precedence. *)
Definition merge (dicts : list (list (K * V))) : list (K * V) :=
  fold_left dict_update dicts [].

Definition keys (d : list (K * V)) : list K := map fst d.
Definition values (d : list (K * V)) : list V := map snd d.
End Dict.

Section SetOps.
Variable A : Type.
Variable A_eq_dec : forall a b : A, {a = b} + {a <> b}.

(** [x in s] *)
Definition set_in (x : A) (s : list A) : bool :=
  if in_dec A_eq_dec x s then true else false.

(** [s.add(x)] *)
Definition set_add (x : A) (s : list A) : list A :=
  if set_in x s then s else s ++ [x].

(** [toolz.unique(xs)]: first occurrences, in order. *)
Fixpoint unique_from (seen : list A) (xs : list A) : list A :=
  match xs with
  | [] => []
  | x :: xs' =>
      if set_in x seen then unique_from seen xs'
      else x :: unique_from (x :: seen) xs'
  end.

Definition unique (xs : list A) : list A := unique_from [] xs.
End SetOps.

(* ------------------------------------------------------------------ *)
(** ** The expression model *)

(** Modelled from the spec: the expression tree of [blaze.expr], which the
    core imports ([Expr], [Symbol]) and whose sources are not part of this
    module.  An expression is an immutable node with a kind, a shape
    descriptor, an ordered list of inputs and a display name that may be
    empty; a Symbol is a leaf with a name, a shape and a disambiguating
    token that defaults to none; an interactive leaf is a symbol that
    carries attached concrete data.  Equality is structural identity. *)
Inductive Expr : Type :=
| Symbol (name : string) (dshape : string) (token : option nat)
| Interactive (name : string) (dshape : string) (data : value)
| Node (kind : string) (name : string) (dshape : string) (inputs : list Expr).

Fixpoint Expr_eq_dec (a b : Expr) {struct a} : {a = b} + {a <> b}.
Proof.
  decide equality;
    try apply string_dec; try apply value_eq_dec;
    try (apply (list_eq_dec Expr_eq_dec));
    decide equality; apply Nat.eq_dec.
Defined.

(** Modelled from the spec: [a.isidentical(b)], the structural identity
    test of the expression model. *)
Definition isidentical (a b : Expr) : bool :=
  if Expr_eq_dec a b then true else false.

(** Modelled from the spec: [e._name], the display name accessor of the
    expression model (empty when the expression has none). *)
Definition _name (e : Expr) : string :=
  match e with
  | Symbol n _ _ => n
  | Interactive n _ _ => n
  | Node _ n _ _ => n
  end.

(** Modelled from the spec: [e.dshape], the shape accessor of the
    expression model. *)
Definition dshape (e : Expr) : string :=
  match e with
  | Symbol _ d _ => d
  | Interactive _ d _ => d
  | Node _ _ d _ => d
  end.

(** Modelled from the spec: [e._inputs], the ordered direct inputs of a
    node of the expression model; a leaf has none. *)
Definition _inputs (e : Expr) : list Expr :=
  match e with
  | Node _ _ _ ins => ins
  | _ => []
  end.

(** Modelled from the spec: [isinstance(x, Symbol)] over the expression
    model; a leaf with attached data is a symbol too. *)
Definition is_Symbol (e : Expr) : bool :=
  match e with
  | Symbol _ _ _ | Interactive _ _ _ => true
  | Node _ _ _ _ => false
  end.

(** Modelled from the spec: [e._subterms()], all sub-nodes of an
    expression of the model, the expression first. *)
Fixpoint _subterms (e : Expr) : list Expr :=
  e :: match e with
       | Node _ _ _ ins => flat_map _subterms ins
       | _ => []
       end.

(** Modelled from the spec: the terminal symbols under an expression of
    the model, left to right, with repetitions. *)
Fixpoint terminals (e : Expr) : list Expr :=
  match e with
  | Node _ _ _ ins => flat_map terminals ins
  | _ => [e]
  end.

(** Modelled from the spec: [e._leaves()], the terminal free-variable
    symbols reachable from [e], each once, left to right. *)
Definition _leaves (e : Expr) : list Expr := unique Expr_eq_dec (terminals e).

(** Modelled from the spec: [other in e], membership among the sub-nodes
    of an expression of the model. *)
Definition Expr_contains (e other : Expr) : bool :=
  set_in Expr_eq_dec other (_subterms e).

(** Modelled from the spec: [e._subs(d)], the substitution of the
    expression model: every node that is a key of [d] is replaced, top
    down. *)
Fixpoint _subs (d : list (Expr * Expr)) (e : Expr) : Expr :=
  match dict_get Expr_eq_dec e d with
  | Some e' => e'
  | None =>
      match e with
      | Node k n s ins => Node k n s (map (_subs d) ins)
      | _ => e
      end
  end.

(** Modelled from the spec: the data attached to a leaf of the expression
    model, if any. *)
Definition attached (e : Expr) : list (Expr * value) :=
  match e with
  | Interactive _ _ v => [(e, v)]
  | _ => []
  end.

(** Modelled from the spec: [e._resources()], the mapping from the leaves
    of [e] that carry data to that data. *)
Definition _resources (e : Expr) : list (Expr * value) :=
  dict_of_items Expr_eq_dec (flat_map attached (_leaves e)).

(** [set([x for x in expr._subterms() if isinstance(x, Symbol)])]: the
    free symbols of an expression. *)
Definition free_symbols (expr : Expr) : list Expr :=
  unique Expr_eq_dec (filter is_Symbol (_subterms expr)).

(** A scope maps expressions to values. *)
Definition Scope : Type := list (Expr * value).

(** [scope.get(k)]: total, [None] for a missing key. *)
Definition scope_get (scope : Scope) (k : Expr) : value :=
  match dict_get Expr_eq_dec k scope with
  | Some v => v
  | None => VNone
  end.

(* ------------------------------------------------------------------ *)
(** ** The leaf allocator *)

Definition name_token : Type := (string * option nat)%type.

Definition name_token_eq_dec (a b : name_token) : {a = b} + {a <> b}.
Proof. repeat decide equality. Defined.

(** The two module-level tables. *)
Record leaf_state : Type := {
  _leaf_cache : list (Expr * Expr);
  _used_tokens : list name_token
}.

(** [_reset_leaves()] *)
Definition _reset_leaves (st : leaf_state) : leaf_state :=
  {| _leaf_cache := []; _used_tokens := [] |}.

(** [for token in itertools.count(): if (name, token) not in _used_tokens:
    break], started at [token] and cut after [budget] occupied tokens.  A
    budget of [length used] is never exhausted on an occupied token
    ([count_free]). *)
Fixpoint count_until_free (name : string) (used : list name_token)
         (token budget : nat) : nat :=
  match budget with
  | O => token
  | S b =>
      if set_in name_token_eq_dec (name, Some token) used
      then count_until_free name used (S token) b
      else token
  end.

(** [expr._name or '_'] *)
Definition leaf_name (e : Expr) : string :=
  if string_dec (_name e) "" then "_"%string else _name e.

(** [makeleaf(expr)] *)
Definition makeleaf (expr : Expr) (st : leaf_state) : Expr * leaf_state :=
  let name := leaf_name expr in
  match dict_get Expr_eq_dec expr (_leaf_cache st) with
  | Some leaf => (leaf, st)
  | None =>
      let used := _used_tokens st in
      let token :=
        if set_in name_token_eq_dec (name, None) used
        then Some (count_until_free name used 0 (List.length used))
        else None in
      let result := Symbol name (dshape expr) token in
      (result,
       {| _leaf_cache := dict_set Expr_eq_dec expr result (_leaf_cache st);
          _used_tokens := set_add name_token_eq_dec (name, token) used |})
  end.

(* ------------------------------------------------------------------ *)
(** ** Exceptions, hooks and the call log *)

Inductive exn : Type :=
| NotImplementedError
| ValueError_dict_input       (* "Give compute dictionary input, got ..." *)
| ValueError_unpack           (* [exprs, new_scopes = zip( *[])] *)
| KeyError (k : Expr)
| TypeError_keyword           (* a keyword the called handler does not take *)
| TypeError_unorderable       (* ['<' not supported between 'type' and 'type'] *)
| HandlerFault (code : nat).  (* any other failure inside a handler *)

(** How a call ends: with a value, with an exception, or not within the
    recursion budget given to the fixpoint driver. *)
Inductive outcome (A : Type) : Type :=
| Ret (a : A)
| Raise (e : exn)
| Unfinished.
Arguments Raise {A} e.
Arguments Unfinished {A}.

(** What a registered handler or a configured override does when called. *)
Inductive hook_result (A : Type) : Type :=
| Done (a : A)
| Unsupported                 (* raises NotImplementedError *)
| Fault (code : nat).
Arguments Unsupported {A}.
Arguments Fault {A} code.

(** What the driver returns: a value, or an expression passed through. *)
Inductive pyobj : Type :=
| OVal (v : value)
| OExpr (e : Expr).

(** [**kwargs]: a recognised option is absent, present and falsy, or
    present and callable. *)
Inductive kwarg (F : Type) : Type :=
| Absent
| Falsy
| Given (f : F).
Arguments Absent {F}.
Arguments Falsy {F}.

Record kwargs : Type := {
  kw_optimize : kwarg (Expr -> list value -> hook_result Expr);
  kw_pre_compute : kwarg (Expr -> value -> hook_result value)
}.

Definition no_kwargs : kwargs :=
  {| kw_optimize := Absent; kw_pre_compute := Absent |}.

Definition kwarg_absent {F} (k : kwarg F) : bool :=
  match k with Absent => true | _ => false end.

Definition kwargs_empty (kw : kwargs) : bool :=
  kwarg_absent (kw_optimize kw) && kwarg_absent (kw_pre_compute kw).

(** The handlers backends have registered with the dispatcher; [None] when
    no registered signature matches the arguments, so that the defaults of
    this module (or the dispatcher's NotImplementedError) apply. *)
Record Registry : Type := {
  reg_pre_compute : Expr -> value -> option Scope -> option (hook_result value);
  reg_post_compute : Expr -> pyobj -> Scope -> option (hook_result pyobj);
  reg_optimize : Expr -> list value -> option (hook_result Expr);
  reg_compute_up : Expr -> list value -> Scope -> option (hook_result value);
  reg_compute_down : Expr -> list value -> kwargs -> option (hook_result pyobj)
}.

(** No backend registered: only the defaults of this module. *)
Definition core_registry : Registry :=
  {| reg_pre_compute := fun _ _ _ => None;
     reg_post_compute := fun _ _ _ => None;
     reg_optimize := fun _ _ => None;
     reg_compute_up := fun _ _ _ => None;
     reg_compute_down := fun _ _ _ => None |}.

(** One entry of the call log. *)
Inductive call : Type :=
| Call_pre_compute (e : Expr) (v : value) (scope : option Scope)
| Call_pre_compute_kw (e : Expr) (v : value)
| Call_optimize (e : Expr) (data : list value)
| Call_optimize_kw (e : Expr) (data : list value)
| Call_compute_down (e : Expr) (data : list value)
| Call_compute_up (e : Expr) (data : list value) (scope : Scope)
| Call_post_compute (e : Expr) (result : pyobj) (scope : Scope).

Record world : Type := {
  leaves : leaf_state;
  calls : list call
}.

Definition new_world : world :=
  {| leaves := {| _leaf_cache := []; _used_tokens := [] |}; calls := [] |}.

(** Computations: state passing with exceptions. *)
Definition M (A : Type) : Type := world -> outcome A * world.

Definition ret {A} (a : A) : M A := fun w => (Ret a, w).

Definition raise {A} (e : exn) : M A := fun w => (Raise e, w).

Definition unfinished {A} : M A := fun w => (Unfinished, w).

Definition bind {A B} (m : M A) (k : A -> M B) : M B :=
  fun w =>
    match m w with
    | (Ret a, w') => k a w'
    | (Raise e, w') => (Raise e, w')
    | (Unfinished, w') => (Unfinished, w')
    end.

Notation "x <- m ;; k" := (bind m (fun x => k))
  (at level 61, m at next level, right associativity).
Notation "' p <- m ;; k" := (bind m (fun x => let p := x in k))
  (at level 61, p pattern, m at next level, right associativity).

(** [try: m  except NotImplementedError: handler] *)
Definition try_except_NotImplementedError {A} (m handler : M A) : M A :=
  fun w =>
    match m w with
    | (Raise NotImplementedError, w') => handler w'
    | r => r
    end.

Fixpoint mapM {A B} (f : A -> M B) (xs : list A) : M (list B) :=
  match xs with
  | [] => ret []
  | x :: xs' => y <- f x ;; ys <- mapM f xs' ;; ret (y :: ys)
  end.

(** Calling a hook: the call is logged, its result becomes an outcome. *)
Definition invoke {A} (c : call) (r : hook_result A) : M A :=
  fun w =>
    (match r with
     | Done a => Ret a
     | Unsupported => Raise NotImplementedError
     | Fault n => Raise (HandlerFault n)
     end,
     {| leaves := leaves w; calls := calls w ++ [c] |}).

(** The allocator, run on the world's tables. *)
Definition do_reset_leaves : M unit :=
  fun w => (Ret tt, {| leaves := _reset_leaves (leaves w); calls := calls w |}).

Definition do_makeleaf (expr : Expr) : M Expr :=
  fun w =>
    let (leaf, st) := makeleaf expr (leaves w) in
    (Ret leaf, {| leaves := st; calls := calls w |}).

(** [scope[k]] *)
Definition scope_getitem (scope : Scope) (k : Expr) : M value :=
  match dict_get Expr_eq_dec k scope with
  | Some v => ret v
  | None => raise (KeyError k)
  end.

(** [{e: f(e, datum) for e, datum in scope.items()}] *)
Definition dict_comprehension (f : Expr -> value -> M value) (scope : Scope) : M Scope :=
  items <- mapM (fun kv => v <- f (fst kv) (snd kv) ;; ret (fst kv, v)) scope ;;
  ret (dict_of_items Expr_eq_dec items).

(* ------------------------------------------------------------------ *)
(** ** The engine *)

Section Engine.
(** What the backends registered, and the order of the interpreter on
    classes, which [sorted(..., key=type)] relies on. *)
Variable R : Registry.
Variable type_key : class_order.

(** *** The dispatched operations with their defaults *)

(** [@dispatch(Expr, object) pre_compute(leaf, data, scope=None)]
    returns [data]. *)
Definition pre_compute (leaf : Expr) (data : value) (scope : option Scope) : M value :=
  invoke (Call_pre_compute leaf data scope)
    match reg_pre_compute R leaf data scope with
    | Some r => r
    | None => Done data
    end.

(** [@dispatch(Expr, object) post_compute(expr, result, scope=None)]
    returns [result]. *)
Definition post_compute (expr : Expr) (result : pyobj) (scope : Scope) : M pyobj :=
  invoke (Call_post_compute expr result scope)
    match reg_post_compute R expr result scope with
    | Some r => r
    | None => Done result
    end.

(** [@dispatch(Expr, object) optimize(expr, data)] returns [expr]; with
    any other number of data arguments nothing matches. *)
Definition optimize (expr : Expr) (data : list value) : M Expr :=
  invoke (Call_optimize expr data)
    match reg_optimize R expr data with
    | Some r => r
    | None =>
        match data with
        | [_] => Done expr
        | _ => Unsupported
        end
    end.

(** [compute_up(expr, *data, scope=...)] on an expression: the default
    [@dispatch(object, object)] raises NotImplementedError, as does the
    dispatcher when nothing matches. *)
Definition compute_up (expr : Expr) (data : list value) (scope : Scope) : M value :=
  invoke (Call_compute_up expr data scope)
    match reg_compute_up R expr data scope with
    | Some r => r
    | None => Unsupported
    end.

(** [compute_down(expr, *data, **kwargs)]: the default
    [@dispatch(object) compute_down(expr)] returns [expr] and takes no
    keyword; with data arguments nothing matches by default. *)
Definition compute_down (expr : Expr) (data : list value) (kw : kwargs) : M pyobj :=
  match reg_compute_down R expr data kw with
  | Some r => invoke (Call_compute_down expr data) r
  | None =>
      match data with
      | [] =>
          if kwargs_empty kw
          then invoke (Call_compute_down expr data) (Done (OExpr expr))
          else raise TypeError_keyword
      | _ => invoke (Call_compute_down expr data) Unsupported
      end
  end.

(** [kwargs.get('optimize', optimize)]: [None] is a falsy value. *)
Definition get_optimize (kw : kwargs) : option (Expr -> list value -> M Expr) :=
  match kw_optimize kw with
  | Absent => Some optimize
  | Falsy => None
  | Given f => Some (fun e data => invoke (Call_optimize_kw e data) (f e data))
  end.

(** [kwargs.get('pre_compute', pre_compute)], called as
    [pre_compute_(e, dat)]. *)
Definition get_pre_compute (kw : kwargs) : option (Expr -> value -> M value) :=
  match kw_pre_compute kw with
  | Absent => Some (fun e dat => pre_compute e dat None)
  | Falsy => None
  | Given f => Some (fun e dat => invoke (Call_pre_compute_kw e dat) (f e dat))
  end.

(** *** The bottom-up partial evaluator *)

(** [old_data_leaves = [scope.get(leaf) for leaf in expr._leaves()]] *)
Definition old_data_leaves (expr : Expr) (scope : Scope) : list value :=
  map (scope_get scope) (_leaves expr).

(** [sorted(xs, key=type)] in a run of the evaluator. *)
Definition sorted_ (xs : list value) : M (list value) :=
  match sorted_key_type type_key xs with
  | Some sorted_xs => ret sorted_xs
  | None => raise TypeError_unorderable
  end.

(** The part of [bottom_up_until_type_break] after the inputs have been
    reduced to [reduced = [bottom_up_until_type_break(i, scope) for i in
    inputs]]. *)
Definition after_inputs (expr : Expr) (scope : Scope) (inputs : list Expr)
           (reduced : list (Expr * Scope)) : M (Expr * Scope) :=
  match reduced with
  | [] => raise ValueError_unpack     (* exprs, new_scopes = zip( *[]) *)
  | _ :: _ =>
      let exprs := map fst reduced in
      let new_scopes := map snd reduced in
      let new_scope := merge Expr_eq_dec new_scopes in
      let new_expr :=
        _subs (dict_of_items Expr_eq_dec
                 (filter (fun ie => negb (isidentical (fst ie) (snd ie)))
                         (combine inputs exprs)))
              expr in
      new_sorted <- sorted_ (values new_scope) ;;
      old_sorted <- sorted_ (old_data_leaves expr scope) ;;
      if type_change new_sorted old_sorted
      then ret (new_expr, new_scope)
      else
        leaf <- do_makeleaf expr ;;
        _data <- mapM (scope_getitem new_scope) (_inputs new_expr) ;;
        v <- compute_up new_expr _data new_scope ;;
        ret (leaf, [(leaf, v)])
  end.

(** [bottom_up_until_type_break(expr, scope)].  The comprehension over
    [unique(expr._inputs)] is the inner loop [reduce], which skips the
    inputs already seen ([bottom_up_unfold] gives it as a [mapM] over
    [unique]). *)
Fixpoint bottom_up_until_type_break (expr : Expr) (scope : Scope) {struct expr}
  : M (Expr * Scope) :=
  match dict_get Expr_eq_dec expr scope with
  | Some v =>                         (* expr in scope; v = scope[expr] *)
      leaf <- do_makeleaf expr ;;
      ret (leaf, [(leaf, v)])
  | None =>
      let inputs := unique Expr_eq_dec (_inputs expr) in
      reduced <-
        match expr with
        | Node _ _ _ ins =>
            (fix reduce (seen ins : list Expr) {struct ins} : M (list (Expr * Scope)) :=
               match ins with
               | [] => ret []
               | i :: rest =>
                   if set_in Expr_eq_dec i seen then reduce seen rest
                   else
                     r <- bottom_up_until_type_break i scope ;;
                     rs <- reduce (i :: seen) rest ;;
                     ret (r :: rs)
               end) [] ins
        | _ => ret []
        end ;;
      after_inputs expr scope inputs reduced
  end.

(** *** The fixpoint driver *)

(** The re-application of the hooks in one round of the driver, after
    the bottom-up reduction gave [new_expr] and [new_scope]:
    [new_scope2] and [new_expr2].  The dictionary comprehension calls
    the dispatched [pre_compute], whatever [pre_compute_] is. *)
Definition reapply_hooks (new_expr : Expr) (new_scope : Scope) (kw : kwargs)
  : M (Expr * Scope) :=
  let optimize_ := get_optimize kw in
  let pre_compute_ := get_pre_compute kw in
  new_scope2 <-
    match pre_compute_ with
    | Some _ =>
        dict_comprehension
          (fun e datum => pre_compute new_expr datum (Some new_scope)) new_scope
    | None => ret new_scope
    end ;;
  new_expr2 <-
    match optimize_ with
    | Some optimize_ =>
        try_except_NotImplementedError
          (data <- mapM (scope_getitem new_scope2) (_leaves new_expr) ;;
           optimize_ new_expr data)
          (ret new_expr)
    | None => ret new_expr
    end ;;
  ret (new_expr2, new_scope2).

(** [top_then_bottom_then_top_again_etc(expr, scope, **kwargs)], with a
    budget of rounds.  Every [Expr] has [_leaves], so the [hasattr] test
    never returns early.  The recursive call passes no keyword. *)
Fixpoint top_then_bottom_then_top_again_etc (rounds : nat) (expr : Expr)
         (scope : Scope) (kw : kwargs) {struct rounds} : M pyobj :=
  match rounds with
  | O => unfinished
  | S rounds' =>
      match dict_get Expr_eq_dec expr scope with
      | Some v => ret (OVal v)
      | None =>
          let leaf_exprs := _leaves expr in
          let leaf_data := map (scope_get scope) leaf_exprs in
          try_except_NotImplementedError
            (compute_down expr leaf_data kw)
            (ns <- bottom_up_until_type_break expr scope ;;
             es <- reapply_hooks (fst ns) (snd ns) kw ;;
             top_then_bottom_then_top_again_etc rounds' (fst es) (snd es) no_kwargs)
      end
  end.

(** *** The resource binder *)

Definition plain_symbol (t : Expr) : Expr := Symbol (_name t) (dshape t) None.

(** [swap_resources_into_scope(expr, scope)] *)
Definition swap_resources_into_scope (expr : Expr) (scope : Scope) : Expr * Scope :=
  let resources := _resources expr in
  let symbol_dict :=
    dict_of_items Expr_eq_dec (map (fun t => (t, plain_symbol t)) (keys resources)) in
  let resources' :=
    dict_of_items Expr_eq_dec
      (map (fun kv =>
              (match dict_get Expr_eq_dec (fst kv) symbol_dict with
               | Some s => s
               | None => plain_symbol (fst kv)   (* every key is in symbol_dict *)
               end, snd kv))
           resources) in
  let scope' := merge Expr_eq_dec [resources'; scope] in
  (_subs symbol_dict expr, scope').

(** *** The entry point *)

(** [@dispatch(Expr, dict) compute(expr, d, **kwargs)] *)
Definition compute (rounds : nat) (expr : Expr) (d : Scope) (kw : kwargs) : M pyobj :=
  _ <- do_reset_leaves ;;
  let optimize_ := get_optimize kw in
  let pre_compute_ := get_pre_compute kw in
  let expr2 := fst (swap_resources_into_scope expr d) in
  let d2 := snd (swap_resources_into_scope expr d) in
  d3 <-
    match pre_compute_ with
    | Some pre_compute_ => dict_comprehension pre_compute_ d2
    | None => ret d2
    end ;;
  expr3 <-
    match optimize_ with
    | Some optimize_ =>
        try_except_NotImplementedError
          (optimize_ expr2
             (values (filter (fun ev => Expr_contains expr2 (fst ev)) d3)))
          (ret expr2)
    | None => ret expr2
    end ;;
  result <- top_then_bottom_then_top_again_etc rounds expr3 d3 kw ;;
  post_compute expr3 result d3.

(** [@dispatch(Expr, object) compute(expr, o, **kwargs)], for a second
    argument that is not a dictionary (a dictionary selects the form
    above).  [ts] is the set of Symbol subterms; [len(ts) == 1] selects the
    first branch, where [first(ts)] is its only element. *)
Definition compute_single (rounds : nat) (expr : Expr) (o : value) (kw : kwargs) : M pyobj :=
  let ts := free_symbols expr in
  match ts with
  | [s] => compute rounds expr [(s, o)] kw
  | _ => raise ValueError_dict_input
  end.

(** *** The two forms behind one name *)

(** The second positional argument of [compute(expr, arg, **kwargs)]: a
    dictionary, given as the scope it is, or an object that is not a
    dictionary.  The empty dictionary is [ArgDict []] where it is an
    argument and [VDict []] where it is a datum. *)
Inductive compute_arg : Type :=
| ArgDict (d : Scope)
| ArgObject (o : value) (not_a_dict : is_dict o = false).

(** The dispatcher of [compute]: [@dispatch(Expr, dict)] is more specific
    than [@dispatch(Expr, object)], so a dictionary always selects the
    mapping form. *)
Definition compute_dispatch (rounds : nat) (expr : Expr) (arg : compute_arg)
           (kw : kwargs) : M pyobj :=
  match arg with
  | ArgDict d => compute rounds expr d kw
  | ArgObject o _ => compute_single rounds expr o kw
  end.

End Engine.

(* ------------------------------------------------------------------ *)
(** ** The other functions of the module *)

(** [data_leaves(expr, scope)]: [[scope[leaf] for leaf in expr._leaves()]] *)
Definition data_leaves (expr : Expr) (scope : Scope) : M (list value) :=
  mapM (scope_getitem scope) (_leaves expr).

Section Helpers.
Variable R : Registry.
Variable type_key : class_order.

(** [bottom_up(d, expr)].  Every [Expr] has [_inputs], so the children are
    always computed; the comprehension over [expr._inputs] is the inner
    loop [each]. *)
Fixpoint bottom_up (d : Scope) (expr : Expr) {struct expr} : M value :=
  match dict_get Expr_eq_dec expr d with
  | Some v => ret v                   (* expr in d; v = d[expr] *)
  | None =>
      children <-
        match expr with
        | Node _ _ _ ins =>
            (fix each (ins : list Expr) {struct ins} : M (list value) :=
               match ins with
               | [] => ret []
               | child :: rest =>
                   v <- bottom_up d child ;;
                   vs <- each rest ;;
                   ret (v :: vs)
               end) ins
        | _ => ret []
        end ;;
      compute_up R expr children d
  end.

(** [compute(item, scope or {}, **kwargs)] for an item of a sequence: the
    two signatures of [compute] in this module want an expression first,
    so the dispatcher raises NotImplementedError for anything else. *)
Definition compute_item (rounds : nat) (scope : option Scope) (kw : kwargs)
           (item : pyobj) : M pyobj :=
  match item with
  | OExpr e =>
      compute R type_key rounds e
              (match scope with Some s => s | None => [] end) kw
  | OVal _ => raise NotImplementedError
  end.

(** [@dispatch((list, tuple)) compute_up(seq, scope=None, **kwargs)]:
    [type(seq)(compute(item, scope or {}, **kwargs) for item in seq)], the
    items of the result in a sequence of the kind of [seq]. *)
Definition compute_up_seq (rounds : nat) (seq : list pyobj) (scope : option Scope)
           (kw : kwargs) : M (list pyobj) :=
  mapM (compute_item rounds scope kw) seq.

End Helpers.

(* ------------------------------------------------------------------ *)
(** ** Definitions used to state the properties *)

(** The detector as the specification words it: both lists are first put
    in the canonical order of their classes, then compared pairwise.  Kept
    apart from [type_change] to compare the two. *)
Definition type_change_spec (type_key : pytype -> Z) (old new : list value) : bool :=
  if forallb isinstance_base (old ++ new) then false
  else if negb (Nat.eqb (List.length old) (List.length new)) then true
  else
    negb (all_map2 issubtype
            (map type (sorted_by_type type_key new))
            (map type (sorted_by_type type_key old))).

(** The allocation requests of one evaluation, in the order they are made:
    nothing else writes the two tables between two resets. *)
Fixpoint makeleaves (es : list Expr) (st : leaf_state) : list Expr * leaf_state :=
  match es with
  | [] => ([], st)
  | e :: es' =>
      let (leaf, st1) := makeleaf e st in
      let (ls, st2) := makeleaves es' st1 in
      (leaf :: ls, st2)
  end.

(** The disambiguating token of a symbol. *)
Definition _token (s : Expr) : option nat :=
  match s with
  | Symbol _ _ t => t
  | _ => None
  end.

(** What the allocator maintains: every cached symbol carries the leaf name
    of its source, its (name, token) pair is recorded as used, and two
    sources never share a pair. *)
Record leaf_inv (st : leaf_state) : Prop := {
  inv_named : forall e s,
      dict_get Expr_eq_dec e (_leaf_cache st) = Some s ->
      s = Symbol (leaf_name e) (dshape e) (_token s);
  inv_used : forall e s,
      dict_get Expr_eq_dec e (_leaf_cache st) = Some s ->
      In (_name s, _token s) (_used_tokens st);
  inv_apart : forall e1 e2 s1 s2,
      dict_get Expr_eq_dec e1 (_leaf_cache st) = Some s1 ->
      dict_get Expr_eq_dec e2 (_leaf_cache st) = Some s2 ->
      (_name s1, _token s1) = (_name s2, _token s2) ->
      e1 = e2
}.

(** The dictionary [symbol_dict] of [swap_resources_into_scope(expr, _)]. *)
Definition symbol_dict_of (expr : Expr) : list (Expr * Expr) :=
  dict_of_items Expr_eq_dec
    (map (fun t => (t, plain_symbol t)) (keys (_resources expr))).

(** The bindings the resource binder derives from the resources of an
    expression, before they are merged with the caller's. *)
Definition derived_bindings (expr : Expr) : Scope :=
  dict_of_items Expr_eq_dec
    (map (fun kv => (plain_symbol (fst kv), snd kv)) (_resources expr)).

(** An expression with every data-carrying leaf replaced by the plain
    symbol of the same name and shape: what the resource binder is to
    return as its expression. *)
Fixpoint unadorned (e : Expr) : Expr :=
  match e with
  | Symbol _ _ _ => e
  | Interactive n d _ => Symbol n d None
  | Node k n d ins => Node k n d (map unadorned ins)
  end.

(** A computation that never raises the ValueError of the single-input
    form of [compute]. *)
Definition no_dict_input_error {A} (m : M A) : Prop :=
  forall w, fst (m w) <> Raise ValueError_dict_input.

(** The calls of the log that are calls of [pre_compute] or [optimize],
    dispatched or configured. *)
Definition is_hook_call (c : call) : bool :=
  match c with
  | Call_pre_compute _ _ _ | Call_pre_compute_kw _ _
  | Call_optimize _ _ | Call_optimize_kw _ _ => true
  | _ => false
  end.

Definition hook_calls (w : world) : list call := filter is_hook_call (calls w).

(** The token of the [n]-th expression allocated under one name: none for
    the first, then 0, 1, 2, ... *)
Definition nth_token (n : nat) : option nat :=
  match n with
  | O => None
  | S k => Some k
  end.

(** The pairs of one name in use after [k] expressions of that name were
    allocated. *)
Definition tokens_upto (name : string) (k : nat) (used : list name_token) : Prop :=
  forall t, In (name, t) used <->
            match t with
            | None => (1 <= k)%nat
            | Some j => (j + 2 <= k)%nat
            end.

(** [k in scope] *)
Definition is_key (scope : Scope) (k : Expr) : bool :=
  match dict_get Expr_eq_dec k scope with
  | Some _ => true
  | None => false
  end.

(** The ways [bottom_up] ends: a value, NotImplementedError, or the failure
    of a handler. *)
Definition value_or_handler_error {A} (o : outcome A) : Prop :=
  match o with
  | Ret _ | Raise NotImplementedError | Raise (HandlerFault _) => True
  | _ => False
  end.

(** A computation that leaves the tables of the allocator alone and ends
    in one of these ways. *)
Definition quiet {A} (m : M A) : Prop :=
  forall w, leaves (snd (m w)) = leaves w /\ value_or_handler_error (fst (m w)).

(** A computation that writes the tables of the allocator only through
    calls of [makeleaf]: the tables it leaves are those of a run of
    requests from the tables it found. *)
Definition allocates_only {A} (m : M A) : Prop :=
  forall w, exists es, leaves (snd (m w)) = snd (makeleaves es (leaves w)).

(** A computation whose outcome and whose effect on the tables of the
    allocator do not depend on the call log. *)
Definition log_blind {A} (m : M A) : Prop :=
  forall w w',
    leaves w = leaves w' ->
    fst (m w) = fst (m w') /\ leaves (snd (m w)) = leaves (snd (m w')).

(** What the bottom-up evaluator returns for inputs that are keys of the
    scope: each input [i] with its leaf [l] gives [(l, {l: scope[i]})]. *)
Definition renamed_inputs (scope : Scope) (inputs leafs : list Expr)
  : list (Expr * Scope) :=
  map (fun il => (snd il, [(snd il, scope_get scope (fst il))])) (combine inputs leafs).

(** The scope binding the leaf of each input to the value of the input. *)
Definition renamed_scope (scope : Scope) (inputs leafs : list Expr) : Scope :=
  map (fun il => (snd il, scope_get scope (fst il))) (combine inputs leafs).

(** The leaf that stands for an input. *)
Definition leaf_of (inputs leafs : list Expr) (i : Expr) : Expr :=
  match dict_get Expr_eq_dec i (combine inputs leafs) with
  | Some l => l
  | None => i
  end.

(** The size of an expression: an expression is not one of its own
    inputs. *)
Fixpoint expr_size (e : Expr) : nat :=
  match e with
  | Node _ _ _ ins =>
      S ((fix sum (l : list Expr) : nat :=
            match l with
            | [] => O
            | i :: rest => (expr_size i + sum rest)%nat
            end) ins)
  | _ => 1%nat
  end.

(** What makes the lookup [scope[e]] of the evaluator harmless for the
    symbols: [e] is a key of the scope, or it is not a symbol. *)
Definition key_or_node (scope : Scope) (e : Expr) : Prop :=
  is_key scope e = true \/ is_Symbol e = false.

(* ------------------------------------------------------------------ *)
(** ** Example data *)

(** An order on the classes, for the examples. *)
Definition class_rank (t : pytype) : Z :=
  match t with
  | PyNoneType => 0 | PyBool => 1 | PyInt => 2 | PyFloat => 3 | PyStr => 4
  | PyDate => 5 | PyDatetime => 6 | PyList => 7 | PyTuple => 8 | PySet => 9
  | PyListIterator => 10 | PyGenerator => 11 | PyDict => 12
  | PyBackend c => 13 + Z.of_nat c
  end.

(** Example expressions. *)
Definition ex_x : Expr := Symbol "x" "int" None.
Definition ex_y : Expr := Symbol "y" "int" None.
Definition ex_x_plus_x : Expr := Node "Add" "" "int" [ex_x; ex_x].
Definition ex_x_plus_y : Expr := Node "Add" "" "int" [ex_x; ex_y].

(** [Data([1, 2, 3], dshape='3 * int', name='t')] and [t.head(2)] *)
Definition ex_t : Expr :=
  Interactive "t" "3 * int" (VList [VInt 1; VInt 2; VInt 3]).
Definition ex_t_head : Expr := Node "Head(2)" "t" "2 * int" [ex_t].

(** A second source under the same name and shape. *)
Definition ex_t' : Expr :=
  Interactive "t" "3 * int" (VList [VInt 4; VInt 5; VInt 6]).
Definition ex_t_t' : Expr := Node "Add" "t" "3 * int" [ex_t; ex_t'].

(** [s.amount.sum() + 1] over an array [s]. *)
Definition ex_s : Expr := Symbol "s" "var * {name: string, amount: int}" None.
Definition ex_amount : Expr := Node "Field" "amount" "var * int" [ex_s].
Definition ex_amount_sum : Expr := Node "sum" "amount_sum" "int" [ex_amount].
Definition ex_amount_sum_plus_1 : Expr := Node "Add1" "amount_sum" "int" [ex_amount_sum].

(** A small backend for the examples: integers are added, a field of an
    array is an array, the sum of an array is its payload. *)
Definition ex_registry : Registry :=
  {| reg_pre_compute := fun _ _ _ => None;
     reg_post_compute := fun _ _ _ => None;
     reg_optimize := fun _ _ => None;
     reg_compute_up := fun e data _ =>
       match e, data with
       | Node "Add" _ _ _, [VInt a; VInt b] => Some (Done (VInt (a + b)))
       | Node "Add1" _ _ _, [VInt a] => Some (Done (VInt (a + 1)))
       | Node "Field" _ _ _, [VBackend c p] => Some (Done (VBackend c p))
       | Node "sum" _ _ _, [VBackend c p] => Some (Done (VInt p))
       | _, _ => None
       end;
     reg_compute_down := fun _ _ _ => None |}.

(** An expression without symbols. *)
Definition ex_const : Expr := Node "Const" "c" "int" [].

(** Both hooks switched off, and both hooks overridden: the override of
    [pre_compute] adds 1000 to an integer, that of [optimize] keeps the
    expression. *)
Definition ex_kw_off : kwargs :=
  {| kw_optimize := Falsy; kw_pre_compute := Falsy |}.

Definition ex_kw_given : kwargs :=
  {| kw_optimize := Given (fun e _ => Done e);
     kw_pre_compute :=
       Given (fun _ v => match v with
                         | VInt z => Done (VInt (z + 1000))
                         | _ => Done v
                         end) |}.

(** Two expressions of one display name, and a bound inner node over an
    unbound symbol. *)
Definition ex_amount_plus_1 : Expr := Node "Add1" "amount" "var * int" [ex_amount].
Definition ex_x_twice : Expr := Node "Mul2" "x" "int" [ex_x].
Definition ex_x_twice_plus_1 : Expr := Node "Add1" "x" "int" [ex_x_twice].
Definition ex_scope_xy : Scope := [(ex_x, VInt 1); (ex_y, VInt 2)].



(* ================================================================== *)
(** * Properties *)

Example type_change_doc1 :
  type_change [VInt 1; VInt 2] [VInt 3; VInt 4] = false.
Proof. reflexivity. Qed.

Example type_change_doc2 :
  type_change [VInt 1; VInt 2] [VInt 3; VList [VInt 1; VInt 2; VInt 3]] = true.
Proof. reflexivity. Qed.

Example type_change_doc3 :
  type_change [VList [VInt 1; VInt 2]] [VIter [VInt 1; VInt 2]] = false.
Proof. reflexivity. Qed.

(** The documented runs of the allocator, the bottom-up evaluator, the
    driver and the resource binder. *)
Example makeleaf_doc :
  fst (makeleaves [ex_amount; ex_amount_plus_1; ex_amount_plus_1; ex_amount]
                  (_reset_leaves (leaves new_world)))
  = [Symbol "amount" "var * int" None;
     Symbol "amount" "var * int" (Some 0%nat);
     Symbol "amount" "var * int" (Some 0%nat);
     Symbol "amount" "var * int" None].
Proof. reflexivity. Qed.

Example bottom_up_doc_no_break :
  fst (bottom_up_until_type_break ex_registry (Ordered class_rank) ex_x_plus_x
         [(ex_x, VInt 1)] new_world)
  = Ret (Symbol "_" "int" None, [(Symbol "_" "int" None, VInt 2)]).
Proof. reflexivity. Qed.

Example bottom_up_doc_break :
  fst (bottom_up_until_type_break ex_registry (Ordered class_rank) ex_amount_sum_plus_1
         [(ex_s, VBackend 0 600)] new_world)
  = Ret (Node "Add1" "amount_sum" "int" [Symbol "amount_sum" "int" None],
         [(Symbol "amount_sum" "int" None, VInt 600)]).
Proof. reflexivity. Qed.

Example driver_doc :
  fst (top_then_bottom_then_top_again_etc ex_registry (Ordered class_rank) 3
         ex_amount_sum_plus_1 [(ex_s, VBackend 0 600)] no_kwargs new_world)
  = Ret (OVal (VInt 601)).
Proof. reflexivity. Qed.

Example compute_doc :
  fst (compute ex_registry (Ordered class_rank) 3 ex_amount_sum_plus_1
         [(ex_s, VBackend 0 600)] no_kwargs new_world)
  = Ret (OVal (VInt 601)) /\
  fst (compute_single ex_registry (Ordered class_rank) 3 ex_amount_sum_plus_1
         (VBackend 0 600) no_kwargs new_world)
  = Ret (OVal (VInt 601)).
Proof. split; reflexivity. Qed.

(** Without an order of the classes the documented runs are the same,
    each sort being of a single value; two values cannot be sorted. *)
Example runs_without_class_order :
  fst (bottom_up_until_type_break ex_registry Unordered ex_x_plus_x
         [(ex_x, VInt 1)] new_world)
  = Ret (Symbol "_" "int" None, [(Symbol "_" "int" None, VInt 2)]) /\
  fst (compute ex_registry Unordered 3 ex_amount_sum_plus_1
         [(ex_s, VBackend 0 600)] no_kwargs new_world)
  = Ret (OVal (VInt 601)) /\
  fst (bottom_up_until_type_break ex_registry Unordered ex_x_plus_y ex_scope_xy new_world)
  = Raise TypeError_unorderable.
Proof. repeat split. Qed.

(** Two rounds are not enough for this expression. *)
Example driver_needs_rounds :
  fst (top_then_bottom_then_top_again_etc ex_registry (Ordered class_rank) 2
         ex_amount_sum_plus_1 [(ex_s, VBackend 0 600)] no_kwargs new_world)
  = Unfinished.
Proof. reflexivity. Qed.

Lemma issubtype_spec (a b : pytype) :
  issubtype a b = true <->
  issubclass a b = true \/
  (is_container a = true /\ is_Iterator b = true) \/
  (is_container b = true /\ is_Iterator a = true).
Proof.
  unfold issubtype.
  destruct (issubclass a b); [ intuition | ].
  destruct (is_container a), (is_Iterator b), (is_container b), (is_Iterator a);
    simpl; intuition congruence.
Qed.

(** Some aligned pair fails [f]: the negation of [all(map(f, xs, ys))]. *)
Lemma all_map2_false {A B} (f : A -> B -> bool) (xs : list A) (ys : list B) :
  List.length xs = List.length ys ->
  (all_map2 f xs ys = false <->
   exists i x y, nth_error xs i = Some x /\ nth_error ys i = Some y /\ f x y = false).
Proof.
  revert ys; induction xs as [|x xs IH]; intros [|y ys] Hlen; simpl in *;
    try discriminate.
  - split; [ discriminate | intros (i & a & b & Ha & _) ].
    destruct i; discriminate.
  - injection Hlen as Hlen. specialize (IH ys Hlen).
    rewrite andb_false_iff. split.
    + intros [Hf | Hr].
      * exists 0%nat, x, y. repeat split; auto.
      * apply IH in Hr. destruct Hr as (i & a & b & Ha & Hb & Hab).
        exists (S i), a, b. repeat split; auto.
    + intros (i & a & b & Ha & Hb & Hab). destruct i as [|i]; simpl in *.
      * left. congruence.
      * right. apply IH. exists i, a, b. auto.
Qed.

Lemma nth_error_map_type (xs : list value) (i : nat) (t : pytype) :
  nth_error (map type xs) i = Some t <->
  exists x, nth_error xs i = Some x /\ type x = t.
Proof.
  rewrite nth_error_map. destruct (nth_error xs i) as [x|]; simpl.
  - split; [ intros [= <-]; eauto | intros (y & [= <-] & <-); reflexivity ].
  - split; [ discriminate | intros (y & Hy & _); discriminate ].
Qed.

(** The third branch of [type_change]: position by position. *)
Lemma type_change_positional (old new : list value) :
  forallb isinstance_base (old ++ new) = false ->
  List.length old = List.length new ->
  (type_change old new = true <->
   exists i a b, nth_error new i = Some a /\ nth_error old i = Some b /\
                 issubtype (type a) (type b) = false).
Proof.
  intros Hbase Hlen. unfold type_change. rewrite Hbase, Hlen, Nat.eqb_refl. simpl.
  rewrite negb_true_iff, all_map2_false by (rewrite !length_map; auto).
  split.
  - intros (i & ta & tb & Ha & Hb & Hab).
    apply nth_error_map_type in Ha, Hb.
    destruct Ha as (a & Ha & <-), Hb as (b & Hb & <-). eauto 6.
  - intros (i & a & b & Ha & Hb & Hab).
    exists i, (type a), (type b). repeat split; auto;
      apply nth_error_map_type; eauto.
Qed.

Lemma type_change_all_base (old new : list value) :
  forallb isinstance_base (old ++ new) = true -> type_change old new = false.
Proof. intros H. unfold type_change. now rewrite H. Qed.

Lemma type_change_length (old new : list value) :
  forallb isinstance_base (old ++ new) = false ->
  List.length old <> List.length new ->
  type_change old new = true.
Proof.
  intros Hbase Hlen. unfold type_change. rewrite Hbase.
  apply Nat.eqb_neq in Hlen. now rewrite Hlen.
Qed.

(** C2, as the code has it: [type_change(old, new)] is false when every
    value of both lists is a primitive scalar, whatever the lengths; true
    when the lists, not all primitive, differ in length; and otherwise true
    exactly when at some position the class of the new value is not
    compatible with the class of the old value at the same position, the
    lists being compared in the order given, where compatible means a
    subclass, or one a list, tuple or set and the other an iterator.  The
    three documented calls give false, true and false. *)
Theorem type_change_characterisation :
  (forall old new,
      forallb isinstance_base (old ++ new) = true -> type_change old new = false) /\
  (forall old new,
      forallb isinstance_base (old ++ new) = false ->
      List.length old <> List.length new -> type_change old new = true) /\
  (forall old new,
      forallb isinstance_base (old ++ new) = false ->
      List.length old = List.length new ->
      (type_change old new = true <->
       exists i a b, nth_error new i = Some a /\ nth_error old i = Some b /\
                     issubtype (type a) (type b) = false)) /\
  (forall a b,
      issubtype a b = true <->
      issubclass a b = true \/
      (is_container a = true /\ is_Iterator b = true) \/
      (is_container b = true /\ is_Iterator a = true)) /\
  type_change [VInt 1; VInt 2] [VInt 3] = false /\
  type_change [VInt 1; VInt 2] [VInt 3; VInt 4] = false /\
  type_change [VInt 1; VInt 2] [VInt 3; VList [VInt 1; VInt 2; VInt 3]] = true /\
  type_change [VList [VInt 1; VInt 2]] [VIter [VInt 1; VInt 2]] = false.
Proof.
  split; [ exact type_change_all_base | ].
  split; [ exact type_change_length | ].
  split; [ exact type_change_positional | ].
  split; [ exact issubtype_spec | ].
  repeat split; reflexivity.
Qed.

(** C2 as stated fails: on an [int] and a list against the same two values
    in the other order, the code reports a break, while after ordering both
    lists by any canonical order of the classes every aligned pair is
    compatible. *)
Lemma type_change_is_not_ordered :
  type_change [VInt 1; VList [VInt 1]] [VList [VInt 1]; VInt 1] = true /\
  (forall type_key : pytype -> Z,
      type_key PyInt <> type_key PyList ->
      type_change_spec type_key [VInt 1; VList [VInt 1]] [VList [VInt 1]; VInt 1] = false).
Proof.
  split; [ reflexivity | ].
  intros type_key Hne. unfold type_change_spec. simpl.
  destruct (type_key PyInt <=? type_key PyList) eqn:E1;
    destruct (type_key PyList <=? type_key PyInt) eqn:E2; try reflexivity.
  - apply Z.leb_le in E1, E2. lia.
  - apply Z.leb_gt in E1, E2. lia.
Qed.

(* ------------------------------------------------------------------ *)
(** ** Dictionaries and sets *)

Section DictFacts.
Variables K V : Type.
Variable K_eq_dec : forall a b : K, {a = b} + {a <> b}.
Implicit Types (d : list (K * V)) (k : K) (v : V).

Lemma dict_get_set_eq k v d :
  dict_get K_eq_dec k (dict_set K_eq_dec k v d) = Some v.
Proof.
  induction d as [|[k' v'] d IH]; simpl.
  - destruct (K_eq_dec k k); congruence.
  - destruct (K_eq_dec k k') as [->|Hne]; simpl.
    + destruct (K_eq_dec k' k'); congruence.
    + destruct (K_eq_dec k k'); congruence.
Qed.

Lemma dict_get_set_ne k k' v d :
  k <> k' ->
  dict_get K_eq_dec k' (dict_set K_eq_dec k v d) = dict_get K_eq_dec k' d.
Proof.
  intros Hne. induction d as [|[k0 v0] d IH]; simpl.
  - destruct (K_eq_dec k' k); congruence.
  - destruct (K_eq_dec k k0) as [->|Hne0]; simpl.
    + destruct (K_eq_dec k' k0); congruence.
    + destruct (K_eq_dec k' k0); congruence.
Qed.

Lemma dict_get_In k v d :
  dict_get K_eq_dec k d = Some v -> In (k, v) d.
Proof.
  induction d as [|[k' v'] d IH]; simpl; [ discriminate | ].
  destruct (K_eq_dec k k') as [->|Hne].
  - intros [= ->]. now left.
  - intros H. right. auto.
Qed.

Lemma dict_get_None k d :
  dict_get K_eq_dec k d = None <-> ~ In k (keys d).
Proof.
  induction d as [|[k' v'] d IH]; simpl.
  - tauto.
  - destruct (K_eq_dec k k') as [->|Hne].
    + split; [ discriminate | intros H; exfalso; apply H; now left ].
    + rewrite IH. split; [ intros H [E|E]; [ congruence | auto ] | auto ].
Qed.

Lemma keys_dict_set k v d x :
  In x (keys (dict_set K_eq_dec k v d)) <-> x = k \/ In x (keys d).
Proof.
  induction d as [|[k' v'] d IH]; simpl.
  - intuition.
  - destruct (K_eq_dec k k') as [->|Hne]; simpl.
    + intuition.
    + rewrite IH. intuition.
Qed.
End DictFacts.

Section SetFacts.
Variable A : Type.
Variable A_eq_dec : forall a b : A, {a = b} + {a <> b}.

Lemma set_in_true (x : A) (s : list A) :
  set_in A_eq_dec x s = true <-> In x s.
Proof. unfold set_in. destruct (in_dec A_eq_dec x s); intuition congruence. Qed.

Lemma set_in_false (x : A) (s : list A) :
  set_in A_eq_dec x s = false <-> ~ In x s.
Proof. unfold set_in. destruct (in_dec A_eq_dec x s); intuition congruence. Qed.

Lemma In_set_add (x y : A) (s : list A) :
  In y (set_add A_eq_dec x s) <-> y = x \/ In y s.
Proof.
  unfold set_add. destruct (set_in A_eq_dec x s) eqn:E.
  - apply set_in_true in E. intuition congruence.
  - rewrite in_app_iff. simpl. intuition.
Qed.
End SetFacts.

(* ------------------------------------------------------------------ *)
(** ** The leaf allocator never reuses a pair *)

(** While every token below [token] is taken, the scan stops on a free
    one before its budget ends: a list of [n] pairs cannot hold [n]
    consecutive tokens of one name and one more pair. *)
Lemma count_until_free_spec (name : string) (used : list name_token) :
  forall budget token,
    (forall k, (k < token)%nat -> In (name, Some k) used) ->
    (List.length used <= token + budget)%nat ->
    ~ In (name, Some (count_until_free name used token budget)) used.
Proof.
  induction budget as [|b IH]; intros token Hbelow Hlen; simpl.
  - intros Hin.
    set (taken := map (fun k => (name, Some k)) (seq 0 token)).
    assert (Hnd : NoDup taken).
    { apply Injective_map_NoDup; [ | apply seq_NoDup ].
      intros a b [= ->]. reflexivity. }
    assert (Hincl : incl taken used).
    { intros p Hp. apply in_map_iff in Hp. destruct Hp as (k & <- & Hk).
      apply in_seq in Hk. apply Hbelow. lia. }
    assert (Hback : incl used taken).
    { apply NoDup_length_incl; auto.
      unfold taken. rewrite length_map, length_seq. lia. }
    apply Hback in Hin. apply in_map_iff in Hin.
    destruct Hin as (k & [= ->] & Hk). apply in_seq in Hk. lia.
  - destruct (set_in name_token_eq_dec (name, Some token) used) eqn:E.
    + apply set_in_true in E. apply IH; [ | lia ].
      intros k Hk. destruct (Nat.eq_dec k token) as [->|]; [ auto | ].
      apply Hbelow. lia.
    + now apply set_in_false in E.
Qed.

(** The scan passes occupied tokens only: it stops where the loop over
    [itertools.count()] stops, on the least free token. *)
Lemma count_until_free_least (name : string) (used : list name_token) :
  forall budget token k,
    (token <= k < count_until_free name used token budget)%nat ->
    In (name, Some k) used.
Proof.
  induction budget as [|b IH]; intros token k Hk; simpl in Hk; [ lia | ].
  destruct (set_in name_token_eq_dec (name, Some token) used) eqn:E; [ | lia ].
  apply set_in_true in E.
  destruct (Nat.eq_dec k token) as [->|Hne]; [ exact E | ].
  apply (IH (S token)). lia.
Qed.

Lemma count_free (name : string) (used : list name_token) :
  ~ In (name, Some (count_until_free name used 0 (List.length used))) used.
Proof. apply count_until_free_spec; [ intros k Hk; lia | lia ]. Qed.

Lemma leaf_inv_reset (st : leaf_state) : leaf_inv (_reset_leaves st).
Proof. split; simpl; intros; discriminate. Qed.

Lemma makeleaf_hit (expr leaf : Expr) (st : leaf_state) :
  dict_get Expr_eq_dec expr (_leaf_cache st) = Some leaf ->
  makeleaf expr st = (leaf, st).
Proof. intros H. unfold makeleaf. now rewrite H. Qed.

(** On a miss the new pair was not in use. *)
Lemma makeleaf_miss (expr : Expr) (st : leaf_state) :
  dict_get Expr_eq_dec expr (_leaf_cache st) = None ->
  exists token,
    ~ In (leaf_name expr, token) (_used_tokens st) /\
    makeleaf expr st =
    (Symbol (leaf_name expr) (dshape expr) token,
     {| _leaf_cache :=
          dict_set Expr_eq_dec expr (Symbol (leaf_name expr) (dshape expr) token)
                   (_leaf_cache st);
        _used_tokens :=
          set_add name_token_eq_dec (leaf_name expr, token) (_used_tokens st) |}).
Proof.
  intros H. unfold makeleaf. rewrite H.
  set (name := leaf_name expr).
  destruct (set_in name_token_eq_dec (name, None) (_used_tokens st)) eqn:E.
  - eexists. split; [ apply count_free | reflexivity ].
  - exists None. split; [ now apply set_in_false in E | reflexivity ].
Qed.

Lemma makeleaf_cached (expr : Expr) (st : leaf_state) :
  dict_get Expr_eq_dec expr (_leaf_cache (snd (makeleaf expr st)))
  = Some (fst (makeleaf expr st)).
Proof.
  destruct (dict_get Expr_eq_dec expr (_leaf_cache st)) as [leaf|] eqn:E.
  - rewrite (makeleaf_hit _ _ E). exact E.
  - destruct (makeleaf_miss _ _ E) as (token & _ & ->). simpl.
    apply dict_get_set_eq.
Qed.

Lemma makeleaf_keeps (expr e s : Expr) (st : leaf_state) :
  dict_get Expr_eq_dec e (_leaf_cache st) = Some s ->
  dict_get Expr_eq_dec e (_leaf_cache (snd (makeleaf expr st))) = Some s.
Proof.
  intros H.
  destruct (dict_get Expr_eq_dec expr (_leaf_cache st)) as [leaf|] eqn:E.
  - now rewrite (makeleaf_hit _ _ E).
  - destruct (makeleaf_miss _ _ E) as (token & _ & ->). simpl.
    rewrite dict_get_set_ne; [ exact H | congruence ].
Qed.

Lemma makeleaf_inv (expr : Expr) (st : leaf_state) :
  leaf_inv st -> leaf_inv (snd (makeleaf expr st)).
Proof.
  intros [Hnamed Hused Hapart].
  destruct (dict_get Expr_eq_dec expr (_leaf_cache st)) as [leaf|] eqn:E.
  - rewrite (makeleaf_hit _ _ E). now split.
  - destruct (makeleaf_miss _ _ E) as (token & Hfree & ->). simpl.
    set (new := Symbol (leaf_name expr) (dshape expr) token) in *.
    assert (Hget : forall e s,
               dict_get Expr_eq_dec e (dict_set Expr_eq_dec expr new (_leaf_cache st)) = Some s ->
               (e = expr /\ s = new) \/
               (e <> expr /\ dict_get Expr_eq_dec e (_leaf_cache st) = Some s)).
    { intros e s H. destruct (Expr_eq_dec expr e) as [<-|Hne].
      - rewrite dict_get_set_eq in H. left. split; congruence.
      - rewrite dict_get_set_ne in H by exact Hne. right. split; congruence. }
    split; simpl.
    + intros e s H. apply Hget in H. destruct H as [[-> ->]|[_ H]]; [ reflexivity | eauto ].
    + intros e s H. apply In_set_add. apply Hget in H.
      destruct H as [[-> ->]|[_ H]]; [ now left | right; eauto ].
    + intros e1 e2 s1 s2 H1 H2 Hpair.
      apply Hget in H1, H2.
      destruct H1 as [[-> ->]|[Hn1 H1]], H2 as [[-> ->]|[Hn2 H2]]; try reflexivity.
      * exfalso. apply Hfree. simpl in Hpair. rewrite Hpair. eauto.
      * exfalso. apply Hfree. simpl in Hpair. rewrite <- Hpair. eauto.
      * eauto.
Qed.

(** After a run, the invariant holds and every answer is the cache entry of
    its request. *)
Lemma makeleaves_cached (es : list Expr) :
  forall st,
    leaf_inv st ->
    leaf_inv (snd (makeleaves es st)) /\
    (forall e s, dict_get Expr_eq_dec e (_leaf_cache st) = Some s ->
                 dict_get Expr_eq_dec e (_leaf_cache (snd (makeleaves es st))) = Some s) /\
    (forall i e s,
        nth_error es i = Some e ->
        nth_error (fst (makeleaves es st)) i = Some s ->
        dict_get Expr_eq_dec e (_leaf_cache (snd (makeleaves es st))) = Some s).
Proof.
  induction es as [|e0 es IH]; intros st Hinv; simpl.
  - split; [ exact Hinv | split; [ auto | ] ]. intros [|i] e s H; discriminate.
  - pose proof (makeleaf_cached e0 st) as Hc.
    pose proof (fun e s => @makeleaf_keeps e0 e s st) as Hk.
    pose proof (makeleaf_inv e0 Hinv) as Hinv1.
    destruct (makeleaf e0 st) as [leaf st1]. simpl in Hc, Hk, Hinv1.
    destruct (IH st1 Hinv1) as (Hinv2 & Hmono & Hnth).
    destruct (makeleaves es st1) as [ls st2]. simpl in *.
    split; [ exact Hinv2 | split; [ auto | ] ].
    intros [|i] e s He Hs; simpl in *.
    + injection He as <-. injection Hs as <-. auto.
    + eauto.
Qed.

(** C9: within one evaluation, that is for any sequence of allocation
    requests made after a reset, two requests for the same expression get
    the same symbol, and two requests for different expressions get symbols
    with different (name, token) pairs; when the two expressions share
    their display name the symbols have the same name, different tokens,
    and are not identical. *)
Theorem makeleaf_memoized_and_fresh
        (st0 : leaf_state) (es : list Expr) (i j : nat) (ei ej si sj : Expr) :
  nth_error es i = Some ei ->
  nth_error es j = Some ej ->
  nth_error (fst (makeleaves es (_reset_leaves st0))) i = Some si ->
  nth_error (fst (makeleaves es (_reset_leaves st0))) j = Some sj ->
  (ei = ej -> si = sj) /\
  (ei <> ej -> (_name si, _token si) <> (_name sj, _token sj)) /\
  (ei <> ej -> _name ei = _name ej ->
   _name si = _name sj /\ _token si <> _token sj /\ isidentical si sj = false).
Proof.
  intros Hei Hej Hsi Hsj.
  destruct (makeleaves_cached es (leaf_inv_reset st0)) as ([Hnamed Hused Hapart] & _ & Hnth).
  pose proof (Hnth _ _ _ Hei Hsi) as Hci.
  pose proof (Hnth _ _ _ Hej Hsj) as Hcj.
  assert (Hpairs : ei <> ej -> (_name si, _token si) <> (_name sj, _token sj)).
  { intros Hne Hpair. apply Hne. eapply Hapart; eauto. }
  split; [ intros <-; congruence | ].
  split; [ exact Hpairs | ].
  intros Hne Hname.
  assert (Hsame : _name si = _name sj).
  { rewrite (Hnamed _ _ Hci), (Hnamed _ _ Hcj). simpl.
    unfold leaf_name. now rewrite Hname. }
  split; [ exact Hsame | split ].
  - intros Htok. apply (Hpairs Hne). now rewrite Hsame, Htok.
  - unfold isidentical. destruct (Expr_eq_dec si sj) as [->|]; [ | reflexivity ].
    exfalso. now apply (Hpairs Hne).
Qed.

(* ------------------------------------------------------------------ *)
(** ** More on dictionaries *)

Section DictUpdateFacts.
Variables K V : Type.
Variable K_eq_dec : forall a b : K, {a = b} + {a <> b}.
Implicit Types (d items : list (K * V)) (k : K) (v : V).

Lemma dict_get_app k d1 d2 :
  dict_get K_eq_dec k (d1 ++ d2) =
  match dict_get K_eq_dec k d1 with
  | Some v => Some v
  | None => dict_get K_eq_dec k d2
  end.
Proof.
  induction d1 as [|[k' v'] d1 IH]; simpl; [ reflexivity | ].
  destruct (K_eq_dec k k'); auto.
Qed.

(** After an update the last item for a key decides, then the old
    dictionary. *)
Lemma dict_get_update k items : forall d,
  dict_get K_eq_dec k (dict_update K_eq_dec d items) =
  match dict_get K_eq_dec k (rev items) with
  | Some v => Some v
  | None => dict_get K_eq_dec k d
  end.
Proof.
  unfold dict_update.
  induction items as [|[k0 v0] items IH]; intros d; simpl; [ reflexivity | ].
  rewrite IH, dict_get_app. simpl.
  destruct (dict_get K_eq_dec k (rev items)); [ reflexivity | ].
  destruct (K_eq_dec k k0) as [->|Hne].
  - apply dict_get_set_eq.
  - apply dict_get_set_ne. congruence.
Qed.

Lemma dict_get_of_items k items :
  dict_get K_eq_dec k (dict_of_items K_eq_dec items) = dict_get K_eq_dec k (rev items).
Proof.
  unfold dict_of_items. rewrite dict_get_update.
  now destruct (dict_get K_eq_dec k (rev items)).
Qed.

Lemma dict_get_merge2 k d1 d2 :
  dict_get K_eq_dec k (merge K_eq_dec [d1; d2]) =
  match dict_get K_eq_dec k (rev d2) with
  | Some v => Some v
  | None => dict_get K_eq_dec k (rev d1)
  end.
Proof.
  unfold merge. simpl. rewrite dict_get_update.
  destruct (dict_get K_eq_dec k (rev d2)); [ reflexivity | ].
  apply dict_get_of_items.
Qed.

Lemma In_dict_get k v d :
  NoDup (keys d) -> In (k, v) d -> dict_get K_eq_dec k d = Some v.
Proof.
  induction d as [|[k' v'] d IH]; simpl; intros Hnd Hin; [ contradiction | ].
  inversion Hnd as [|? ? Hnotin Hnd']; subst.
  destruct Hin as [[= -> ->]|Hin].
  - destruct (K_eq_dec k k); congruence.
  - destruct (K_eq_dec k k') as [->|Hne]; [ | auto ].
    exfalso. apply Hnotin. unfold keys. change k' with (fst (k', v)).
    now apply in_map.
Qed.

(** In a dictionary, whose keys are distinct, the direction of the search
    does not matter. *)
Lemma dict_get_rev k d :
  NoDup (keys d) -> dict_get K_eq_dec k (rev d) = dict_get K_eq_dec k d.
Proof.
  intros Hnd.
  assert (Hnd' : NoDup (keys (rev d))).
  { unfold keys. rewrite map_rev. apply NoDup_rev. exact Hnd. }
  destruct (dict_get K_eq_dec k d) as [v|] eqn:E.
  - apply In_dict_get; [ exact Hnd' | ]. apply in_rev. rewrite rev_involutive.
    now apply dict_get_In in E.
  - apply dict_get_None. apply dict_get_None in E.
    unfold keys in *. rewrite map_rev. now rewrite <- in_rev.
Qed.

Lemma NoDup_keys_dict_set k v d :
  NoDup (keys d) -> NoDup (keys (dict_set K_eq_dec k v d)).
Proof.
  induction d as [|[k' v'] d IH]; simpl; intros Hnd.
  - constructor; [ intros [] | constructor ].
  - inversion Hnd as [|? ? Hnotin Hnd']; subst.
    destruct (K_eq_dec k k') as [->|Hne]; simpl.
    + now constructor.
    + constructor; [ | auto ].
      intros Hin. apply keys_dict_set in Hin. destruct Hin; [ congruence | auto ].
Qed.

Lemma NoDup_keys_dict_update items : forall d,
  NoDup (keys d) -> NoDup (keys (dict_update K_eq_dec d items)).
Proof.
  unfold dict_update.
  induction items as [|[k v] items IH]; intros d Hnd; simpl; [ exact Hnd | ].
  apply IH. now apply NoDup_keys_dict_set.
Qed.

Lemma NoDup_keys_dict_of_items items :
  NoDup (keys (dict_of_items K_eq_dec items)).
Proof. apply NoDup_keys_dict_update. constructor. Qed.

Lemma In_dict_set a b k v d :
  In (a, b) (dict_set K_eq_dec k v d) -> (a, b) = (k, v) \/ In (a, b) d.
Proof.
  induction d as [|[k' v'] d IH]; simpl.
  - intros [H|[]]. left. congruence.
  - destruct (K_eq_dec k k') as [->|Hne]; simpl.
    + intros [H|H]; [ left; congruence | right; now right ].
    + intros [H|H]; [ right; now left | ].
      destruct (IH H); [ now left | right; now right ].
Qed.

Lemma In_dict_update a b items : forall d,
  In (a, b) (dict_update K_eq_dec d items) -> In (a, b) d \/ In (a, b) items.
Proof.
  unfold dict_update.
  induction items as [|[k v] items IH]; intros d; simpl; [ now left | ].
  intros H. apply IH in H. destruct H as [H|H]; [ | right; now right ].
  apply In_dict_set in H. destruct H as [H|H]; [ right; left; congruence | now left ].
Qed.

Lemma keys_dict_update x items : forall d,
  In x (keys (dict_update K_eq_dec d items)) <-> In x (keys d) \/ In x (keys items).
Proof.
  unfold dict_update.
  induction items as [|[k v] items IH]; intros d; simpl; [ tauto | ].
  rewrite IH, keys_dict_set. intuition.
Qed.

Lemma dict_mem_keys k d :
  dict_get K_eq_dec k d <> None <-> In k (keys d).
Proof.
  pose proof (dict_get_None K_eq_dec k d) as H.
  destruct (in_dec K_eq_dec k (keys d)) as [Hin|Hout].
  - split; [ auto | intros _ E; now apply H in E ].
  - split; [ intros E; exfalso; apply E; now apply H | contradiction ].
Qed.
End DictUpdateFacts.

(* ------------------------------------------------------------------ *)
(** ** Unbound leaves read as [None] *)

Lemma In_insert_by_type (type_key : pytype -> Z) (x y : value) (xs : list value) :
  In y (insert_by_type type_key x xs) <-> y = x \/ In y xs.
Proof.
  induction xs as [|z zs IH]; simpl.
  - intuition.
  - destruct (type_key (type x) <=? type_key (type z)); simpl.
    + intuition.
    + rewrite IH. intuition.
Qed.

Lemma In_sorted_by_type (type_key : pytype -> Z) (y : value) (xs : list value) :
  In y (sorted_by_type type_key xs) <-> In y xs.
Proof.
  induction xs as [|x xs IH]; simpl; [ tauto | ].
  change (sorted_by_type type_key (x :: xs))
    with (insert_by_type type_key x (sorted_by_type type_key xs)).
  rewrite In_insert_by_type, IH. intuition.
Qed.

Lemma forallb_base_with_None (xs : list value) :
  In VNone xs -> forallb isinstance_base xs = false.
Proof.
  intros Hin. destruct (forallb isinstance_base xs) eqn:E; [ | reflexivity ].
  rewrite forallb_forall in E. specialize (E _ Hin). discriminate.
Qed.

(* ------------------------------------------------------------------ *)
(** ** Expressions *)

(** Induction over expressions with the inputs of a node covered. *)
Lemma Expr_nested_ind (P : Expr -> Prop) :
  (forall n d t, P (Symbol n d t)) ->
  (forall n d v, P (Interactive n d v)) ->
  (forall k n d ins, Forall P ins -> P (Node k n d ins)) ->
  forall e, P e.
Proof.
  intros Hs Hi Hn. fix IH 1. intros [n d t|n d v|k n d ins].
  - apply Hs.
  - apply Hi.
  - apply Hn. induction ins as [|i ins IHins]; constructor; [ apply IH | exact IHins ].
Qed.

Lemma In_unique_from {A} (A_eq_dec : forall a b : A, {a = b} + {a <> b})
      (x : A) (xs : list A) : forall seen,
  In x (unique_from A_eq_dec seen xs) <-> In x xs /\ ~ In x seen.
Proof.
  induction xs as [|y ys IH]; intros seen; simpl; [ tauto | ].
  destruct (set_in A_eq_dec y seen) eqn:E.
  - apply set_in_true in E. rewrite IH. intuition congruence.
  - apply set_in_false in E. simpl. rewrite IH. simpl.
    destruct (A_eq_dec y x) as [->|Hne]; intuition congruence.
Qed.

Lemma In_unique {A} (A_eq_dec : forall a b : A, {a = b} + {a <> b})
      (x : A) (xs : list A) :
  In x (unique A_eq_dec xs) <-> In x xs.
Proof. unfold unique. rewrite In_unique_from. simpl. tauto. Qed.

Lemma dict_get_graph {A B} (A_eq_dec : forall a b : A, {a = b} + {a <> b})
      (f : A -> B) (k : A) (l : list A) :
  dict_get A_eq_dec k (map (fun t => (t, f t)) l) =
  if in_dec A_eq_dec k l then Some (f k) else None.
Proof.
  induction l as [|x l IH]; simpl; [ reflexivity | ].
  destruct (A_eq_dec k x) as [->|Hne].
  - destruct (A_eq_dec x x); [ reflexivity | congruence ].
  - rewrite IH. destruct (A_eq_dec x k); [ congruence | ].
    destruct (in_dec A_eq_dec k l); reflexivity.
Qed.

(** The keys of [e._resources()] are the data-carrying leaves of [e]. *)
Lemma resources_keys (expr t : Expr) :
  In t (keys (_resources expr)) <->
  In t (terminals expr) /\ exists n d v, t = Interactive n d v.
Proof.
  unfold _resources, dict_of_items. rewrite keys_dict_update. simpl.
  unfold keys. rewrite in_map_iff. split.
  - intros [[]|((t', v) & <- & Hin)]. apply in_flat_map in Hin.
    destruct Hin as (l & Hl & Hat). apply In_unique in Hl.
    destruct l; simpl in Hat; try contradiction.
    destruct Hat as [[= <- <-]|[]]. simpl. eauto.
  - intros (Hin & n & d & v & ->). right. exists (Interactive n d v, v).
    split; [ reflexivity | ]. apply in_flat_map.
    exists (Interactive n d v). split; [ now apply In_unique | now left ].
Qed.

(** Each entry of [e._resources()] is a data-carrying leaf with its data. *)
Lemma resources_entries (expr t : Expr) (v : value) :
  In (t, v) (_resources expr) <->
  In t (terminals expr) /\ exists n d, t = Interactive n d v.
Proof.
  split.
  - intros Hin. unfold _resources, dict_of_items in Hin.
    apply In_dict_update in Hin. destruct Hin as [[]|Hin].
    apply in_flat_map in Hin. destruct Hin as (l & Hl & Hat).
    apply In_unique in Hl.
    destruct l; simpl in Hat; try contradiction.
    destruct Hat as [[= <- <-]|[]]. eauto.
  - intros (Hin & n & d & ->).
    assert (Hkey : In (Interactive n d v) (keys (_resources expr))).
    { apply resources_keys. eauto. }
    apply dict_mem_keys with (K_eq_dec := Expr_eq_dec) in Hkey.
    destruct (dict_get Expr_eq_dec (Interactive n d v) (_resources expr)) as [v'|] eqn:E;
      [ | congruence ].
    pose proof (dict_get_In _ _ _ E) as Hentry.
    unfold _resources, dict_of_items in Hentry.
    apply In_dict_update in Hentry. destruct Hentry as [[]|Hentry].
    apply in_flat_map in Hentry. destruct Hentry as (l & _ & Hat).
    destruct l; simpl in Hat; try contradiction.
    destruct Hat as [[= <- <- <- <-]|[]].
    now apply dict_get_In in E.
Qed.

Section Binder.
Variable expr : Expr.

Lemma symbol_dict_get (t : Expr) :
  dict_get Expr_eq_dec t (symbol_dict_of expr) =
  if in_dec Expr_eq_dec t (keys (_resources expr)) then Some (plain_symbol t) else None.
Proof.
  unfold symbol_dict_of. rewrite dict_get_of_items, <- map_rev, dict_get_graph.
  destruct (in_dec Expr_eq_dec t (rev (keys (_resources expr)))) as [H|H],
           (in_dec Expr_eq_dec t (keys (_resources expr))) as [H'|H'];
    try reflexivity; exfalso; rewrite <- in_rev in H; contradiction.
Qed.

Lemma symbol_dict_or_plain (t : Expr) :
  match dict_get Expr_eq_dec t (symbol_dict_of expr) with
  | Some s => s
  | None => plain_symbol t
  end = plain_symbol t.
Proof.
  rewrite symbol_dict_get.
  now destruct (in_dec Expr_eq_dec t (keys (_resources expr))).
Qed.

(** Substituting the symbol dictionary strips the data off exactly the
    leaves of [expr]. *)
Lemma subs_symbol_dict (e : Expr) :
  incl (terminals e) (terminals expr) ->
  _subs (symbol_dict_of expr) e = unadorned e.
Proof.
  induction e as [n d t|n d v|k n d ins IH] using Expr_nested_ind; intros Hincl.
  - simpl. rewrite symbol_dict_get.
    destruct (in_dec Expr_eq_dec (Symbol n d t) (keys (_resources expr))) as [H|H];
      [ | reflexivity ].
    apply resources_keys in H. destruct H as (_ & ? & ? & ? & ?). discriminate.
  - simpl. rewrite symbol_dict_get.
    destruct (in_dec Expr_eq_dec (Interactive n d v) (keys (_resources expr))) as [H|H];
      [ reflexivity | ].
    exfalso. apply H. apply resources_keys. split; [ | eauto ].
    apply Hincl. now left.
  - simpl. rewrite symbol_dict_get.
    destruct (in_dec Expr_eq_dec (Node k n d ins) (keys (_resources expr))) as [H|H].
    { apply resources_keys in H. destruct H as (_ & ? & ? & ? & ?). discriminate. }
    f_equal. apply map_ext_in. intros i Hi.
    rewrite Forall_forall in IH. apply IH; [ exact Hi | ].
    intros x Hx. apply Hincl. simpl. apply in_flat_map. eauto.
Qed.

Lemma swap_resources_expr (scope : Scope) :
  fst (swap_resources_into_scope expr scope) = unadorned expr.
Proof. simpl. apply subs_symbol_dict. apply incl_refl. Qed.

Lemma swap_resources_scope (scope : Scope) :
  snd (swap_resources_into_scope expr scope) = merge Expr_eq_dec [derived_bindings expr; scope].
Proof.
  unfold swap_resources_into_scope, derived_bindings. cbn [snd].
  apply (f_equal (fun x => merge Expr_eq_dec [x; scope])).
  apply (f_equal (dict_of_items Expr_eq_dec)).
  apply map_ext. intros kv. f_equal. apply symbol_dict_or_plain.
Qed.

Lemma swap_resources_get (scope : Scope) (k : Expr) :
  NoDup (keys scope) ->
  dict_get Expr_eq_dec k (snd (swap_resources_into_scope expr scope)) =
  match dict_get Expr_eq_dec k scope with
  | Some v => Some v
  | None => dict_get Expr_eq_dec k (derived_bindings expr)
  end.
Proof.
  intros Hnd. rewrite swap_resources_scope, dict_get_merge2.
  rewrite (@dict_get_rev _ _ Expr_eq_dec k scope Hnd).
  destruct (dict_get Expr_eq_dec k scope); [ reflexivity | ].
  apply dict_get_rev. apply NoDup_keys_dict_of_items.
Qed.

(** A data-carrying leaf whose name and shape no leaf with other data
    shares is bound to its data among the (derived_bindings expr) bindings. *)
Lemma derived_get (n d : string) (v : value) :
  In (Interactive n d v) (_leaves expr) ->
  (forall v', In (Interactive n d v') (_leaves expr) -> v' = v) ->
  dict_get Expr_eq_dec (Symbol n d None) (derived_bindings expr) = Some v.
Proof.
  intros Hleaf Honly. unfold derived_bindings. rewrite dict_get_of_items.
  set (items := map (fun kv => (plain_symbol (fst kv), snd kv)) (_resources expr)).
  destruct (dict_get Expr_eq_dec (Symbol n d None) (rev items)) as [v'|] eqn:E.
  - apply dict_get_In in E. apply in_rev in E. unfold items in E.
    apply in_map_iff in E. destruct E as ((t & v0) & Heq & Hin).
    apply resources_entries in Hin. destruct Hin as (Hterm & n' & d' & ->).
    unfold plain_symbol in Heq. simpl in Heq. injection Heq as -> -> ->.
    f_equal. apply Honly. now apply In_unique.
  - exfalso. apply dict_get_None in E. apply E.
    unfold keys. rewrite map_rev, <- in_rev. unfold items. rewrite map_map. simpl.
    apply in_map_iff. exists (Interactive n d v, v). split; [ reflexivity | ].
    apply resources_entries. split; [ now apply In_unique in Hleaf | eauto ].
Qed.
End Binder.

(** C8, as the code has it: for every expression and every caller scope (a
    dictionary), the resource binder returns the expression with each
    data-carrying leaf replaced by the plain symbol of the same name and
    shape; every binding of the caller is kept, so the caller wins on a
    collision; and a data-carrying leaf whose name and shape no leaf with
    other data shares has its plain symbol bound to its data, unless the
    caller binds that symbol.  A leaf [t] with data [[1, 2, 3]] gives an
    expression over the plain symbol [t] and the scope [{t: [1, 2, 3]}]. *)
Theorem swap_resources_into_scope_spec (expr : Expr) (scope : Scope) :
  NoDup (keys scope) ->
  fst (swap_resources_into_scope expr scope) = unadorned expr /\
  (forall k x,
      dict_get Expr_eq_dec k scope = Some x ->
      dict_get Expr_eq_dec k (snd (swap_resources_into_scope expr scope)) = Some x) /\
  (forall n d v,
      In (Interactive n d v) (_leaves expr) ->
      (forall v', In (Interactive n d v') (_leaves expr) -> v' = v) ->
      dict_get Expr_eq_dec (Symbol n d None) scope = None ->
      dict_get Expr_eq_dec (Symbol n d None) (snd (swap_resources_into_scope expr scope))
      = Some v) /\
  swap_resources_into_scope ex_t_head [] =
  (Node "Head(2)" "t" "2 * int" [Symbol "t" "3 * int" None],
   [(Symbol "t" "3 * int" None, VList [VInt 1; VInt 2; VInt 3])]).
Proof.
  intros Hnd. split; [ apply swap_resources_expr | ].
  split; [ | split; [ | reflexivity ] ].
  - intros k x Hk. rewrite swap_resources_get by exact Hnd. now rewrite Hk.
  - intros n d v Hleaf Honly Hfree.
    rewrite swap_resources_get by exact Hnd. rewrite Hfree.
    now apply derived_get.
Qed.

(** C8 as stated fails: of two data-carrying leaves with one name and one
    shape, only the data of the second is bound to their common symbol. *)
Lemma swap_resources_name_clash :
  In ex_t (_leaves ex_t_t') /\
  swap_resources_into_scope ex_t_t' [] =
  (Node "Add" "t" "3 * int" [Symbol "t" "3 * int" None; Symbol "t" "3 * int" None],
   [(Symbol "t" "3 * int" None, VList [VInt 4; VInt 5; VInt 6])]) /\
  dict_get Expr_eq_dec (Symbol "t" "3 * int" None)
           (snd (swap_resources_into_scope ex_t_t' []))
  <> Some (VList [VInt 1; VInt 2; VInt 3]).
Proof.
  split; [ now left | split; [ reflexivity | ] ].
  vm_compute. discriminate.
Qed.

(* ------------------------------------------------------------------ *)
(** ** The bottom-up partial evaluator, one level at a time *)

Lemma bind_congr {A B} (m1 m2 : M A) (k1 k2 : A -> M B) (w : world) :
  (forall w0, m1 w0 = m2 w0) ->
  (forall a w0, k1 a w0 = k2 a w0) ->
  bind m1 k1 w = bind m2 k2 w.
Proof.
  intros Hm Hk. unfold bind. rewrite Hm.
  destruct (m2 w) as [[a| |] w']; auto.
Qed.

Lemma bind_step {A B} (m : M A) (k : A -> M B) (w : world) (a : A) (w1 : world) :
  m w = (Ret a, w1) -> bind m k w = k a w1.
Proof. intros H. unfold bind. now rewrite H. Qed.

Lemma mapM_length {A B} (f : A -> M B) (xs : list A) :
  forall (ys : list B) (w w' : world),
    mapM f xs w = (Ret ys, w') -> List.length ys = List.length xs.
Proof.
  induction xs as [|x xs IH]; intros ys w w' H; simpl in H.
  - unfold ret in H. now injection H as <- _.
  - unfold bind in H at 1. destruct (f x w) as [[y| |] w1]; try discriminate.
    unfold bind in H at 1. destruct (mapM f xs w1) as [[ys'| |] w2] eqn:E; try discriminate.
    unfold ret in H. injection H as <- _. simpl. f_equal. eauto.
Qed.

Lemma mapM_scope_getitem (scope : Scope) (ks : list Expr) (data : list value) (w : world) :
  map (fun k => dict_get Expr_eq_dec k scope) ks = map Some data ->
  mapM (scope_getitem scope) ks w = (Ret data, w).
Proof.
  revert data; induction ks as [|k ks IH]; intros [|v data] H; simpl in H;
    try discriminate; [ reflexivity | ].
  injection H as Hk Hks. simpl. unfold bind at 1, scope_getitem at 1.
  rewrite Hk. unfold ret at 1. unfold bind at 1. rewrite (IH _ Hks). reflexivity.
Qed.

Lemma mapM_scope_getitem_find (scope : Scope) (ks : list Expr) (w : world) :
  mapM (scope_getitem scope) ks w =
  match find (fun k => negb (is_key scope k)) ks with
  | Some k => (Raise (KeyError k), w)
  | None => (Ret (map (scope_get scope) ks), w)
  end.
Proof.
  induction ks as [|k ks IH]; simpl; [ reflexivity | ].
  unfold bind at 1. unfold scope_getitem at 1, scope_get at 1, is_key at 1.
  destruct (dict_get Expr_eq_dec k scope) as [v|]; simpl; [ | reflexivity ].
  unfold bind at 1. rewrite IH.
  destruct (find _ ks); reflexivity.
Qed.

Section EngineFacts.
Variable R : Registry.
Variable type_key : class_order.

Local Abbreviation bottom_up := (bottom_up_until_type_break R type_key).

(** The comprehension over [unique(expr._inputs)]. *)
Lemma bottom_up_unfold (expr : Expr) (scope : Scope) (w : world) :
  bottom_up expr scope w =
  match dict_get Expr_eq_dec expr scope with
  | Some v => (leaf <- do_makeleaf expr ;; ret (leaf, [(leaf, v)])) w
  | None =>
      (reduced <- mapM (fun i => bottom_up i scope) (unique Expr_eq_dec (_inputs expr)) ;;
       after_inputs R type_key expr scope (unique Expr_eq_dec (_inputs expr)) reduced) w
  end.
Proof.
  destruct expr as [n d t|n d v|k n d ins]; simpl;
    destruct (dict_get Expr_eq_dec _ scope); try reflexivity.
  apply bind_congr; [ | reflexivity ].
  unfold unique. generalize (@nil Expr) as seen. clear w.
  induction ins as [|i rest IH]; intros seen w; [ reflexivity | ].
  simpl. destruct (set_in Expr_eq_dec i seen); [ apply IH | ].
  apply bind_congr; [ reflexivity | intros r w1 ].
  apply bind_congr; [ apply IH | reflexivity ].
Qed.

(** After the inputs: the two sorts, then the detector. *)
Lemma after_inputs_sorted (expr : Expr) (scope : Scope) (inputs : list Expr)
      (reduced : list (Expr * Scope)) (w : world) :
  reduced <> [] ->
  after_inputs R type_key expr scope inputs reduced w =
  let new_scope := merge Expr_eq_dec (map snd reduced) in
  let new_expr :=
    _subs (dict_of_items Expr_eq_dec
             (filter (fun ie => negb (isidentical (fst ie) (snd ie)))
                     (combine inputs (map fst reduced))))
          expr in
  match sorted_key_type type_key (values new_scope),
        sorted_key_type type_key (old_data_leaves expr scope) with
  | Some new_sorted, Some old_sorted =>
      if type_change new_sorted old_sorted
      then (Ret (new_expr, new_scope), w)
      else
        (leaf <- do_makeleaf expr ;;
         _data <- mapM (scope_getitem new_scope) (_inputs new_expr) ;;
         v <- compute_up R new_expr _data new_scope ;;
         ret (leaf, [(leaf, v)])) w
  | _, _ => (Raise TypeError_unorderable, w)
  end.
Proof.
  intros Hne. unfold after_inputs.
  destruct reduced as [|r reduced']; [ congruence | ].
  cbv zeta. unfold bind at 1, sorted_ at 1.
  destruct (sorted_key_type type_key (values (merge Expr_eq_dec (map snd (r :: reduced')))))
    as [new_sorted|]; [ | reflexivity ].
  unfold ret at 1. unfold bind at 1, sorted_ at 1.
  destruct (sorted_key_type type_key (old_data_leaves expr scope))
    as [old_sorted|]; [ | reflexivity ].
  unfold ret at 1.
  destruct (type_change new_sorted old_sorted); reflexivity.
Qed.
End EngineFacts.



(* ------------------------------------------------------------------ *)
(** ** NotImplementedError means: try the next strategy *)

Lemma try_except_caught {A} (m handler : M A) (w w1 : world) :
  m w = (Raise NotImplementedError, w1) ->
  try_except_NotImplementedError m handler w = handler w1.
Proof. intros H. unfold try_except_NotImplementedError. now rewrite H. Qed.

(** C4: when [compute_down] raises NotImplementedError for the expression
    and its leaf values, the driver goes on, from the world that call left,
    with the bottom-up evaluator, the hooks and the next round, and the
    error is not passed on; when the optimize hook raises
    NotImplementedError, inside a round of the driver or in the entry
    point, the expression is kept as it was for the step that follows. *)
Theorem unsupported_means_next_strategy (R : Registry) (type_key : class_order) :
  (forall rounds expr scope kw w w1,
      dict_get Expr_eq_dec expr scope = None ->
      compute_down R expr (map (scope_get scope) (_leaves expr)) kw w
      = (Raise NotImplementedError, w1) ->
      top_then_bottom_then_top_again_etc R type_key (S rounds) expr scope kw w =
      (ns <- bottom_up_until_type_break R type_key expr scope ;;
       es <- reapply_hooks R (fst ns) (snd ns) kw ;;
       top_then_bottom_then_top_again_etc R type_key rounds (fst es) (snd es) no_kwargs) w1)
  /\
  (forall new_expr new_scope kw optimize_ new_scope2 w w2 w3,
      get_optimize R kw = Some optimize_ ->
      match get_pre_compute R kw with
      | Some _ =>
          dict_comprehension
            (fun e datum => pre_compute R new_expr datum (Some new_scope)) new_scope
      | None => ret new_scope
      end w = (Ret new_scope2, w2) ->
      (data <- mapM (scope_getitem new_scope2) (_leaves new_expr) ;;
       optimize_ new_expr data) w2 = (Raise NotImplementedError, w3) ->
      reapply_hooks R new_expr new_scope kw w = (Ret (new_expr, new_scope2), w3))
  /\
  (forall rounds expr d kw optimize_ d3 w w2 w3,
      let expr2 := fst (swap_resources_into_scope expr d) in
      let d2 := snd (swap_resources_into_scope expr d) in
      get_optimize R kw = Some optimize_ ->
      match get_pre_compute R kw with
      | Some pre_compute_ => dict_comprehension pre_compute_ d2
      | None => ret d2
      end {| leaves := _reset_leaves (leaves w); calls := calls w |} = (Ret d3, w2) ->
      optimize_ expr2 (values (filter (fun ev => Expr_contains expr2 (fst ev)) d3)) w2
      = (Raise NotImplementedError, w3) ->
      compute R type_key rounds expr d kw w =
      (result <- top_then_bottom_then_top_again_etc R type_key rounds expr2 d3 kw ;;
       post_compute R expr2 result d3) w3).
Proof.
  split; [ | split ].
  - intros rounds expr scope kw w w1 Hfree Hdown. simpl. rewrite Hfree.
    now apply try_except_caught.
  - intros new_expr new_scope kw optimize_ new_scope2 w w2 w3 Hopt Hpre Hraise.
    unfold reapply_hooks. rewrite Hopt. unfold bind at 1. rewrite Hpre.
    unfold bind at 1. rewrite (@try_except_caught _ _ _ _ _ Hraise). reflexivity.
  - intros rounds expr d kw optimize_ d3 w w2 w3 expr2 d2 Hopt Hd3 Hraise.
    unfold compute. rewrite Hopt. fold expr2 d2.
    unfold bind at 1. unfold do_reset_leaves.
    unfold bind at 1. rewrite Hd3.
    unfold bind at 1. rewrite (@try_except_caught _ _ _ _ _ Hraise). reflexivity.
Qed.

(* ------------------------------------------------------------------ *)
(** ** The two forms of [compute] *)

Lemma singleton_by_members {A} (s : A) (l : list A) :
  NoDup l -> (forall x, In x l <-> x = s) -> l = [s].
Proof.
  intros Hnd Hmem. destruct l as [|a [|b l]].
  - exfalso. apply (proj2 (Hmem s) eq_refl).
  - f_equal. apply Hmem. now left.
  - exfalso. inversion Hnd as [|? ? Hnotin _]; subst. apply Hnotin.
    rewrite (proj1 (Hmem a) (or_introl eq_refl)).
    rewrite <- (proj1 (Hmem b) (or_intror (or_introl eq_refl))). now left.
Qed.

Lemma NoDup_unique_from {A} (A_eq_dec : forall a b : A, {a = b} + {a <> b})
      (xs : list A) : forall seen, NoDup (unique_from A_eq_dec seen xs).
Proof.
  induction xs as [|x xs IH]; intros seen; simpl; [ constructor | ].
  destruct (set_in A_eq_dec x seen) eqn:E; [ apply IH | ].
  constructor; [ | apply IH ].
  intros Hin. apply In_unique_from in Hin. destruct Hin as [_ Hout].
  apply Hout. now left.
Qed.

Lemma NoDup_unique {A} (A_eq_dec : forall a b : A, {a = b} + {a <> b}) (xs : list A) :
  NoDup (unique A_eq_dec xs).
Proof. apply NoDup_unique_from. Qed.

(** C5, for a second argument that is not a dictionary: when [s] is the
    one free symbol of the expression, the dispatcher sends
    [compute(expr, d)] to the single-value form, which ends as
    [compute(expr, {s: d})] does, sent to the mapping form: same outcome,
    same effects, for every configuration and every budget of rounds. *)
Theorem compute_single_delegates
        (R : Registry) (type_key : class_order) (rounds : nat)
        (expr s : Expr) (d : value) (not_a_dict : is_dict d = false)
        (kw : kwargs) (w : world) :
  (forall x, In x (free_symbols expr) <-> x = s) ->
  compute_dispatch R type_key rounds expr (ArgObject d not_a_dict) kw w
  = compute_dispatch R type_key rounds expr (ArgDict [(s, d)]) kw w.
Proof.
  intros Hone. simpl. unfold compute_single.
  rewrite (@singleton_by_members _ s (free_symbols expr)
             (NoDup_unique Expr_eq_dec _) Hone).
  reflexivity.
Qed.

(** C5 as stated fails on a dictionary: it is never sent to the
    single-value form.  With the empty dictionary, [compute(x, {})] takes
    it as a scope that binds nothing and raises ValueError where the
    evaluator unpacks the reductions of no input, whereas
    [compute(x, {x: {}})] returns the empty dictionary bound to [x]. *)
Lemma compute_single_not_for_dictionaries :
  free_symbols ex_x = [ex_x] /\
  is_dict (VDict []) = true /\
  fst (compute_dispatch core_registry Unordered 3 ex_x (ArgDict []) no_kwargs new_world)
  = Raise ValueError_unpack /\
  fst (compute_dispatch core_registry Unordered 3 ex_x (ArgDict [(ex_x, VDict [])])
         no_kwargs new_world)
  = Ret (OVal (VDict [])) /\
  fst (compute_dispatch core_registry (Ordered class_rank) 3 ex_x (ArgDict [])
         no_kwargs new_world)
  = Raise ValueError_unpack /\
  fst (compute_dispatch core_registry (Ordered class_rank) 3 ex_x
         (ArgDict [(ex_x, VDict [])]) no_kwargs new_world)
  = Ret (OVal (VDict [])).
Proof. repeat split. Qed.

Section NoDictInputError.
Variable R : Registry.
Variable type_key : class_order.

Local Abbreviation safe := no_dict_input_error.

Lemma safe_ret {A} (a : A) : safe (ret a).
Proof. intros w. discriminate. Qed.

Lemma safe_unfinished {A} : safe (@unfinished A).
Proof. intros w. discriminate. Qed.

Lemma safe_raise {A} (e : exn) : e <> ValueError_dict_input -> safe (@raise A e).
Proof. intros He w. simpl. congruence. Qed.

Lemma safe_bind {A B} (m : M A) (k : A -> M B) :
  safe m -> (forall a, safe (k a)) -> safe (bind m k).
Proof.
  intros Hm Hk w. unfold bind. specialize (Hm w).
  destruct (m w) as [[a| |] w']; simpl in *; [ apply Hk | | discriminate ].
  intros [= ->]. now apply Hm.
Qed.

Lemma safe_try {A} (m handler : M A) :
  safe m -> safe handler -> safe (try_except_NotImplementedError m handler).
Proof.
  intros Hm Hh w. unfold try_except_NotImplementedError. specialize (Hm w).
  destruct (m w) as [[a|e|] w']; simpl in *; try discriminate.
  destruct e; simpl; try discriminate; [ apply Hh | exact Hm ].
Qed.

Lemma safe_invoke {A} (c : call) (r : hook_result A) : safe (invoke c r).
Proof. intros w. destruct r; discriminate. Qed.

Lemma safe_mapM {A B} (f : A -> M B) (xs : list A) :
  (forall x, In x xs -> safe (f x)) -> safe (mapM f xs).
Proof.
  induction xs as [|x xs IH]; intros Hf; simpl; [ apply safe_ret | ].
  apply safe_bind; [ apply Hf; now left | intros y ].
  apply safe_bind; [ apply IH; intros; apply Hf; now right | intros ys; apply safe_ret ].
Qed.

Lemma safe_do_makeleaf (expr : Expr) : safe (do_makeleaf expr).
Proof. intros w. unfold do_makeleaf. destruct (makeleaf expr (leaves w)). discriminate. Qed.

Lemma safe_scope_getitem (scope : Scope) (k : Expr) : safe (scope_getitem scope k).
Proof.
  unfold scope_getitem. destruct (dict_get Expr_eq_dec k scope);
    [ apply safe_ret | apply safe_raise; discriminate ].
Qed.

Lemma safe_dict_comprehension (f : Expr -> value -> M value) (scope : Scope) :
  (forall e v, safe (f e v)) -> safe (dict_comprehension f scope).
Proof.
  intros Hf. apply safe_bind; [ | intros; apply safe_ret ].
  apply safe_mapM. intros kv _. apply safe_bind; [ apply Hf | intros; apply safe_ret ].
Qed.

Lemma safe_compute_down (expr : Expr) (data : list value) (kw : kwargs) :
  safe (compute_down R expr data kw).
Proof.
  unfold compute_down. destruct (reg_compute_down R expr data kw); [ apply safe_invoke | ].
  destruct data; [ | apply safe_invoke ].
  destruct (kwargs_empty kw); [ apply safe_invoke | apply safe_raise; discriminate ].
Qed.

Lemma safe_get_optimize (kw : kwargs) (f : Expr -> list value -> M Expr) :
  get_optimize R kw = Some f -> forall e data, safe (f e data).
Proof.
  unfold get_optimize. destruct (kw_optimize kw); intros [= <-] e data;
    apply safe_invoke.
Qed.

Lemma safe_get_pre_compute (kw : kwargs) (f : Expr -> value -> M value) :
  get_pre_compute R kw = Some f -> forall e v, safe (f e v).
Proof.
  unfold get_pre_compute. destruct (kw_pre_compute kw); intros [= <-] e v;
    apply safe_invoke.
Qed.

Lemma safe_sorted (xs : list value) : safe (sorted_ type_key xs).
Proof.
  unfold sorted_. destruct (sorted_key_type type_key xs);
    [ apply safe_ret | apply safe_raise; discriminate ].
Qed.

Lemma safe_after_inputs (expr : Expr) (scope : Scope) (inputs : list Expr)
      (reduced : list (Expr * Scope)) :
  safe (after_inputs R type_key expr scope inputs reduced).
Proof.
  unfold after_inputs. destruct reduced; [ apply safe_raise; discriminate | ].
  apply safe_bind; [ apply safe_sorted | intros new_sorted ].
  apply safe_bind; [ apply safe_sorted | intros old_sorted ].
  match goal with |- safe (if ?b then _ else _) => destruct b end;
    [ apply safe_ret | ].
  apply safe_bind; [ apply safe_do_makeleaf | intros leaf ].
  apply safe_bind; [ apply safe_mapM; intros; apply safe_scope_getitem | intros data ].
  apply safe_bind; [ apply safe_invoke | intros; apply safe_ret ].
Qed.

Lemma safe_bottom_up (expr : Expr) (scope : Scope) :
  safe (bottom_up_until_type_break R type_key expr scope).
Proof.
  induction expr as [n d t|n d v|k n d ins IH] using Expr_nested_ind;
    intros w; rewrite bottom_up_unfold;
    destruct (dict_get Expr_eq_dec _ scope);
    try (apply safe_bind; [ apply safe_do_makeleaf | intros; apply safe_ret ]);
    (apply safe_bind; [ | intros; apply safe_after_inputs ]).
  - apply safe_ret.
  - apply safe_ret.
  - apply safe_mapM. intros i Hi. apply In_unique in Hi.
    rewrite Forall_forall in IH. now apply IH.
Qed.

Lemma safe_reapply_hooks (new_expr : Expr) (new_scope : Scope) (kw : kwargs) :
  safe (reapply_hooks R new_expr new_scope kw).
Proof.
  unfold reapply_hooks. apply safe_bind.
  - destruct (get_pre_compute R kw); [ | apply safe_ret ].
    apply safe_dict_comprehension. intros; apply safe_invoke.
  - intros new_scope2. apply safe_bind; [ | intros; apply safe_ret ].
    destruct (get_optimize R kw) as [f|] eqn:E; [ | apply safe_ret ].
    apply safe_try; [ | apply safe_ret ].
    apply safe_bind; [ apply safe_mapM; intros; apply safe_scope_getitem | ].
    intros data. eapply safe_get_optimize; eauto.
Qed.

Lemma safe_driver (rounds : nat) : forall expr scope kw,
  safe (top_then_bottom_then_top_again_etc R type_key rounds expr scope kw).
Proof.
  induction rounds as [|rounds IH]; intros expr scope kw; simpl;
    [ apply safe_unfinished | ].
  destruct (dict_get Expr_eq_dec expr scope); [ apply safe_ret | ].
  apply safe_try; [ apply safe_compute_down | ].
  apply safe_bind; [ apply safe_bottom_up | intros ns ].
  apply safe_bind; [ apply safe_reapply_hooks | intros es; apply IH ].
Qed.

(** The dictionary form never raises the error of the single-input form. *)
Lemma safe_compute (rounds : nat) (expr : Expr) (d : Scope) (kw : kwargs) :
  safe (compute R type_key rounds expr d kw).
Proof.
  unfold compute. apply safe_bind; [ intros w; discriminate | intros _ ].
  apply safe_bind.
  { destruct (get_pre_compute R kw) as [f|] eqn:E; [ | apply safe_ret ].
    apply safe_dict_comprehension. eapply safe_get_pre_compute; eauto. }
  intros d3. apply safe_bind.
  { destruct (get_optimize R kw) as [f|] eqn:E; [ | apply safe_ret ].
    apply safe_try; [ eapply safe_get_optimize; eauto | apply safe_ret ]. }
  intros expr3. apply safe_bind; [ apply safe_driver | intros; apply safe_invoke ].
Qed.
End NoDictInputError.

(** C6: the single-input form [compute(expr, o, **kwargs)] raises its
    ValueError ("Give compute dictionary input") exactly when the number of
    free symbols of the expression is not one; with exactly one free symbol
    that error is not raised, whatever the rest of the evaluation does. *)
Theorem compute_single_ambiguous
        (R : Registry) (type_key : class_order) (rounds : nat)
        (expr : Expr) (o : value) (kw : kwargs) (w : world) :
  fst (compute_single R type_key rounds expr o kw w) = Raise ValueError_dict_input
  <-> List.length (free_symbols expr) <> 1%nat.
Proof.
  unfold compute_single.
  destruct (free_symbols expr) as [|s [|s' ts]]; simpl.
  - split; [ intros _; discriminate | reflexivity ].
  - split; [ intros H; exfalso; revert H; apply safe_compute | congruence ].
  - split; [ intros _; discriminate | reflexivity ].
Qed.

(* ------------------------------------------------------------------ *)
(** ** Expressions without free symbols *)

Lemma terminals_free_symbols (e t : Expr) :
  In t (terminals e) -> In t (filter is_Symbol (_subterms e)).
Proof.
  induction e as [n d tok|n d v|k n d ins IH] using Expr_nested_ind; simpl.
  - intros [<-|[]]. now left.
  - intros [<-|[]]. now left.
  - intros Hin. apply in_flat_map in Hin. destruct Hin as (i & Hi & Ht).
    rewrite Forall_forall in IH. specialize (IH i Hi Ht).
    apply filter_In in IH. destruct IH as [Hsub Hsym].
    apply filter_In. split; [ | exact Hsym ].
    apply in_flat_map. eauto.
Qed.

Lemma unique_nil {A} (A_eq_dec : forall a b : A, {a = b} + {a <> b}) (xs : list A) :
  unique A_eq_dec xs = [] -> xs = [].
Proof. destruct xs as [|x xs]; [ reflexivity | discriminate ]. Qed.

Lemma no_free_symbols_no_leaves (expr : Expr) :
  free_symbols expr = [] -> _leaves expr = [].
Proof.
  intros H. apply unique_nil in H. unfold _leaves.
  destruct (terminals expr) as [|t ts] eqn:E; [ reflexivity | ].
  assert (Hin : In t (terminals expr)) by (rewrite E; now left).
  apply terminals_free_symbols in Hin. rewrite H in Hin. contradiction.
Qed.

Lemma subs_nothing (e : Expr) : _subs [] e = e.
Proof.
  induction e as [n d t|n d v|k n d ins IH] using Expr_nested_ind; simpl;
    try reflexivity.
  f_equal. rewrite <- (map_id ins) at 2. apply map_ext_in.
  rewrite Forall_forall in IH. exact IH.
Qed.

Lemma swap_resources_no_leaves (expr : Expr) (scope : Scope) :
  _leaves expr = [] ->
  swap_resources_into_scope expr scope = (expr, dict_of_items Expr_eq_dec scope).
Proof.
  intros H. unfold swap_resources_into_scope, _resources. rewrite H. simpl.
  now rewrite subs_nothing.
Qed.

Lemma dict_of_items_free {K V} (K_eq_dec : forall a b : K, {a = b} + {a <> b})
      (k : K) (items : list (K * V)) :
  dict_get K_eq_dec k items = None ->
  dict_get K_eq_dec k (dict_of_items K_eq_dec items) = None.
Proof.
  intros H. apply dict_get_None. apply dict_get_None in H.
  unfold dict_of_items. rewrite keys_dict_update. simpl. tauto.
Qed.

(** With no backend and no override, [pre_compute] leaves every value. *)
Lemma core_pre_compute_items (items : list (Expr * value)) : forall w,
  exists w',
    mapM (fun kv => v <- pre_compute core_registry (fst kv) (snd kv) None ;;
                    ret (fst kv, v)) items w = (Ret items, w').
Proof.
  induction items as [|[e v] items IH]; intros w; simpl.
  - eexists. reflexivity.
  - destruct (IH {| leaves := leaves w;
                    calls := calls w ++ [Call_pre_compute e v None] |}) as [w' E].
    exists w'.
    rewrite (@bind_step _ _ _ _ w (e, v)
               {| leaves := leaves w;
                  calls := calls w ++ [Call_pre_compute e v None] |})
      by reflexivity.
    erewrite bind_step by exact E. reflexivity.
Qed.

(** C7, as the code has it: with only the defaults of the core dispatched
    and no configuration, [compute(expr, d)] on an expression without free
    symbols that is not itself a key of [d] returns the expression
    unchanged, whatever else [d] binds, as soon as the driver may run one
    round. *)
Theorem compute_without_symbols
        (type_key : class_order) (rounds : nat) (expr : Expr) (d : Scope) (w : world) :
  free_symbols expr = [] ->
  dict_get Expr_eq_dec expr d = None ->
  fst (compute core_registry type_key (S rounds) expr d no_kwargs w) = Ret (OExpr expr).
Proof.
  intros Hsym Hfree.
  pose proof (no_free_symbols_no_leaves _ Hsym) as Hleaves.
  unfold compute. rewrite (swap_resources_no_leaves _ d Hleaves).
  cbn [fst snd get_pre_compute get_optimize no_kwargs kw_pre_compute kw_optimize].
  unfold bind at 1. unfold do_reset_leaves.
  unfold bind at 1. unfold dict_comprehension. unfold bind at 1.
  match goal with
  | |- context [mapM _ ?items ?w0] =>
      destruct (core_pre_compute_items items w0) as [w1 E]; rewrite E
  end.
  unfold ret at 1.
  set (d3 := dict_of_items Expr_eq_dec (dict_of_items Expr_eq_dec d)).
  assert (Hd3 : dict_get Expr_eq_dec expr d3 = None).
  { unfold d3. now do 2 apply dict_of_items_free. }
  unfold bind at 1.
  assert (Hopt : exists w2,
             try_except_NotImplementedError
               (optimize core_registry expr
                  (values (filter (fun ev => Expr_contains expr (fst ev)) d3)))
               (ret expr) w1 = (Ret expr, w2)).
  { unfold try_except_NotImplementedError, optimize, invoke. simpl.
    destruct (values (filter (fun ev => Expr_contains expr (fst ev)) d3)) as [|v [|v' vs]];
      eexists; reflexivity. }
  destruct Hopt as [w2 Hopt]. rewrite Hopt.
  unfold bind at 1. simpl top_then_bottom_then_top_again_etc.
  rewrite Hd3, Hleaves. reflexivity.
Qed.

(** C7 as stated fails when the scope binds the expression itself: the
    driver returns the value bound, not the expression. *)
Lemma compute_without_symbols_bound :
  free_symbols ex_const = [] /\
  fst (compute core_registry (Ordered class_rank) 1 ex_const [(ex_const, VInt 5)]
         no_kwargs new_world)
  = Ret (OVal (VInt 5)) /\
  fst (compute core_registry (Ordered class_rank) 1 ex_const [(ex_const, VInt 5)]
         no_kwargs new_world)
  <> Ret (OExpr ex_const).
Proof. split; [ reflexivity | split; [ reflexivity | discriminate ] ]. Qed.

(* ------------------------------------------------------------------ *)
(** ** The configured hooks inside the driver *)

(** C3 does not hold of the code.  With both hooks switched off, the second
    round of the driver, which is entered without the keywords, calls the
    dispatched [pre_compute] and [optimize].  With both hooks overridden,
    the entry point calls the overrides, the first round calls the
    dispatched [pre_compute] and the configured [optimize], and the second
    round calls the dispatched hooks. *)
Theorem configured_hooks_in_the_rounds :
  let d := [(ex_s, VBackend 0 600)] in
  let off :=
    compute ex_registry (Ordered class_rank) 5 ex_amount_sum_plus_1 d ex_kw_off new_world in
  let given :=
    compute ex_registry (Ordered class_rank) 5 ex_amount_sum_plus_1 d ex_kw_given new_world in
  let leaf0 := Symbol "amount_sum" "int" None in
  let leaf1 := Symbol "amount_sum" "int" (Some 1%nat) in
  let round1 := Node "Add1" "amount_sum" "int" [leaf0] in
  fst off = Ret (OVal (VInt 601)) /\
  hook_calls (snd off) =
  [Call_pre_compute leaf1 (VInt 601) (Some [(leaf1, VInt 601)]);
   Call_optimize leaf1 [VInt 601]] /\
  fst given = Ret (OVal (VInt 601)) /\
  hook_calls (snd given) =
  [Call_pre_compute_kw ex_s (VBackend 0 600);
   Call_optimize_kw ex_amount_sum_plus_1 [VBackend 0 600];
   Call_pre_compute round1 (VInt 600) (Some [(leaf0, VInt 600)]);
   Call_optimize_kw round1 [VInt 600];
   Call_pre_compute leaf1 (VInt 601) (Some [(leaf1, VInt 601)]);
   Call_optimize leaf1 [VInt 601]].
Proof. repeat split. Qed.

(* ------------------------------------------------------------------ *)
(** ** The statements at concrete inputs *)


(** C2 at two lists of equal length, one value not primitive. *)
Lemma type_change_characterisation_witness :
  forallb isinstance_base ([VInt 1; VInt 2] ++ [VInt 3; VList []]) = false /\
  List.length [VInt 1; VInt 2] = List.length [VInt 3; VList []] /\
  type_change [VInt 1; VInt 2] [VInt 3; VList []] = true.
Proof.
  split; [ reflexivity | split; [ reflexivity | ] ].
  apply (proj1 (proj2 (proj2 type_change_characterisation))
               [VInt 1; VInt 2] [VInt 3; VList []] eq_refl eq_refl).
  exists 1%nat, (VList []), (VInt 2). repeat split.
Defined.

(** C4 on the example backend, where [compute_down] is unsupported, and at
    [x + y], for which the default [optimize] is unsupported. *)
Lemma unsupported_means_next_strategy_witness :
  (let scope := [(ex_s, VBackend 0 600)] in
   let w1 := {| leaves := leaves new_world;
                calls := [Call_compute_down ex_amount_sum_plus_1 [VBackend 0 600]] |} in
   compute_down ex_registry ex_amount_sum_plus_1
                (map (scope_get scope) (_leaves ex_amount_sum_plus_1)) no_kwargs new_world
   = (Raise NotImplementedError, w1) /\
   top_then_bottom_then_top_again_etc ex_registry (Ordered class_rank) 3
     ex_amount_sum_plus_1 scope no_kwargs new_world =
   (ns <- bottom_up_until_type_break ex_registry (Ordered class_rank) ex_amount_sum_plus_1 scope ;;
    es <- reapply_hooks ex_registry (fst ns) (snd ns) no_kwargs ;;
    top_then_bottom_then_top_again_etc ex_registry (Ordered class_rank) 2
      (fst es) (snd es) no_kwargs)
     w1) /\
  fst (reapply_hooks ex_registry ex_x_plus_y ex_scope_xy no_kwargs new_world)
  = Ret (ex_x_plus_y, ex_scope_xy) /\
  (let w3 := {| leaves := leaves new_world;
                calls := [Call_pre_compute ex_x (VInt 1) None;
                          Call_pre_compute ex_y (VInt 2) None;
                          Call_optimize ex_x_plus_y [VInt 1; VInt 2]] |} in
   compute ex_registry (Ordered class_rank) 2 ex_x_plus_y ex_scope_xy no_kwargs new_world =
   (result <- top_then_bottom_then_top_again_etc ex_registry (Ordered class_rank) 2
                ex_x_plus_y ex_scope_xy no_kwargs ;;
    post_compute ex_registry ex_x_plus_y result ex_scope_xy) w3).
Proof.
  destruct (unsupported_means_next_strategy ex_registry (Ordered class_rank))
    as (Hdown & Hround & Hentry).
  split; [ | split ].
  - intros scope w1. split; [ reflexivity | ].
    apply (Hdown 2%nat ex_amount_sum_plus_1 scope no_kwargs new_world w1); reflexivity.
  - rewrite (Hround ex_x_plus_y ex_scope_xy no_kwargs (optimize ex_registry) ex_scope_xy
                    new_world
                    {| leaves := leaves new_world;
                       calls := [Call_pre_compute ex_x_plus_y (VInt 1) (Some ex_scope_xy);
                                 Call_pre_compute ex_x_plus_y (VInt 2) (Some ex_scope_xy)] |}
                    {| leaves := leaves new_world;
                       calls := [Call_pre_compute ex_x_plus_y (VInt 1) (Some ex_scope_xy);
                                 Call_pre_compute ex_x_plus_y (VInt 2) (Some ex_scope_xy);
                                 Call_optimize ex_x_plus_y [VInt 1; VInt 2]] |});
      reflexivity.
  - intros w3.
    apply (Hentry 2%nat ex_x_plus_y ex_scope_xy no_kwargs (optimize ex_registry) ex_scope_xy
                  new_world
                  {| leaves := leaves new_world;
                     calls := [Call_pre_compute ex_x (VInt 1) None;
                               Call_pre_compute ex_y (VInt 2) None] |}
                  w3); reflexivity.
Defined.

(** C5 at [s.amount.sum() + 1], whose only free symbol is [s], and an
    array as the datum. *)
Lemma compute_single_delegates_witness :
  (forall x, In x (free_symbols ex_amount_sum_plus_1) <-> x = ex_s) /\
  compute_dispatch ex_registry (Ordered class_rank) 3 ex_amount_sum_plus_1
                   (ArgObject (VBackend 0 600) eq_refl) no_kwargs new_world
  = compute_dispatch ex_registry (Ordered class_rank) 3 ex_amount_sum_plus_1
                     (ArgDict [(ex_s, VBackend 0 600)]) no_kwargs new_world.
Proof.
  assert (Hone : forall x, In x (free_symbols ex_amount_sum_plus_1) <-> x = ex_s).
  { intros x. simpl. intuition. }
  split; [ exact Hone | ].
  exact (@compute_single_delegates ex_registry (Ordered class_rank) 3
           ex_amount_sum_plus_1 ex_s (VBackend 0 600) eq_refl no_kwargs new_world Hone).
Defined.

(** C7 at a constant and a scope that binds an unrelated symbol. *)
Lemma compute_without_symbols_witness :
  free_symbols ex_const = [] /\
  dict_get Expr_eq_dec ex_const [(ex_s, VBackend 0 600)] = None /\
  fst (compute core_registry (Ordered class_rank) 1 ex_const [(ex_s, VBackend 0 600)]
               no_kwargs new_world) = Ret (OExpr ex_const).
Proof.
  split; [ reflexivity | split; [ reflexivity | ] ].
  apply (@compute_without_symbols (Ordered class_rank) 0 ex_const [(ex_s, VBackend 0 600)]
           new_world);
    reflexivity.
Defined.

(** C8 at [t.head(2)] over data [[1, 2, 3]], with a caller binding [y]. *)
Lemma swap_resources_into_scope_spec_witness :
  NoDup (keys [(ex_y, VInt 7)]) /\
  fst (swap_resources_into_scope ex_t_head [(ex_y, VInt 7)]) = unadorned ex_t_head /\
  dict_get Expr_eq_dec ex_y (snd (swap_resources_into_scope ex_t_head [(ex_y, VInt 7)]))
  = Some (VInt 7) /\
  dict_get Expr_eq_dec (Symbol "t" "3 * int" None)
           (snd (swap_resources_into_scope ex_t_head [(ex_y, VInt 7)]))
  = Some (VList [VInt 1; VInt 2; VInt 3]).
Proof.
  assert (Hnd : NoDup (keys [(ex_y, VInt 7)])).
  { constructor; [ intros [] | constructor ]. }
  destruct (@swap_resources_into_scope_spec ex_t_head [(ex_y, VInt 7)] Hnd)
    as (Hexpr & Hcaller & Hbound & _).
  split; [ exact Hnd | split; [ exact Hexpr | split ] ].
  - apply Hcaller. reflexivity.
  - apply Hbound; [ now left | | reflexivity ].
    intros v' [H|[]]. now injection H.
Defined.

(** C9 at two expressions of display name [amount]. *)
Lemma makeleaf_memoized_and_fresh_witness :
  let es := [ex_amount; ex_amount_plus_1; ex_amount] in
  let answers := fst (makeleaves es (_reset_leaves (leaves new_world))) in
  nth_error es 0 = Some ex_amount /\
  nth_error es 1 = Some ex_amount_plus_1 /\
  nth_error answers 0 = Some (Symbol "amount" "var * int" None) /\
  nth_error answers 1 = Some (Symbol "amount" "var * int" (Some 0%nat)) /\
  (ex_amount <> ex_amount_plus_1 -> _name ex_amount = _name ex_amount_plus_1 ->
   _name (Symbol "amount" "var * int" None)
   = _name (Symbol "amount" "var * int" (Some 0%nat)) /\
   _token (Symbol "amount" "var * int" None)
   <> _token (Symbol "amount" "var * int" (Some 0%nat)) /\
   isidentical (Symbol "amount" "var * int" None)
               (Symbol "amount" "var * int" (Some 0%nat)) = false).
Proof.
  intros es answers.
  do 4 (split; [ reflexivity | ]).
  exact (proj2 (proj2 (@makeleaf_memoized_and_fresh (leaves new_world) es 0 1
                         ex_amount ex_amount_plus_1
                         (Symbol "amount" "var * int" None)
                         (Symbol "amount" "var * int" (Some 0%nat))
                         eq_refl eq_refl eq_refl eq_refl))).
Defined.

(* ================================================================== *)
(** * Further properties of the module *)

(* ------------------------------------------------------------------ *)
(** ** The detector looks at classes only *)

Lemma issubclass_refl (a : pytype) : issubclass a a = true.
Proof.
  unfold issubclass, pytype_eqb. destruct (pytype_eq_dec a a); [ reflexivity | congruence ].
Qed.

Lemma issubtype_refl (a : pytype) : issubtype a a = true.
Proof. unfold issubtype. now rewrite issubclass_refl. Qed.

Lemma all_map2_issubtype_refl (ts : list pytype) : all_map2 issubtype ts ts = true.
Proof.
  induction ts as [|t ts IH]; simpl; [ reflexivity | ].
  now rewrite issubtype_refl, IH.
Qed.

Lemma type_change_refl (xs : list value) : type_change xs xs = false.
Proof.
  unfold type_change.
  destruct (forallb isinstance_base (xs ++ xs)); [ reflexivity | ].
  rewrite Nat.eqb_refl. simpl. now rewrite all_map2_issubtype_refl.
Qed.

(** X1: a list of values never shows a type change against itself, whether
    its values are primitive or not. *)
Theorem type_change_same (xs : list value) : type_change xs xs = false.
Proof. apply type_change_refl. Qed.

Lemma forallb_base_types (xs ys : list value) :
  map type xs = map type ys ->
  forallb isinstance_base xs = forallb isinstance_base ys.
Proof.
  revert ys; induction xs as [|x xs IH]; intros [|y ys] H; simpl in *;
    try discriminate; [ reflexivity | ].
  injection H as Hxy H. unfold isinstance_base at 1 3. rewrite Hxy. f_equal. auto.
Qed.

Lemma type_change_classes (old new old' new' : list value) :
  map type old = map type old' ->
  map type new = map type new' ->
  type_change old new = type_change old' new'.
Proof.
  intros Ho Hn. unfold type_change.
  rewrite (forallb_base_types (old ++ new) (old' ++ new'))
    by (rewrite !map_app; congruence).
  rewrite <- (length_map type old), <- (length_map type new), Ho, Hn, !length_map.
  reflexivity.
Qed.

(** X2: [type_change] reads nothing of a value but its class: two pairs of
    lists with the same classes, position by position, get the same
    answer. *)
Theorem type_change_by_class (old new old' new' : list value) :
  map type old = map type old' ->
  map type new = map type new' ->
  type_change old new = type_change old' new'.
Proof. apply type_change_classes. Qed.

(* ------------------------------------------------------------------ *)
(** ** The break test does not depend on the order of a dictionary *)

Section SortedFacts.
Variable type_key : pytype -> Z.

Local Abbreviation key_le := (fun a b : value => type_key (type a) <= type_key (type b)).

Lemma insert_by_type_perm (x : value) (xs : list value) :
  Permutation (insert_by_type type_key x xs) (x :: xs).
Proof.
  induction xs as [|y ys IH]; simpl; [ reflexivity | ].
  destruct (type_key (type x) <=? type_key (type y)); [ reflexivity | ].
  rewrite IH. apply perm_swap.
Qed.

Lemma sorted_by_type_perm (xs : list value) :
  Permutation (sorted_by_type type_key xs) xs.
Proof.
  induction xs as [|x xs IH]; simpl; [ reflexivity | ].
  change (sorted_by_type type_key (x :: xs))
    with (insert_by_type type_key x (sorted_by_type type_key xs)).
  rewrite insert_by_type_perm. now constructor.
Qed.

Lemma insert_by_type_sorted (x : value) (xs : list value) :
  StronglySorted key_le xs -> StronglySorted key_le (insert_by_type type_key x xs).
Proof.
  induction xs as [|y ys IH]; intros Hs; simpl.
  - constructor; constructor.
  - inversion Hs as [|? ? Hys Hall]; subst.
    destruct (type_key (type x) <=? type_key (type y)) eqn:E.
    + apply Z.leb_le in E. constructor; [ exact Hs | ].
      constructor; [ exact E | ].
      eapply Forall_impl; [ | exact Hall ]. intros z Hz. simpl in *. lia.
    + apply Z.leb_gt in E. constructor; [ now apply IH | ].
      assert (Hperm := insert_by_type_perm x ys).
      apply (Permutation_Forall (Permutation_sym Hperm)).
      constructor; [ lia | exact Hall ].
Qed.

Lemma sorted_by_type_sorted (xs : list value) :
  StronglySorted key_le (sorted_by_type type_key xs).
Proof.
  induction xs as [|x xs IH]; [ constructor | ].
  change (sorted_by_type type_key (x :: xs))
    with (insert_by_type type_key x (sorted_by_type type_key xs)).
  now apply insert_by_type_sorted.
Qed.

Lemma sorted_types (xs : list value) :
  StronglySorted key_le xs ->
  StronglySorted (fun a b => type_key a <= type_key b) (map type xs).
Proof.
  induction 1 as [|x xs Hs IH Hall]; simpl; constructor; [ exact IH | ].
  apply Forall_map. exact Hall.
Qed.

Hypothesis type_key_injective : forall a b, type_key a = type_key b -> a = b.

(** Two sorted lists of classes with the same elements are one list. *)
Lemma sorted_types_unique (ts ts' : list pytype) :
  StronglySorted (fun a b => type_key a <= type_key b) ts ->
  StronglySorted (fun a b => type_key a <= type_key b) ts' ->
  Permutation ts ts' ->
  ts = ts'.
Proof.
  revert ts'; induction ts as [|a ts IH]; intros ts' Hs Hs' Hp.
  - now apply Permutation_nil in Hp.
  - destruct ts' as [|b ts'].
    { apply Permutation_sym, Permutation_nil in Hp. discriminate. }
    inversion Hs as [|? ? Hts Hall]; subst.
    inversion Hs' as [|? ? Hts' Hall']; subst.
    assert (Hab : a = b).
    { apply type_key_injective.
      assert (Ha : In a (b :: ts')) by (apply (Permutation_in _ Hp); now left).
      assert (Hb : In b (a :: ts))
        by (apply (Permutation_in _ (Permutation_sym Hp)); now left).
      rewrite Forall_forall in Hall, Hall'.
      destruct Ha as [->|Ha]; [ reflexivity | ].
      destruct Hb as [->|Hb]; [ reflexivity | ].
      specialize (Hall _ Hb). specialize (Hall' _ Ha). lia. }
    subst b. f_equal. apply IH; auto.
    now apply Permutation_cons_inv in Hp.
Qed.

Lemma sorted_by_type_classes (xs xs' : list value) :
  Permutation xs xs' ->
  map type (sorted_by_type type_key xs) = map type (sorted_by_type type_key xs').
Proof.
  intros Hp. apply sorted_types_unique.
  - apply sorted_types, sorted_by_type_sorted.
  - apply sorted_types, sorted_by_type_sorted.
  - apply Permutation_map.
    rewrite (sorted_by_type_perm xs), (sorted_by_type_perm xs'). exact Hp.
Qed.

(** X3: the break test of the bottom-up evaluator,
    [type_change(sorted(..., key=type), sorted(..., key=type))], gives the
    same answer in whatever order the values of the scope and of the old
    leaves come, the order of the classes being total. *)
Theorem sorted_type_change_any_order (produced produced' old old' : list value) :
  Permutation produced produced' ->
  Permutation old old' ->
  type_change (sorted_by_type type_key produced) (sorted_by_type type_key old)
  = type_change (sorted_by_type type_key produced') (sorted_by_type type_key old').
Proof.
  intros Hp Ho. apply type_change_classes; now apply sorted_by_type_classes.
Qed.
End SortedFacts.

(* ------------------------------------------------------------------ *)
(** ** The names the allocator gives *)

Lemma count_until_free_next (name : string) (k : nat) (used : list name_token) :
  tokens_upto name (S k) used ->
  count_until_free name used 0 (List.length used) = k.
Proof.
  intros Hup.
  set (r := count_until_free name used 0 (List.length used)).
  assert (Hfree : ~ In (name, Some r) used) by apply count_free.
  assert (Hleast : forall j, (j < r)%nat -> In (name, Some j) used).
  { intros j Hj.
    apply (@count_until_free_least name used (List.length used) 0%nat j). fold r. lia. }
  assert (Hge : (k <= r)%nat).
  { destruct (le_lt_dec k r) as [|Hlt]; [ assumption | ].
    exfalso. apply Hfree. apply (Hup (Some r)). lia. }
  destruct (Nat.eq_dec r k) as [|Hne]; [ assumption | ].
  assert (Hk : In (name, Some k) used) by (apply Hleast; lia).
  apply (Hup (Some k)) in Hk. lia.
Qed.

Lemma makeleaf_next (name : string) (k : nat) (e : Expr) (st : leaf_state) :
  tokens_upto name k (_used_tokens st) ->
  dict_get Expr_eq_dec e (_leaf_cache st) = None ->
  leaf_name e = name ->
  fst (makeleaf e st) = Symbol name (dshape e) (nth_token k) /\
  tokens_upto name (S k) (_used_tokens (snd (makeleaf e st))) /\
  _leaf_cache (snd (makeleaf e st))
  = dict_set Expr_eq_dec e (fst (makeleaf e st)) (_leaf_cache st).
Proof.
  intros Hup Hmiss Hname. unfold makeleaf. rewrite Hmiss, Hname.
  assert (Htok : (if set_in name_token_eq_dec (name, None) (_used_tokens st)
                  then Some (count_until_free name (_used_tokens st) 0
                               (List.length (_used_tokens st)))
                  else None) = nth_token k).
  { destruct (set_in name_token_eq_dec (name, None) (_used_tokens st)) eqn:E.
    - apply set_in_true in E. apply (Hup None) in E.
      destruct k as [|k]; [ lia | ]. simpl. f_equal.
      now apply count_until_free_next.
    - apply set_in_false in E. destruct k as [|k]; [ reflexivity | ].
      exfalso. apply E. apply (Hup None). lia. }
  rewrite Htok. simpl. split; [ reflexivity | split; [ | reflexivity ] ].
  intros t. rewrite In_set_add. split.
  - intros [H|H].
    + injection H as ->. destruct k; simpl; lia.
    + apply Hup in H. destruct t; lia.
  - intros H. destruct (name_token_eq_dec (name, t) (name, nth_token k)) as [E|E];
      [ now left | right ].
    apply Hup. destruct t as [j|], k as [|k]; simpl in *; try lia.
    + destruct (Nat.eq_dec j k) as [->|]; [ congruence | lia ].
    + congruence.
Qed.

Lemma makeleaves_numbered (name : string) (es : list Expr) :
  forall k st,
    tokens_upto name k (_used_tokens st) ->
    (forall e, In e es -> dict_get Expr_eq_dec e (_leaf_cache st) = None) ->
    NoDup es ->
    (forall e, In e es -> leaf_name e = name) ->
    forall i e,
      nth_error es i = Some e ->
      nth_error (fst (makeleaves es st)) i = Some (Symbol name (dshape e) (nth_token (k + i))).
Proof.
  induction es as [|e0 es IH]; intros k st Hup Hmiss Hnd Hname i e Hi.
  - destruct i; discriminate.
  - inversion Hnd as [|? ? Hnotin Hnd']; subst.
    destruct (@makeleaf_next name k e0 st Hup (Hmiss e0 (or_introl eq_refl))
                (Hname e0 (or_introl eq_refl))) as (Hleaf & Hup' & Hcache).
    simpl. destruct (makeleaf e0 st) as [leaf st1]. simpl in Hleaf, Hup', Hcache.
    assert (Hmiss' : forall e', In e' es ->
                                dict_get Expr_eq_dec e' (_leaf_cache st1) = None).
    { intros e' He'. rewrite Hcache. rewrite dict_get_set_ne.
      - apply Hmiss. now right.
      - intros ->. contradiction. }
    specialize (IH (S k) st1 Hup' Hmiss' Hnd' (fun e' H => Hname e' (or_intror H))).
    destruct (makeleaves es st1) as [ls st2]. simpl in *.
    destruct i as [|i]; simpl in *.
    + injection Hi as <-. rewrite Nat.add_0_r. now rewrite Hleaf.
    + rewrite Nat.add_succ_r. now apply IH.
Qed.

(** X4: after a reset, distinct expressions of one display name are given,
    in the order they are requested, the symbols of that name (['_'] for an
    empty name) with no token, token 0, token 1, and so on, each with the
    shape of its expression. *)
Theorem makeleaf_tokens_in_order
        (st0 : leaf_state) (name : string) (es : list Expr) (i : nat) (e : Expr) :
  NoDup es ->
  (forall e', In e' es -> leaf_name e' = name) ->
  nth_error es i = Some e ->
  nth_error (fst (makeleaves es (_reset_leaves st0))) i
  = Some (Symbol name (dshape e) (nth_token i)).
Proof.
  intros Hnd Hname Hi.
  apply (makeleaves_numbered (name := name) (es := es) (k := 0)); auto.
  intros t. simpl. split; [ contradiction | destruct t; lia ].
Qed.

(** X5: every leaf handed out during an evaluation is a plain symbol named
    after its expression (['_'] for an empty name) and of the shape of its
    expression. *)
Theorem makeleaf_symbol_of_expr (st0 : leaf_state) (es : list Expr) (e : Expr) :
  exists token,
    fst (makeleaf e (snd (makeleaves es (_reset_leaves st0))))
    = Symbol (leaf_name e) (dshape e) token.
Proof.
  destruct (makeleaves_cached es (leaf_inv_reset st0)) as (Hinv & _ & _).
  pose proof (makeleaf_inv e Hinv) as [Hnamed _ _].
  pose proof (makeleaf_cached e (snd (makeleaves es (_reset_leaves st0)))) as Hc.
  eexists. exact (Hnamed _ _ Hc).
Qed.

Lemma makeleaves_unique_from (es : list Expr) :
  forall seen st,
    (forall x, In x seen -> dict_get Expr_eq_dec x (_leaf_cache st) <> None) ->
    snd (makeleaves es st) = snd (makeleaves (unique_from Expr_eq_dec seen es) st).
Proof.
  induction es as [|e es IH]; intros seen st Hseen; [ reflexivity | ].
  simpl. destruct (set_in Expr_eq_dec e seen) eqn:E.
  - apply set_in_true in E. specialize (Hseen e E) as Hhit.
    destruct (dict_get Expr_eq_dec e (_leaf_cache st)) as [leaf|] eqn:Hget; [ | congruence ].
    rewrite (makeleaf_hit _ _ Hget).
    specialize (IH seen st Hseen).
    destruct (makeleaves es st) as [ls st2]. exact IH.
  - simpl.
    pose proof (makeleaf_cached e st) as Hc.
    pose proof (fun x s => @makeleaf_keeps e x s st) as Hk.
    destruct (makeleaf e st) as [leaf st1]. simpl in Hc, Hk.
    assert (Hseen' : forall x, In x (e :: seen) ->
                               dict_get Expr_eq_dec x (_leaf_cache st1) <> None).
    { intros x [<-|Hx]; [ congruence | ].
      specialize (Hseen x Hx).
      destruct (dict_get Expr_eq_dec x (_leaf_cache st)) as [s|] eqn:Hget; [ | congruence ].
      rewrite (Hk _ _ Hget). discriminate. }
    specialize (IH (e :: seen) st1 Hseen').
    destruct (makeleaves es st1) as [ls st2].
    destruct (makeleaves (unique_from Expr_eq_dec (e :: seen) es) st1) as [ls' st2'].
    exact IH.
Qed.

(** X6: requests that repeat an earlier one cost nothing: the two tables
    after a sequence of requests are those after its first occurrences
    alone. *)
Theorem makeleaf_repeats_are_free (es : list Expr) (st : leaf_state) :
  snd (makeleaves es st) = snd (makeleaves (unique Expr_eq_dec es) st).
Proof. apply makeleaves_unique_from. intros x []. Qed.

(* ------------------------------------------------------------------ *)
(** ** The resource binder on expressions without resources *)

Section DictIdentity.
Variables K V : Type.
Variable K_eq_dec : forall a b : K, {a = b} + {a <> b}.

Lemma dict_set_fresh (k : K) (v : V) (d : list (K * V)) :
  ~ In k (keys d) -> dict_set K_eq_dec k v d = d ++ [(k, v)].
Proof.
  induction d as [|[k' v'] d IH]; simpl; intros Hk; [ reflexivity | ].
  destruct (K_eq_dec k k') as [->|Hne]; [ exfalso; apply Hk; now left | ].
  f_equal. apply IH. intros H. apply Hk. now right.
Qed.

Lemma dict_update_fresh (items : list (K * V)) : forall d,
  NoDup (keys (d ++ items)) -> dict_update K_eq_dec d items = d ++ items.
Proof.
  unfold dict_update.
  induction items as [|[k v] items IH]; intros d Hnd; simpl.
  - now rewrite app_nil_r.
  - assert (Hk : ~ In k (keys d)).
    { unfold keys in *. rewrite map_app in Hnd. simpl in Hnd.
      apply NoDup_remove_2 in Hnd. intros H. apply Hnd. apply in_or_app. now left. }
    rewrite dict_set_fresh by exact Hk. rewrite IH.
    + now rewrite <- app_assoc.
    + now rewrite <- app_assoc.
Qed.

(** A dictionary rebuilt from its own items is itself. *)
Lemma dict_of_items_id (d : list (K * V)) :
  NoDup (keys d) -> dict_of_items K_eq_dec d = d.
Proof. intros Hnd. unfold dict_of_items. now rewrite dict_update_fresh. Qed.

Lemma NoDup_keys_merge (dicts : list (list (K * V))) :
  NoDup (keys (merge K_eq_dec dicts)).
Proof.
  unfold merge.
  assert (H : forall acc, NoDup (keys acc) ->
                          NoDup (keys (fold_left (dict_update K_eq_dec) dicts acc))).
  { induction dicts as [|d dicts IH]; intros acc Hacc; simpl; [ exact Hacc | ].
    apply IH. now apply NoDup_keys_dict_update. }
  apply H. constructor.
Qed.
End DictIdentity.

Lemma swap_resources_without (expr : Expr) (scope : Scope) :
  _resources expr = [] ->
  NoDup (keys scope) ->
  swap_resources_into_scope expr scope = (expr, scope).
Proof.
  intros Hres Hnd. unfold swap_resources_into_scope. rewrite Hres. simpl.
  rewrite subs_nothing. unfold merge. simpl.
  now rewrite (@dict_update_fresh _ _ Expr_eq_dec scope [] Hnd).
Qed.

(** X7: on an expression without resources and a caller scope that is a
    dictionary, the resource binder returns both unchanged. *)
Theorem swap_resources_nothing_to_swap (expr : Expr) (scope : Scope) :
  _resources expr = [] ->
  NoDup (keys scope) ->
  swap_resources_into_scope expr scope = (expr, scope).
Proof. apply swap_resources_without. Qed.

Lemma terminals_unadorned (e t : Expr) :
  In t (terminals (unadorned e)) -> attached t = [].
Proof.
  induction e as [n d tok|n d v|k n d ins IH] using Expr_nested_ind; simpl.
  - intros [<-|[]]. reflexivity.
  - intros [<-|[]]. reflexivity.
  - intros Hin. apply in_flat_map in Hin. destruct Hin as (i' & Hi' & Ht).
    apply in_map_iff in Hi'. destruct Hi' as (i & <- & Hi).
    rewrite Forall_forall in IH. now apply (IH i).
Qed.

Lemma resources_unadorned (e : Expr) : _resources (unadorned e) = [].
Proof.
  unfold _resources.
  assert (H : flat_map attached (_leaves (unadorned e)) = []).
  { assert (Hall : forall t, In t (_leaves (unadorned e)) -> attached t = []).
    { intros t Ht. apply In_unique in Ht. now apply terminals_unadorned in Ht. }
    induction (_leaves (unadorned e)) as [|t ts IH]; [ reflexivity | ].
    simpl. rewrite (Hall t (or_introl eq_refl)). simpl.
    apply IH. intros t' Ht'. apply Hall. now right. }
  now rewrite H.
Qed.

(** X8: the resource binder is idempotent: its result carries no resource,
    and binding the result again changes neither the expression nor the
    scope. *)
Theorem swap_resources_idempotent (expr : Expr) (scope : Scope) :
  _resources (fst (swap_resources_into_scope expr scope)) = [] /\
  swap_resources_into_scope (fst (swap_resources_into_scope expr scope))
                            (snd (swap_resources_into_scope expr scope))
  = swap_resources_into_scope expr scope.
Proof.
  assert (Hres : _resources (fst (swap_resources_into_scope expr scope)) = []).
  { rewrite swap_resources_expr. apply resources_unadorned. }
  split; [ exact Hres | ].
  rewrite swap_resources_without.
  - now destruct (swap_resources_into_scope expr scope).
  - exact Hres.
  - rewrite swap_resources_scope. apply NoDup_keys_merge.
Qed.

(** X9: the keys of the scope the resource binder returns are the keys of
    the caller, and the plain symbols of the data-carrying leaves of the
    expression: no key of the caller is lost, no other key is added. *)
Theorem swap_resources_keys (expr : Expr) (scope : Scope) (k : Expr) :
  In k (keys (snd (swap_resources_into_scope expr scope))) <->
  In k (keys scope) \/
  exists n d v, In (Interactive n d v) (_leaves expr) /\ k = Symbol n d None.
Proof.
  assert (Hderived :
            In k (keys (derived_bindings expr)) <->
            exists n d v, In (Interactive n d v) (_leaves expr) /\ k = Symbol n d None).
  { unfold derived_bindings, dict_of_items. rewrite keys_dict_update. simpl.
    unfold keys. rewrite map_map. simpl. rewrite in_map_iff. split.
    - intros [[]|((t & v) & <- & Hin)].
      apply resources_entries in Hin. destruct Hin as (Ht & n & d & ->).
      exists n, d, v. split; [ now apply In_unique | reflexivity ].
    - intros (n & d & v & Hin & ->). right.
      exists (Interactive n d v, v). split; [ reflexivity | ].
      apply resources_entries. split; [ now apply In_unique in Hin | eauto ]. }
  rewrite swap_resources_scope. unfold merge. simpl.
  rewrite !keys_dict_update. simpl. rewrite Hderived. tauto.
Qed.

(* ------------------------------------------------------------------ *)
(** ** Computing what is already bound *)

(** X10: with the default hooks and no configuration, [compute(expr, d)]
    returns the value that the scope of the resource binder has for the
    bound expression, when it has one: the value [d] gives [expr] when
    [expr] is one of its keys, the attached data when [expr] is a leaf
    carrying data.  One round of the driver is enough and no handler of a
    backend is needed. *)
Theorem compute_bound_expression
        (type_key : class_order) (rounds : nat) (expr : Expr) (d : Scope)
        (v : value) (w : world) :
  dict_get Expr_eq_dec (fst (swap_resources_into_scope expr d))
           (snd (swap_resources_into_scope expr d)) = Some v ->
  fst (compute core_registry type_key (S rounds) expr d no_kwargs w) = Ret (OVal v).
Proof.
  intros Hbound. unfold compute.
  set (expr2 := fst (swap_resources_into_scope expr d)) in *.
  set (d2 := snd (swap_resources_into_scope expr d)) in *.
  assert (Hd2 : dict_of_items Expr_eq_dec d2 = d2).
  { apply dict_of_items_id. unfold d2. rewrite swap_resources_scope.
    apply NoDup_keys_merge. }
  cbn [get_pre_compute get_optimize no_kwargs kw_pre_compute kw_optimize].
  unfold bind at 1. unfold do_reset_leaves.
  unfold bind at 1. unfold dict_comprehension. unfold bind at 1.
  match goal with
  | |- context [mapM _ d2 ?w0] =>
      destruct (core_pre_compute_items d2 w0) as [w1 E]; rewrite E
  end.
  unfold ret at 1. rewrite Hd2.
  unfold bind at 1.
  assert (Hopt : exists w2,
             try_except_NotImplementedError
               (optimize core_registry expr2
                  (values (filter (fun ev => Expr_contains expr2 (fst ev)) d2)))
               (ret expr2) w1 = (Ret expr2, w2)).
  { unfold try_except_NotImplementedError, optimize, invoke. simpl.
    destruct (values (filter (fun ev => Expr_contains expr2 (fst ev)) d2)) as [|x [|x' xs]];
      eexists; reflexivity. }
  destruct Hopt as [w2 Hopt]. rewrite Hopt.
  unfold bind at 1. simpl top_then_bottom_then_top_again_etc.
  rewrite Hbound. reflexivity.
Qed.

(* ------------------------------------------------------------------ *)
(** ** [data_leaves] and [bottom_up] *)

(** X11: [data_leaves(expr, scope)] gives the values of the leaves of the
    expression, the list [scope.get] gives, when every leaf is a key of the
    scope, and otherwise raises KeyError for the first leaf that is not; it
    changes nothing. *)
Theorem data_leaves_or_KeyError (expr : Expr) (scope : Scope) (w : world) :
  data_leaves expr scope w =
  match find (fun leaf => negb (is_key scope leaf)) (_leaves expr) with
  | Some leaf => (Raise (KeyError leaf), w)
  | None => (Ret (old_data_leaves expr scope), w)
  end.
Proof. apply mapM_scope_getitem_find. Qed.

Lemma quiet_ret {A} (a : A) : quiet (ret a).
Proof. intros w. split; [ reflexivity | exact I ]. Qed.

Lemma quiet_invoke {A} (c : call) (r : hook_result A) : quiet (invoke c r).
Proof. intros w. split; [ reflexivity | destruct r; exact I ]. Qed.

Lemma quiet_bind {A B} (m : M A) (k : A -> M B) :
  quiet m -> (forall a, quiet (k a)) -> quiet (bind m k).
Proof.
  intros Hm Hk w. unfold bind. destruct (Hm w) as [Hl Ho].
  destruct (m w) as [[a|e|] w1]; simpl in *.
  - destruct (Hk a w1) as [Hl' Ho']. split; [ congruence | exact Ho' ].
  - split; [ exact Hl | ]. destruct e; simpl in *; auto.
  - contradiction.
Qed.

Lemma quiet_mapM {A B} (f : A -> M B) (xs : list A) :
  Forall (fun x => quiet (f x)) xs -> quiet (mapM f xs).
Proof.
  induction 1 as [|x xs Hx Hxs IH]; simpl; [ apply quiet_ret | ].
  apply quiet_bind; [ exact Hx | intros y ].
  apply quiet_bind; [ exact IH | intros ys; apply quiet_ret ].
Qed.

Section HelperFacts.
Variable R : Registry.

(** The comprehension over [expr._inputs]. *)
Lemma bottom_up_legacy_unfold (d : Scope) (expr : Expr) (w : world) :
  bottom_up R d expr w =
  match dict_get Expr_eq_dec expr d with
  | Some v => (Ret v, w)
  | None =>
      (children <- mapM (bottom_up R d) (_inputs expr) ;;
       compute_up R expr children d) w
  end.
Proof.
  destruct expr as [n s t|n s v|k n s ins]; simpl;
    destruct (dict_get Expr_eq_dec _ d); try reflexivity.
  apply bind_congr; [ | reflexivity ].
  clear w. induction ins as [|i rest IH]; intros w; [ reflexivity | ].
  simpl. apply bind_congr; [ reflexivity | intros v w1 ].
  apply bind_congr; [ apply IH | reflexivity ].
Qed.

Lemma bottom_up_quiet (d : Scope) (expr : Expr) : quiet (bottom_up R d expr).
Proof.
  induction expr as [n s t|n s v|k n s ins IH] using Expr_nested_ind; intros w;
    rewrite bottom_up_legacy_unfold;
    destruct (dict_get Expr_eq_dec _ d); try (split; [ reflexivity | exact I ]);
    (apply quiet_bind; [ | intros; apply quiet_invoke ]).
  - apply quiet_ret.
  - apply quiet_ret.
  - apply quiet_mapM. exact IH.
Qed.

(** X12: [bottom_up(d, expr)] allocates no leaf, and ends with a value,
    with NotImplementedError or with the failure of a handler: it raises no
    KeyError and no ValueError, whatever the scope binds. *)
Theorem bottom_up_outcomes (d : Scope) (expr : Expr) (w : world) :
  leaves (snd (bottom_up R d expr w)) = leaves w /\
  match fst (bottom_up R d expr w) with
  | Ret _ | Raise NotImplementedError | Raise (HandlerFault _) => True
  | _ => False
  end.
Proof. apply bottom_up_quiet. Qed.
End HelperFacts.

Lemma mapM_first_raise {A B} (f : A -> M B) (e : exn) (xs : list A) :
  (forall x w, In x xs -> (exists y, fst (f x w) = Ret y) \/ fst (f x w) = Raise e) ->
  forall w, (exists ys, fst (mapM f xs w) = Ret ys) \/ fst (mapM f xs w) = Raise e.
Proof.
  induction xs as [|x xs IH]; intros Hf w; simpl; [ left; eexists; reflexivity | ].
  unfold bind. destruct (Hf x w (or_introl eq_refl)) as [[y Hy]|Hy];
    destruct (f x w) as [o w1]; simpl in Hy; subst o; [ | now right ].
  destruct (IH (fun x' w' H => Hf x' w' (or_intror H)) w1) as [[ys Hys]|Hys];
    destruct (mapM f xs w1) as [o w2]; simpl in Hys; subst o.
  - left. eexists. reflexivity.
  - now right.
Qed.

(** X13: with no backend registered, [bottom_up(d, expr)] is the value the
    scope binds to the expression, and NotImplementedError for any
    expression the scope does not bind. *)
Theorem bottom_up_without_backend (d : Scope) (expr : Expr) (w : world) :
  fst (bottom_up core_registry d expr w) =
  match dict_get Expr_eq_dec expr d with
  | Some v => Ret v
  | None => Raise NotImplementedError
  end.
Proof.
  revert w.
  induction expr as [n s t|n s v|k n s ins IH] using Expr_nested_ind; intros w;
    rewrite bottom_up_legacy_unfold;
    destruct (dict_get Expr_eq_dec _ d); try reflexivity.
  simpl _inputs. unfold bind.
  assert (Hkids : (exists ys, fst (mapM (bottom_up core_registry d) ins w) = Ret ys) \/
                  fst (mapM (bottom_up core_registry d) ins w) = Raise NotImplementedError).
  { apply mapM_first_raise. intros i w0 Hi.
    rewrite Forall_forall in IH. rewrite (IH i Hi w0).
    destruct (dict_get Expr_eq_dec i d); [ left; eexists; reflexivity | now right ]. }
  destruct (mapM (bottom_up core_registry d) ins w) as [o w1]. simpl in Hkids.
  destruct Hkids as [[ys ->]| ->]; reflexivity.
Qed.

(* ------------------------------------------------------------------ *)
(** ** The engine and the tables of the allocator *)

Lemma makeleaves_app (es1 es2 : list Expr) (st : leaf_state) :
  snd (makeleaves (es1 ++ es2) st) = snd (makeleaves es2 (snd (makeleaves es1 st))).
Proof.
  revert st; induction es1 as [|e es1 IH]; intros st; simpl; [ reflexivity | ].
  destruct (makeleaf e st) as [leaf st1]. specialize (IH st1).
  destruct (makeleaves (es1 ++ es2) st1) as [ls st2].
  destruct (makeleaves es1 st1) as [ls1 st1']. simpl in *.
  destruct (makeleaves es2 st1') as [ls2 st2']. exact IH.
Qed.

Create HintDb allocator.

Lemma alloc_same {A} (m : M A) :
  (forall w, leaves (snd (m w)) = leaves w) -> allocates_only m.
Proof. intros H w. exists []. apply H. Qed.

Lemma alloc_ret {A} (a : A) : allocates_only (ret a).
Proof. now apply alloc_same. Qed.

Lemma alloc_raise {A} (e : exn) : allocates_only (@raise A e).
Proof. now apply alloc_same. Qed.

Lemma alloc_unfinished {A} : allocates_only (@unfinished A).
Proof. now apply alloc_same. Qed.

Lemma alloc_invoke {A} (c : call) (r : hook_result A) : allocates_only (invoke c r).
Proof. now apply alloc_same. Qed.

Lemma alloc_do_makeleaf (expr : Expr) : allocates_only (do_makeleaf expr).
Proof.
  intros w. exists [expr]. unfold do_makeleaf. simpl.
  now destruct (makeleaf expr (leaves w)).
Qed.

Lemma alloc_bind {A B} (m : M A) (k : A -> M B) :
  allocates_only m -> (forall a, allocates_only (k a)) -> allocates_only (bind m k).
Proof.
  intros Hm Hk w. unfold bind. destruct (Hm w) as [es1 H1].
  destruct (m w) as [[a|e|] w1]; simpl in *; try (exists es1; exact H1).
  destruct (Hk a w1) as [es2 H2]. exists (es1 ++ es2).
  now rewrite makeleaves_app, <- H1.
Qed.

Lemma alloc_try {A} (m handler : M A) :
  allocates_only m -> allocates_only handler ->
  allocates_only (try_except_NotImplementedError m handler).
Proof.
  intros Hm Hh w. unfold try_except_NotImplementedError. destruct (Hm w) as [es1 H1].
  destruct (m w) as [[a|e|] w1]; simpl in *; try (exists es1; exact H1).
  destruct e; try (exists es1; exact H1).
  destruct (Hh w1) as [es2 H2]. exists (es1 ++ es2).
  now rewrite makeleaves_app, <- H1.
Qed.

Lemma alloc_mapM {A B} (f : A -> M B) (xs : list A) :
  (forall x, In x xs -> allocates_only (f x)) -> allocates_only (mapM f xs).
Proof.
  induction xs as [|x xs IH]; intros Hf; simpl; [ apply alloc_ret | ].
  apply alloc_bind; [ apply Hf; now left | intros y ].
  apply alloc_bind; [ apply IH; intros; apply Hf; now right | intros; apply alloc_ret ].
Qed.

Lemma alloc_scope_getitem (scope : Scope) (k : Expr) :
  allocates_only (scope_getitem scope k).
Proof.
  unfold scope_getitem. destruct (dict_get Expr_eq_dec k scope);
    [ apply alloc_ret | apply alloc_raise ].
Qed.

#[local] Hint Resolve alloc_ret alloc_raise alloc_unfinished alloc_invoke
  alloc_do_makeleaf alloc_bind alloc_try alloc_scope_getitem : allocator.

Lemma alloc_dict_comprehension (f : Expr -> value -> M value) (scope : Scope) :
  (forall e v, allocates_only (f e v)) -> allocates_only (dict_comprehension f scope).
Proof.
  intros Hf. unfold dict_comprehension.
  apply alloc_bind; [ | auto with allocator ].
  apply alloc_mapM. auto with allocator.
Qed.

Section AllocatorFacts.
Variable R : Registry.
Variable type_key : class_order.

Lemma alloc_compute_down (expr : Expr) (data : list value) (kw : kwargs) :
  allocates_only (compute_down R expr data kw).
Proof.
  unfold compute_down. destruct (reg_compute_down R expr data kw); auto with allocator.
  destruct data; auto with allocator.
  destruct (kwargs_empty kw); auto with allocator.
Qed.

Lemma alloc_get_optimize (kw : kwargs) (f : Expr -> list value -> M Expr) :
  get_optimize R kw = Some f -> forall e data, allocates_only (f e data).
Proof.
  unfold get_optimize. destruct (kw_optimize kw); intros [= <-] e data;
    apply alloc_invoke.
Qed.

Lemma alloc_get_pre_compute (kw : kwargs) (f : Expr -> value -> M value) :
  get_pre_compute R kw = Some f -> forall e v, allocates_only (f e v).
Proof.
  unfold get_pre_compute. destruct (kw_pre_compute kw); intros [= <-] e v;
    apply alloc_invoke.
Qed.

Lemma alloc_sorted (xs : list value) : allocates_only (sorted_ type_key xs).
Proof.
  unfold sorted_. destruct (sorted_key_type type_key xs); auto with allocator.
Qed.

Lemma alloc_after_inputs (expr : Expr) (scope : Scope) (inputs : list Expr)
      (reduced : list (Expr * Scope)) :
  allocates_only (after_inputs R type_key expr scope inputs reduced).
Proof.
  unfold after_inputs. destruct reduced; auto with allocator.
  apply alloc_bind; [ apply alloc_sorted | intros new_sorted ].
  apply alloc_bind; [ apply alloc_sorted | intros old_sorted ].
  match goal with |- allocates_only (if ?b then _ else _) => destruct b end;
    auto with allocator.
  apply alloc_bind; [ auto with allocator | intros leaf ].
  apply alloc_bind; [ apply alloc_mapM; auto with allocator | intros data ].
  unfold compute_up. auto with allocator.
Qed.

Lemma alloc_bottom_up (expr : Expr) (scope : Scope) :
  allocates_only (bottom_up_until_type_break R type_key expr scope).
Proof.
  induction expr as [n d t|n d v|k n d ins IH] using Expr_nested_ind;
    intros w; rewrite bottom_up_unfold;
    destruct (dict_get Expr_eq_dec _ scope);
    try (apply alloc_bind; [ apply alloc_do_makeleaf | intros; apply alloc_ret ]);
    (apply alloc_bind; [ | intros; apply alloc_after_inputs ]).
  - apply alloc_ret.
  - apply alloc_ret.
  - apply alloc_mapM. intros i Hi. apply In_unique in Hi.
    rewrite Forall_forall in IH. now apply IH.
Qed.

Lemma alloc_reapply_hooks (new_expr : Expr) (new_scope : Scope) (kw : kwargs) :
  allocates_only (reapply_hooks R new_expr new_scope kw).
Proof.
  unfold reapply_hooks. apply alloc_bind.
  - destruct (get_pre_compute R kw); auto with allocator.
    apply alloc_dict_comprehension. intros. unfold pre_compute. auto with allocator.
  - intros new_scope2. apply alloc_bind; [ | auto with allocator ].
    destruct (get_optimize R kw) as [f|] eqn:E; auto with allocator.
    apply alloc_try; auto with allocator.
    apply alloc_bind; [ apply alloc_mapM; auto with allocator | ].
    intros data. eapply alloc_get_optimize; eauto.
Qed.

Lemma alloc_driver (rounds : nat) : forall expr scope kw,
  allocates_only (top_then_bottom_then_top_again_etc R type_key rounds expr scope kw).
Proof.
  induction rounds as [|rounds IH]; intros expr scope kw; simpl; auto with allocator.
  destruct (dict_get Expr_eq_dec expr scope); auto with allocator.
  apply alloc_try; [ apply alloc_compute_down | ].
  apply alloc_bind; [ apply alloc_bottom_up | intros ns ].
  apply alloc_bind; [ apply alloc_reapply_hooks | intros es; apply IH ].
Qed.

(** X14: the engine writes the two tables of the allocator through
    [makeleaf] only.  The tables the bottom-up evaluator and the driver
    leave are those of a sequence of [makeleaf] requests from the tables
    they found, and the tables [compute] leaves are those of such a
    sequence from the reset tables, so that after [compute] no two cached
    expressions share a (name, token) pair. *)
Theorem engine_allocates_with_makeleaf
        (rounds : nat) (expr : Expr) (scope : Scope) (kw : kwargs) (w : world) :
  (exists es,
      leaves (snd (bottom_up_until_type_break R type_key expr scope w))
      = snd (makeleaves es (leaves w))) /\
  (exists es,
      leaves (snd (top_then_bottom_then_top_again_etc R type_key rounds expr scope kw w))
      = snd (makeleaves es (leaves w))) /\
  (exists es,
      leaves (snd (compute R type_key rounds expr scope kw w))
      = snd (makeleaves es (_reset_leaves (leaves w)))) /\
  leaf_inv (leaves (snd (compute R type_key rounds expr scope kw w))).
Proof.
  assert (Hcompute : exists es,
             leaves (snd (compute R type_key rounds expr scope kw w))
             = snd (makeleaves es (_reset_leaves (leaves w)))).
  { unfold compute. unfold bind at 1. unfold do_reset_leaves.
    match goal with
    | |- exists es, leaves (snd (?m ?w0)) = _ =>
        assert (Hm : allocates_only m); [ | exact (Hm w0) ]
    end.
    apply alloc_bind.
    { destruct (get_pre_compute R kw) as [f|] eqn:E; auto with allocator.
      apply alloc_dict_comprehension. eapply alloc_get_pre_compute; eauto. }
    intros d3. apply alloc_bind.
    { destruct (get_optimize R kw) as [f|] eqn:E; auto with allocator.
      apply alloc_try; auto with allocator. eapply alloc_get_optimize; eauto. }
    intros expr3. apply alloc_bind; [ apply alloc_driver | ].
    intros result. unfold post_compute. auto with allocator. }
  split; [ apply alloc_bottom_up | ].
  split; [ apply alloc_driver | ].
  split; [ exact Hcompute | ].
  destruct Hcompute as [es ->].
  apply (makeleaves_cached es (leaf_inv_reset (leaves w))).
Qed.
End AllocatorFacts.

(* ------------------------------------------------------------------ *)
(** ** Every evaluation starts afresh *)

Create HintDb blind.

Lemma blind_ret {A} (a : A) : log_blind (ret a).
Proof. intros w w' H. split; [ reflexivity | exact H ]. Qed.

Lemma blind_raise {A} (e : exn) : log_blind (@raise A e).
Proof. intros w w' H. split; [ reflexivity | exact H ]. Qed.

Lemma blind_unfinished {A} : log_blind (@unfinished A).
Proof. intros w w' H. split; [ reflexivity | exact H ]. Qed.

Lemma blind_invoke {A} (c : call) (r : hook_result A) : log_blind (invoke c r).
Proof. intros w w' H. split; [ reflexivity | exact H ]. Qed.

Lemma blind_do_makeleaf (expr : Expr) : log_blind (do_makeleaf expr).
Proof.
  intros w w' H. unfold do_makeleaf. rewrite H.
  destruct (makeleaf expr (leaves w')). split; reflexivity.
Qed.

Lemma blind_bind {A B} (m : M A) (k : A -> M B) :
  log_blind m -> (forall a, log_blind (k a)) -> log_blind (bind m k).
Proof.
  intros Hm Hk w w' H. unfold bind. destruct (Hm w w' H) as [Ho Hl].
  destruct (m w) as [o w1], (m w') as [o' w1']. simpl in *. subst o'.
  destruct o as [a|e|]; [ now apply Hk | split; [ reflexivity | exact Hl ] .. ].
Qed.

Lemma blind_try {A} (m handler : M A) :
  log_blind m -> log_blind handler ->
  log_blind (try_except_NotImplementedError m handler).
Proof.
  intros Hm Hh w w' H. unfold try_except_NotImplementedError.
  destruct (Hm w w' H) as [Ho Hl].
  destruct (m w) as [o w1], (m w') as [o' w1']. simpl in *. subst o'.
  destruct o as [a|e|]; try (split; [ reflexivity | exact Hl ]).
  destruct e; try (split; [ reflexivity | exact Hl ]). now apply Hh.
Qed.

Lemma blind_mapM {A B} (f : A -> M B) (xs : list A) :
  (forall x, In x xs -> log_blind (f x)) -> log_blind (mapM f xs).
Proof.
  induction xs as [|x xs IH]; intros Hf; simpl; [ apply blind_ret | ].
  apply blind_bind; [ apply Hf; now left | intros y ].
  apply blind_bind; [ apply IH; intros; apply Hf; now right | intros; apply blind_ret ].
Qed.

Lemma blind_scope_getitem (scope : Scope) (k : Expr) : log_blind (scope_getitem scope k).
Proof.
  unfold scope_getitem. destruct (dict_get Expr_eq_dec k scope);
    [ apply blind_ret | apply blind_raise ].
Qed.

#[local] Hint Resolve blind_ret blind_raise blind_unfinished blind_invoke
  blind_do_makeleaf blind_bind blind_try blind_scope_getitem : blind.

Lemma blind_dict_comprehension (f : Expr -> value -> M value) (scope : Scope) :
  (forall e v, log_blind (f e v)) -> log_blind (dict_comprehension f scope).
Proof.
  intros Hf. unfold dict_comprehension.
  apply blind_bind; [ | auto with blind ].
  apply blind_mapM. auto with blind.
Qed.

Section BlindFacts.
Variable R : Registry.
Variable type_key : class_order.

Lemma blind_compute_down (expr : Expr) (data : list value) (kw : kwargs) :
  log_blind (compute_down R expr data kw).
Proof.
  unfold compute_down. destruct (reg_compute_down R expr data kw); auto with blind.
  destruct data; auto with blind.
  destruct (kwargs_empty kw); auto with blind.
Qed.

Lemma blind_get_optimize (kw : kwargs) (f : Expr -> list value -> M Expr) :
  get_optimize R kw = Some f -> forall e data, log_blind (f e data).
Proof.
  unfold get_optimize. destruct (kw_optimize kw); intros [= <-] e data;
    apply blind_invoke.
Qed.

Lemma blind_get_pre_compute (kw : kwargs) (f : Expr -> value -> M value) :
  get_pre_compute R kw = Some f -> forall e v, log_blind (f e v).
Proof.
  unfold get_pre_compute. destruct (kw_pre_compute kw); intros [= <-] e v;
    apply blind_invoke.
Qed.

Lemma blind_sorted (xs : list value) : log_blind (sorted_ type_key xs).
Proof.
  unfold sorted_. destruct (sorted_key_type type_key xs); auto with blind.
Qed.

Lemma blind_after_inputs (expr : Expr) (scope : Scope) (inputs : list Expr)
      (reduced : list (Expr * Scope)) :
  log_blind (after_inputs R type_key expr scope inputs reduced).
Proof.
  unfold after_inputs. destruct reduced; auto with blind.
  apply blind_bind; [ apply blind_sorted | intros new_sorted ].
  apply blind_bind; [ apply blind_sorted | intros old_sorted ].
  match goal with |- log_blind (if ?b then _ else _) => destruct b end;
    auto with blind.
  apply blind_bind; [ auto with blind | intros leaf ].
  apply blind_bind; [ apply blind_mapM; auto with blind | intros data ].
  unfold compute_up. auto with blind.
Qed.

Lemma blind_bottom_up (expr : Expr) (scope : Scope) :
  log_blind (bottom_up_until_type_break R type_key expr scope).
Proof.
  induction expr as [n d t|n d v|k n d ins IH] using Expr_nested_ind;
    intros w w' H; rewrite !bottom_up_unfold;
    destruct (dict_get Expr_eq_dec _ scope);
    try (apply blind_bind; [ apply blind_do_makeleaf | intros; apply blind_ret | exact H ]);
    (apply blind_bind; [ | intros; apply blind_after_inputs | exact H ]).
  - apply blind_ret.
  - apply blind_ret.
  - apply blind_mapM. intros i Hi. apply In_unique in Hi.
    rewrite Forall_forall in IH. now apply IH.
Qed.

Lemma blind_reapply_hooks (new_expr : Expr) (new_scope : Scope) (kw : kwargs) :
  log_blind (reapply_hooks R new_expr new_scope kw).
Proof.
  unfold reapply_hooks. apply blind_bind.
  - destruct (get_pre_compute R kw); auto with blind.
    apply blind_dict_comprehension. intros. unfold pre_compute. auto with blind.
  - intros new_scope2. apply blind_bind; [ | auto with blind ].
    destruct (get_optimize R kw) as [f|] eqn:E; auto with blind.
    apply blind_try; auto with blind.
    apply blind_bind; [ apply blind_mapM; auto with blind | ].
    intros data. eapply blind_get_optimize; eauto.
Qed.

Lemma blind_driver (rounds : nat) : forall expr scope kw,
  log_blind (top_then_bottom_then_top_again_etc R type_key rounds expr scope kw).
Proof.
  induction rounds as [|rounds IH]; intros expr scope kw; simpl; auto with blind.
  destruct (dict_get Expr_eq_dec expr scope); auto with blind.
  apply blind_try; [ apply blind_compute_down | ].
  apply blind_bind; [ apply blind_bottom_up | intros ns ].
  apply blind_bind; [ apply blind_reapply_hooks | intros es; apply IH ].
Qed.

Lemma compute_any_state
      (rounds : nat) (expr : Expr) (d : Scope) (kw : kwargs) (w w' : world) :
  fst (compute R type_key rounds expr d kw w)
  = fst (compute R type_key rounds expr d kw w') /\
  leaves (snd (compute R type_key rounds expr d kw w))
  = leaves (snd (compute R type_key rounds expr d kw w')).
Proof.
  unfold compute. unfold bind at 1 5. unfold do_reset_leaves.
  match goal with
  | |- fst (?m ?w0) = fst (?m ?w0') /\ _ =>
      assert (Hm : log_blind m); [ | apply Hm; reflexivity ]
  end.
  apply blind_bind.
  { destruct (get_pre_compute R kw) as [f|] eqn:E; auto with blind.
    apply blind_dict_comprehension. eapply blind_get_pre_compute; eauto. }
  intros d3. apply blind_bind.
  { destruct (get_optimize R kw) as [f|] eqn:E; auto with blind.
    apply blind_try; auto with blind. eapply blind_get_optimize; eauto. }
  intros expr3. apply blind_bind; [ apply blind_driver | ].
  intros result. unfold post_compute. auto with blind.
Qed.

(** X15: an evaluation owes nothing to the evaluations before it: the
    outcome of [compute] and the tables of the allocator it leaves are the
    same from any two states of the module. *)
Theorem compute_starts_afresh
        (rounds : nat) (expr : Expr) (d : Scope) (kw : kwargs) (w w' : world) :
  fst (compute R type_key rounds expr d kw w)
  = fst (compute R type_key rounds expr d kw w') /\
  leaves (snd (compute R type_key rounds expr d kw w))
  = leaves (snd (compute R type_key rounds expr d kw w')).
Proof. apply compute_any_state. Qed.
End BlindFacts.

(* ------------------------------------------------------------------ *)
(** ** Rounds of the driver *)

(** Two computations that run the same first step finish alike when their
    continuations do. *)
Lemma bind_finished {A B} (m : M A) (k k' : A -> M B) (w : world) :
  (forall a w1, fst (k a w1) <> Unfinished -> k' a w1 = k a w1) ->
  fst (bind m k w) <> Unfinished ->
  bind m k' w = bind m k w.
Proof.
  intros Hk. unfold bind. destruct (m w) as [[a|e|] w1]; auto.
Qed.

Section Rounds.
Variable R : Registry.
Variable type_key : class_order.

Lemma driver_more_rounds (n : nat) : forall m expr scope kw w o w',
  (n <= m)%nat ->
  top_then_bottom_then_top_again_etc R type_key n expr scope kw w = (o, w') ->
  o <> Unfinished ->
  top_then_bottom_then_top_again_etc R type_key m expr scope kw w = (o, w').
Proof.
  induction n as [|n IH]; intros m expr scope kw w o w' Hle Hrun Hfin.
  - simpl in Hrun. injection Hrun as <- _. congruence.
  - destruct m as [|m]; [ lia | ]. simpl in *.
    destruct (dict_get Expr_eq_dec expr scope); [ exact Hrun | ].
    unfold try_except_NotImplementedError in *.
    destruct (compute_down R expr (map (scope_get scope) (_leaves expr)) kw w)
      as [[r|e|] w1]; try exact Hrun.
    destruct e; try exact Hrun.
    unfold bind in *.
    destruct (bottom_up_until_type_break R type_key expr scope w1)
      as [[ns|e|] w2]; try exact Hrun.
    destruct (reapply_hooks R (fst ns) (snd ns) kw w2) as [[es|e|] w3]; try exact Hrun.
    apply (IH m); [ lia | exact Hrun | exact Hfin ].
Qed.

(** X16: a result does not depend on the budget of rounds: once the driver,
    or [compute], ends within some number of rounds with a value or an
    exception, it ends in the same way, in the same state, within any
    larger number. *)
Theorem rounds_only_bound_the_driver
        (n m : nat) (expr : Expr) (d : Scope) (kw : kwargs) (w : world) :
  (n <= m)%nat ->
  (fst (top_then_bottom_then_top_again_etc R type_key n expr d kw w) <> Unfinished ->
   top_then_bottom_then_top_again_etc R type_key m expr d kw w
   = top_then_bottom_then_top_again_etc R type_key n expr d kw w) /\
  (fst (compute R type_key n expr d kw w) <> Unfinished ->
   compute R type_key m expr d kw w = compute R type_key n expr d kw w).
Proof.
  intros Hle.
  assert (Hdriver : forall e sc k w0,
             fst (top_then_bottom_then_top_again_etc R type_key n e sc k w0) <> Unfinished ->
             top_then_bottom_then_top_again_etc R type_key m e sc k w0
             = top_then_bottom_then_top_again_etc R type_key n e sc k w0).
  { intros e sc k w0 Hfin.
    destruct (top_then_bottom_then_top_again_etc R type_key n e sc k w0) as [o w'] eqn:E.
    eapply driver_more_rounds; eauto. }
  split; [ apply Hdriver | ].
  unfold compute.
  apply bind_finished; intros _ w0.
  apply bind_finished; intros d3 w1.
  apply bind_finished; intros expr3 w2.
  intros Hfin. unfold bind in *.
  rewrite Hdriver; [ reflexivity | ].
  intros H.
  destruct (top_then_bottom_then_top_again_etc R type_key n expr3 d3 kw w2) as [o w3].
  simpl in H. subst o. now apply Hfin.
Qed.
End Rounds.

(* ------------------------------------------------------------------ *)
(** ** [compute_up] on a list or a tuple *)

(** X17: when [compute_up] on a list or a tuple returns, every item was an
    expression, the result has one item for each, in order, and each is
    what [compute] returns for that item alone and the same scope from any
    state: the items are evaluated independently. *)
Theorem compute_up_seq_items
        (R : Registry) (type_key : class_order) (rounds : nat)
        (seq : list pyobj) (scope : option Scope) (kw : kwargs)
        (w : world) (results : list pyobj) :
  fst (compute_up_seq R type_key rounds seq scope kw w) = Ret results ->
  Forall2 (fun item r =>
             exists e,
               item = OExpr e /\
               forall w0,
                 fst (compute R type_key rounds e
                              (match scope with Some s => s | None => [] end) kw w0)
                 = Ret r)
          seq results.
Proof.
  unfold compute_up_seq. revert w results.
  induction seq as [|item seq IH]; intros w results Hrun; simpl in Hrun.
  - injection Hrun as <-. constructor.
  - unfold bind at 1 in Hrun.
    destruct (compute_item R type_key rounds scope kw item w) as [[r|e|] w1] eqn:Eitem;
      try discriminate.
    unfold bind at 1 in Hrun.
    destruct (mapM (compute_item R type_key rounds scope kw) seq w1) as [[rs|e|] w2] eqn:Erest;
      try discriminate.
    injection Hrun as <-. constructor.
    + destruct item as [v|e]; [ discriminate | ].
      exists e. split; [ reflexivity | intros w0 ].
      simpl in Eitem.
      rewrite (proj1 (compute_any_state R type_key rounds e _ kw w0 w)).
      now rewrite Eitem.
    + apply (IH w1). now rewrite Erest.
Qed.

(* ------------------------------------------------------------------ *)
(** ** A node over bound symbols is always evaluated *)

Lemma makeleaves_length (es : list Expr) : forall st,
  List.length (fst (makeleaves es st)) = List.length es.
Proof.
  induction es as [|e es IH]; intros st; simpl; [ reflexivity | ].
  destruct (makeleaf e st) as [leaf st1]. specialize (IH st1).
  destruct (makeleaves es st1) as [ls st2]. simpl in *. now rewrite IH.
Qed.

(** The leaves given to distinct expressions are distinct. *)
Lemma makeleaves_NoDup (es : list Expr) (st : leaf_state) :
  leaf_inv st -> NoDup es -> NoDup (fst (makeleaves es st)).
Proof.
  intros Hinv Hnd.
  destruct (makeleaves_cached es Hinv) as ([_ _ Hapart] & _ & Hnth).
  apply NoDup_nth_error. intros i j Hi Hij.
  rewrite makeleaves_length in Hi.
  destruct (nth_error es i) as [ei|] eqn:Ei; [ | apply nth_error_None in Ei; lia ].
  destruct (nth_error (fst (makeleaves es st)) i) as [li|] eqn:Eli;
    [ | apply nth_error_None in Eli; rewrite makeleaves_length in Eli; lia ].
  symmetry in Hij.
  assert (Hj : (j < List.length es)%nat).
  { rewrite <- (makeleaves_length es st). apply nth_error_Some. congruence. }
  destruct (nth_error es j) as [ej|] eqn:Ej; [ | apply nth_error_None in Ej; lia ].
  assert (Heq : ei = ej).
  { apply (Hapart ei ej li li); eauto. }
  subst ej. rewrite NoDup_nth_error in Hnd. apply Hnd; [ exact Hi | congruence ].
Qed.

Section MergeFacts.
Variables K V : Type.
Variable K_eq_dec : forall a b : K, {a = b} + {a <> b}.

Lemma merge_singletons_from (kvs : list (K * V)) : forall acc,
  NoDup (keys (acc ++ kvs)) ->
  fold_left (dict_update K_eq_dec) (map (fun kv => [kv]) kvs) acc = acc ++ kvs.
Proof.
  induction kvs as [|[k v] kvs IH]; intros acc Hnd; simpl.
  - now rewrite app_nil_r.
  - assert (Hk : ~ In k (keys acc)).
    { unfold keys in *. rewrite map_app in Hnd. simpl in Hnd.
      apply NoDup_remove_2 in Hnd. intros H. apply Hnd. apply in_or_app. now left. }
    change (dict_update K_eq_dec acc [(k, v)]) with (dict_set K_eq_dec k v acc).
    rewrite dict_set_fresh by exact Hk.
    rewrite IH; now rewrite <- app_assoc.
Qed.

(** Merging dictionaries of one entry each, all keys distinct, lists the
    entries. *)
Lemma merge_singletons (kvs : list (K * V)) :
  NoDup (keys kvs) -> merge K_eq_dec (map (fun kv => [kv]) kvs) = kvs.
Proof. intros Hnd. unfold merge. now rewrite merge_singletons_from. Qed.
End MergeFacts.

Lemma renamed_scope_keys (scope : Scope) (xs ls : list Expr) :
  List.length ls = List.length xs -> keys (renamed_scope scope xs ls) = ls.
Proof.
  revert ls; induction xs as [|x xs IH]; intros [|l ls] Hlen; simpl in *;
    try discriminate; [ reflexivity | ].
  f_equal. apply IH. now injection Hlen.
Qed.

Lemma renamed_scope_values (scope : Scope) (xs ls : list Expr) :
  List.length ls = List.length xs ->
  values (renamed_scope scope xs ls) = map (scope_get scope) xs.
Proof.
  revert ls; induction xs as [|x xs IH]; intros [|l ls] Hlen; simpl in *;
    try discriminate; [ reflexivity | ].
  f_equal. apply IH. now injection Hlen.
Qed.

Lemma renamed_inputs_exprs (scope : Scope) (xs ls : list Expr) :
  List.length ls = List.length xs -> map fst (renamed_inputs scope xs ls) = ls.
Proof.
  revert ls; induction xs as [|x xs IH]; intros [|l ls] Hlen; simpl in *;
    try discriminate; [ reflexivity | ].
  f_equal. apply IH. now injection Hlen.
Qed.

Lemma renamed_inputs_scopes (scope : Scope) (xs ls : list Expr) :
  map snd (renamed_inputs scope xs ls)
  = map (fun kv => [kv]) (renamed_scope scope xs ls).
Proof. unfold renamed_inputs, renamed_scope. now rewrite !map_map. Qed.

Lemma combine_keys (xs ls : list Expr) :
  List.length ls = List.length xs -> keys (combine xs ls) = xs.
Proof.
  revert ls; induction xs as [|x xs IH]; intros [|l ls] Hlen; simpl in *;
    try discriminate; [ reflexivity | ].
  f_equal. apply IH. now injection Hlen.
Qed.

Lemma leaf_of_In (xs ls : list Expr) (i : Expr) :
  List.length ls = List.length xs -> In i xs ->
  dict_get Expr_eq_dec i (combine xs ls) = Some (leaf_of xs ls i).
Proof.
  intros Hlen Hin. unfold leaf_of.
  destruct (dict_get Expr_eq_dec i (combine xs ls)) eqn:E; [ reflexivity | ].
  apply dict_get_None in E. rewrite combine_keys in E by exact Hlen. contradiction.
Qed.

Lemma dict_get_filter {K V} (K_eq_dec : forall a b : K, {a = b} + {a <> b})
      (P : K * V -> bool) (k : K) (d : list (K * V)) :
  NoDup (keys d) ->
  dict_get K_eq_dec k (filter P d) =
  match dict_get K_eq_dec k d with
  | Some v => if P (k, v) then Some v else None
  | None => None
  end.
Proof.
  induction d as [|[k' v'] d IH]; simpl; intros Hnd; [ reflexivity | ].
  inversion Hnd as [|? ? Hnotin Hnd']; subst.
  destruct (K_eq_dec k k') as [->|Hne].
  - destruct (P (k', v')) eqn:EP; simpl.
    + destruct (K_eq_dec k' k'); congruence.
    + apply dict_get_None. intros Hin. apply Hnotin.
      unfold keys in *. apply in_map_iff in Hin. destruct Hin as (kv & <- & Hkv).
      apply filter_In in Hkv. apply in_map. tauto.
  - destruct (P (k', v')); simpl; [ destruct (K_eq_dec k k'); [ congruence | ] | ];
      now apply IH.
Qed.

Lemma NoDup_keys_filter {K V} (P : K * V -> bool) (d : list (K * V)) :
  NoDup (keys d) -> NoDup (keys (filter P d)).
Proof.
  induction d as [|[k v] d IH]; simpl; intros Hnd; [ constructor | ].
  inversion Hnd as [|? ? Hnotin Hnd']; subst.
  destruct (P (k, v)); simpl; [ | auto ].
  constructor; [ | auto ].
  intros Hin. apply Hnotin. unfold keys in *.
  apply in_map_iff in Hin. destruct Hin as (kv & <- & Hkv).
  apply filter_In in Hkv. apply in_map. tauto.
Qed.

Section LeafLevel.
Variable R : Registry.
Variable type_key : class_order.
Variable scope : Scope.

(** The dictionary handed to [_subs] for inputs [xs] reduced to [ls]. *)
Local Abbreviation subs_dict xs ls :=
  (dict_of_items Expr_eq_dec
     (filter (fun ie : Expr * Expr => negb (isidentical (fst ie) (snd ie)))
             (combine xs ls))).

Lemma subs_dict_get (xs ls : list Expr) (i : Expr) :
  List.length ls = List.length xs -> NoDup xs ->
  dict_get Expr_eq_dec i (subs_dict xs ls) =
  match dict_get Expr_eq_dec i (combine xs ls) with
  | Some l => if isidentical i l then None else Some l
  | None => None
  end.
Proof.
  intros Hlen Hnd.
  assert (Hk : NoDup (keys (combine xs ls))) by now rewrite combine_keys.
  rewrite dict_get_of_items, dict_get_rev by now apply NoDup_keys_filter.
  rewrite dict_get_filter by exact Hk.
  destruct (dict_get Expr_eq_dec i (combine xs ls)); [ | reflexivity ].
  simpl. now destruct (isidentical i e).
Qed.

Lemma subs_symbol_input (xs ls : list Expr) (i : Expr) :
  List.length ls = List.length xs -> NoDup xs ->
  In i xs -> is_Symbol i = true ->
  _subs (subs_dict xs ls) i = leaf_of xs ls i.
Proof.
  intros Hlen Hnd Hin Hsym.
  assert (Hget := @subs_dict_get xs ls i Hlen Hnd).
  rewrite (@leaf_of_In xs ls i Hlen Hin) in Hget.
  destruct i as [n d t|n d v|k n d ins]; try discriminate; simpl;
    rewrite Hget; unfold isidentical;
    match goal with
    | |- context [Expr_eq_dec ?a ?b] => destruct (Expr_eq_dec a b) as [E|E]
    end; congruence.
Qed.

Lemma subs_node_over_symbols (xs ls : list Expr) (k n d : string) (ins : list Expr) :
  List.length ls = List.length xs -> NoDup xs ->
  (forall i, In i ins -> In i xs /\ is_Symbol i = true) ->
  (forall i, In i xs -> is_Symbol i = true) ->
  _subs (subs_dict xs ls) (Node k n d ins) = Node k n d (map (leaf_of xs ls) ins).
Proof.
  intros Hlen Hnd Hins Hxs. simpl.
  rewrite (@subs_dict_get xs ls (Node k n d ins) Hlen Hnd).
  destruct (dict_get Expr_eq_dec (Node k n d ins) (combine xs ls)) as [l|] eqn:E.
  - exfalso. apply dict_get_In in E. apply in_combine_l in E.
    apply Hxs in E. discriminate.
  - f_equal. apply map_ext_in. intros i Hi.
    destruct (Hins i Hi). now apply subs_symbol_input.
Qed.

Lemma renamed_scope_get (xs ls : list Expr) (i : Expr) :
  List.length ls = List.length xs -> NoDup ls -> In i xs ->
  dict_get Expr_eq_dec (leaf_of xs ls i) (renamed_scope scope xs ls)
  = Some (scope_get scope i).
Proof.
  intros Hlen Hnd Hin. apply In_dict_get.
  - now rewrite renamed_scope_keys.
  - pose proof (@leaf_of_In xs ls i Hlen Hin) as Hget. apply dict_get_In in Hget.
    unfold renamed_scope.
    change (leaf_of xs ls i, scope_get scope i)
      with ((fun il : Expr * Expr => (snd il, scope_get scope (fst il)))
              (i, leaf_of xs ls i)).
    now apply in_map.
Qed.

(** Reducing inputs that are keys of the scope renames each to its leaf. *)
Lemma reduce_bound_inputs (xs : list Expr) : forall w,
  (forall i, In i xs -> is_key scope i = true) ->
  mapM (fun i => bottom_up_until_type_break R type_key i scope) xs w =
  (Ret (renamed_inputs scope xs (fst (makeleaves xs (leaves w)))),
   {| leaves := snd (makeleaves xs (leaves w)); calls := calls w |}).
Proof.
  induction xs as [|x xs IH]; intros w Hkeys.
  - simpl. unfold ret. now destruct w.
  - simpl. unfold bind at 1. rewrite bottom_up_unfold.
    pose proof (Hkeys x (or_introl eq_refl)) as Hx. unfold is_key in Hx.
    unfold renamed_inputs, scope_get.
    destruct (dict_get Expr_eq_dec x scope) as [v|] eqn:Ex; [ | discriminate ].
    unfold bind at 1. unfold do_makeleaf.
    destruct (makeleaf x (leaves w)) as [leaf st1]. unfold ret at 1.
    unfold bind at 1. rewrite IH by (intros; apply Hkeys; now right). simpl.
    destruct (makeleaves xs st1) as [ls st2]. simpl. unfold ret.
    unfold renamed_inputs, scope_get. simpl. now rewrite Ex.
Qed.
End LeafLevel.

Lemma terminals_of_symbols (ins : list Expr) :
  (forall i, In i ins -> is_Symbol i = true) -> flat_map terminals ins = ins.
Proof.
  induction ins as [|i ins IH]; intros H; simpl; [ reflexivity | ].
  rewrite IH by (intros; apply H; now right).
  specialize (H i (or_introl eq_refl)). now destruct i.
Qed.

Lemma renamed_inputs_length (scope : Scope) (xs ls : list Expr) :
  List.length ls = List.length xs ->
  List.length (renamed_inputs scope xs ls) = List.length xs.
Proof.
  intros H. unfold renamed_inputs. rewrite length_map, length_combine. lia.
Qed.

Section LeafLevelEvaluation.
Variable R : Registry.
Variable type_key : class_order.

(** X18: a node whose inputs are all symbols bound by the scope never
    shows a type break and never fails a lookup, whatever the types of the
    data: the values of the reduced scope are the values of the old leaves.
    The inputs get their leaves in order; the two lists that are sorted are
    the same list, the data of the distinct inputs.  Where that sort raises
    TypeError (no order of the classes and two distinct inputs or more) the
    evaluator raises it there, before the node gets a leaf.  Otherwise the
    node gets its own leaf, and [compute_up] is called once, on the node
    over the leaves of its inputs, with the data of the inputs in order and
    the scope that binds each leaf to its data; the result is bound to the
    leaf of the node. *)
Theorem node_over_bound_symbols_never_breaks
        (k n d : string) (ins : list Expr) (scope : Scope) (w : world) :
  leaf_inv (leaves w) ->
  ins <> [] ->
  dict_get Expr_eq_dec (Node k n d ins) scope = None ->
  (forall i, In i ins -> is_Symbol i = true /\ is_key scope i = true) ->
  bottom_up_until_type_break R type_key (Node k n d ins) scope w =
  match sorted_key_type type_key (map (scope_get scope) (unique Expr_eq_dec ins)) with
  | None =>
      (Raise TypeError_unorderable,
       {| leaves := snd (makeleaves (unique Expr_eq_dec ins) (leaves w));
          calls := calls w |})
  | Some _ =>
      (v <- compute_up R
              (Node k n d
                 (map (leaf_of (unique Expr_eq_dec ins)
                               (fst (makeleaves (unique Expr_eq_dec ins) (leaves w))))
                      ins))
              (map (scope_get scope) ins)
              (renamed_scope scope (unique Expr_eq_dec ins)
                             (fst (makeleaves (unique Expr_eq_dec ins) (leaves w)))) ;;
       ret (fst (makeleaf (Node k n d ins)
                          (snd (makeleaves (unique Expr_eq_dec ins) (leaves w)))),
            [(fst (makeleaf (Node k n d ins)
                            (snd (makeleaves (unique Expr_eq_dec ins) (leaves w)))), v)]))
        {| leaves := snd (makeleaf (Node k n d ins)
                                   (snd (makeleaves (unique Expr_eq_dec ins) (leaves w))));
           calls := calls w |}
  end.
Proof.
  intros Hinv Hne Hnone Hins.
  set (uins := unique Expr_eq_dec ins).
  set (ls := fst (makeleaves uins (leaves w))).
  assert (Hlen : List.length ls = List.length uins) by apply makeleaves_length.
  assert (Hnd : NoDup uins) by apply NoDup_unique.
  assert (Hndl : NoDup ls) by now apply makeleaves_NoDup.
  assert (Huins : forall i, In i uins -> is_Symbol i = true /\ is_key scope i = true).
  { intros i Hi. apply Hins. now apply In_unique in Hi. }
  rewrite bottom_up_unfold, Hnone. simpl _inputs. fold uins.
  unfold bind at 1.
  rewrite reduce_bound_inputs by (intros i Hi; now apply Huins). fold ls.
  rewrite after_inputs_sorted.
  2:{ intros Er. apply (f_equal (@List.length _)) in Er.
      rewrite renamed_inputs_length in Er by exact Hlen.
      destruct ins as [|i0 ins']; [ now apply Hne | ].
      assert (Hi0 : In i0 uins) by (apply In_unique; now left).
      destruct uins; [ contradiction | discriminate ]. }
  cbv zeta.
  rewrite renamed_inputs_scopes, renamed_inputs_exprs by exact Hlen.
  rewrite merge_singletons by now rewrite renamed_scope_keys.
  rewrite renamed_scope_values by exact Hlen.
  unfold old_data_leaves, _leaves.
  change (terminals (Node k n d ins)) with (flat_map terminals ins).
  rewrite terminals_of_symbols by (intros i Hi; now apply Hins).
  fold uins.
  destruct (sorted_key_type type_key (map (scope_get scope) uins)) as [sorted_data|];
    [ | reflexivity ].
  rewrite type_change_refl.
  unfold bind at 1, do_makeleaf. simpl leaves. simpl calls.
  destruct (makeleaf (Node k n d ins) (snd (makeleaves uins (leaves w))))
    as [leaf st2] eqn:Eleaf. simpl fst. simpl snd.
  rewrite (@subs_node_over_symbols uins ls k n d ins Hlen Hnd).
  - simpl _inputs. unfold bind at 1.
    rewrite (@mapM_scope_getitem _ _ (map (scope_get scope) ins)).
    + reflexivity.
    + rewrite !map_map. apply map_ext_in. intros i Hi.
      apply renamed_scope_get; auto. now apply In_unique.
  - intros i Hi. split; [ now apply In_unique | now apply Hins ].
  - intros i Hi. now apply Huins.
Qed.
End LeafLevelEvaluation.

(* ------------------------------------------------------------------ *)
(** ** Instances *)

Lemma class_rank_injective (a b : pytype) : class_rank a = class_rank b -> a = b.
Proof.
  destruct a, b; unfold class_rank; intros H; try reflexivity; try lia.
  f_equal. lia.
Qed.

(** X2 at a list against an integer. *)
Lemma type_change_by_class_witness :
  type_change [VList [VInt 1]] [VInt 2] = type_change [VList []] [VInt 5].
Proof. apply type_change_by_class; reflexivity. Defined.

(** X3 at an integer and a list, in the two orders. *)
Lemma sorted_type_change_any_order_witness :
  Permutation [VInt 1; VList []] [VList []; VInt 1] /\
  Permutation [VList [VInt 2]; VInt 3] [VInt 3; VList [VInt 2]] /\
  type_change (sorted_by_type class_rank [VInt 1; VList []])
              (sorted_by_type class_rank [VList [VInt 2]; VInt 3])
  = type_change (sorted_by_type class_rank [VList []; VInt 1])
                (sorted_by_type class_rank [VInt 3; VList [VInt 2]]).
Proof.
  split; [ apply perm_swap | split; [ apply perm_swap | ] ].
  apply (@sorted_type_change_any_order class_rank class_rank_injective);
    apply perm_swap.
Defined.

(** X4 at three expressions of display name [x]. *)
Lemma makeleaf_tokens_in_order_witness :
  NoDup [ex_x_twice; ex_x_twice_plus_1; ex_x] /\
  nth_error [ex_x_twice; ex_x_twice_plus_1; ex_x] 2 = Some ex_x /\
  nth_error (fst (makeleaves [ex_x_twice; ex_x_twice_plus_1; ex_x]
                             (_reset_leaves (leaves new_world)))) 2
  = Some (Symbol "x" "int" (Some 1%nat)).
Proof.
  assert (Hnd : NoDup [ex_x_twice; ex_x_twice_plus_1; ex_x]).
  { repeat constructor; simpl; intros H; decompose [or] H; try discriminate; auto. }
  split; [ exact Hnd | split; [ reflexivity | ] ].
  apply (@makeleaf_tokens_in_order (leaves new_world) "x"
           [ex_x_twice; ex_x_twice_plus_1; ex_x] 2 ex_x Hnd).
  - intros e' H. simpl in H. decompose [or] H; subst; try reflexivity. contradiction.
  - reflexivity.
Defined.

(** X7 at [x + y] and a scope for [x] and [y]. *)
Lemma swap_resources_nothing_to_swap_witness :
  _resources ex_x_plus_y = [] /\
  NoDup (keys ex_scope_xy) /\
  swap_resources_into_scope ex_x_plus_y ex_scope_xy = (ex_x_plus_y, ex_scope_xy).
Proof.
  assert (Hnd : NoDup (keys ex_scope_xy)).
  { repeat constructor; simpl; intros H; decompose [or] H; try discriminate; auto. }
  split; [ reflexivity | split; [ exact Hnd | ] ].
  apply swap_resources_nothing_to_swap; [ reflexivity | exact Hnd ].
Defined.

(** X10 at the source [t], which carries its data, and at [x] bound by the
    caller. *)
Lemma compute_bound_expression_witness :
  fst (compute core_registry (Ordered class_rank) 1 ex_t [] no_kwargs new_world)
  = Ret (OVal (VList [VInt 1; VInt 2; VInt 3])) /\
  fst (compute core_registry (Ordered class_rank) 1 ex_x ex_scope_xy no_kwargs new_world)
  = Ret (OVal (VInt 1)).
Proof.
  split; apply compute_bound_expression; reflexivity.
Defined.

(** X16 at the documented sum, from three rounds to five. *)
Lemma rounds_only_bound_the_driver_witness :
  (3 <= 5)%nat /\
  fst (compute ex_registry (Ordered class_rank) 3 ex_amount_sum_plus_1
         [(ex_s, VBackend 0 600)] no_kwargs new_world) <> Unfinished /\
  compute ex_registry (Ordered class_rank) 5 ex_amount_sum_plus_1
    [(ex_s, VBackend 0 600)] no_kwargs new_world
  = compute ex_registry (Ordered class_rank) 3 ex_amount_sum_plus_1
      [(ex_s, VBackend 0 600)] no_kwargs new_world.
Proof.
  assert (Hle : (3 <= 5)%nat) by lia.
  assert (Hfin : fst (compute ex_registry (Ordered class_rank) 3 ex_amount_sum_plus_1
                        [(ex_s, VBackend 0 600)] no_kwargs new_world) <> Unfinished)
    by (vm_compute; discriminate).
  split; [ exact Hle | split; [ exact Hfin | ] ].
  exact (proj2 (@rounds_only_bound_the_driver ex_registry (Ordered class_rank) 3 5
                  ex_amount_sum_plus_1 [(ex_s, VBackend 0 600)] no_kwargs new_world Hle)
               Hfin).
Defined.

(** X17 at the list [[x, y]]. *)
Lemma compute_up_seq_items_witness :
  fst (compute_up_seq core_registry (Ordered class_rank) 1 [OExpr ex_x; OExpr ex_y]
         (Some ex_scope_xy) no_kwargs new_world)
  = Ret [OVal (VInt 1); OVal (VInt 2)] /\
  Forall2 (fun item r =>
             exists e,
               item = OExpr e /\
               forall w0,
                 fst (compute core_registry (Ordered class_rank) 1 e ex_scope_xy no_kwargs w0)
                 = Ret r)
          [OExpr ex_x; OExpr ex_y] [OVal (VInt 1); OVal (VInt 2)].
Proof.
  assert (Hrun : fst (compute_up_seq core_registry (Ordered class_rank) 1 [OExpr ex_x; OExpr ex_y]
                        (Some ex_scope_xy) no_kwargs new_world)
                 = Ret [OVal (VInt 1); OVal (VInt 2)]) by reflexivity.
  split; [ exact Hrun | ].
  exact (@compute_up_seq_items core_registry (Ordered class_rank) 1 [OExpr ex_x; OExpr ex_y]
           (Some ex_scope_xy) no_kwargs new_world [OVal (VInt 1); OVal (VInt 2)] Hrun).
Defined.

(** X18 at [x + y] with [x] and [y] bound to integers, with and without
    an order of the classes. *)
Lemma node_over_bound_symbols_never_breaks_witness :
  leaf_inv (leaves new_world) /\
  dict_get Expr_eq_dec ex_x_plus_y ex_scope_xy = None /\
  bottom_up_until_type_break ex_registry (Ordered class_rank) ex_x_plus_y ex_scope_xy
                             new_world
  = (Ret (Symbol "_" "int" None, [(Symbol "_" "int" None, VInt 3)]),
     {| leaves := snd (makeleaves [ex_x; ex_y; ex_x_plus_y] (leaves new_world));
        calls := [Call_compute_up (Node "Add" "" "int" [ex_x; ex_y])
                                  [VInt 1; VInt 2] ex_scope_xy] |}) /\
  bottom_up_until_type_break ex_registry Unordered ex_x_plus_y ex_scope_xy new_world
  = (Raise TypeError_unorderable,
     {| leaves := snd (makeleaves [ex_x; ex_y] (leaves new_world)); calls := [] |}).
Proof.
  assert (Hinv : leaf_inv (leaves new_world))
    by exact (leaf_inv_reset (leaves new_world)).
  assert (Hins : forall i, In i [ex_x; ex_y] ->
                           is_Symbol i = true /\ is_key ex_scope_xy i = true).
  { intros i H. simpl in H. decompose [or] H; subst; try (split; reflexivity).
    contradiction. }
  split; [ exact Hinv | split; [ reflexivity | ] ].
  unfold ex_x_plus_y. split.
  - rewrite (@node_over_bound_symbols_never_breaks ex_registry (Ordered class_rank)
               "Add" "" "int" [ex_x; ex_y] ex_scope_xy new_world Hinv
               ltac:(discriminate) eq_refl Hins).
    reflexivity.
  - rewrite (@node_over_bound_symbols_never_breaks ex_registry Unordered
               "Add" "" "int" [ex_x; ex_y] ex_scope_xy new_world Hinv
               ltac:(discriminate) eq_refl Hins).
    reflexivity.
Defined.

(* ================================================================== *)
(** * The lookups of the bottom-up evaluator *)

Lemma expr_size_input (k n d : string) (ins : list Expr) (i : Expr) :
  In i ins -> (expr_size i < expr_size (Node k n d ins))%nat.
Proof.
  simpl. induction ins as [|j ins IH]; simpl; intros H; [ contradiction | ].
  destruct H as [->|H]; [ lia | specialize (IH H); lia ].
Qed.

Lemma node_not_own_input (k n d : string) (ins : list Expr) :
  ~ In (Node k n d ins) ins.
Proof. intros H. apply (expr_size_input k n d) in H. lia. Qed.

Lemma subs_unfold (dict : list (Expr * Expr)) (e : Expr) :
  _subs dict e =
  match dict_get Expr_eq_dec e dict with
  | Some e' => e'
  | None =>
      match e with
      | Node k n s ins => Node k n s (map (_subs dict) ins)
      | _ => e
      end
  end.
Proof. destruct e; reflexivity. Qed.

Lemma isidentical_true (a b : Expr) : isidentical a b = true -> a = b.
Proof. unfold isidentical. destruct (Expr_eq_dec a b); [ auto | discriminate ]. Qed.

Lemma is_key_In (scope : Scope) (k : Expr) :
  is_key scope k = true <-> In k (keys scope).
Proof.
  unfold is_key. pose proof (dict_mem_keys Expr_eq_dec k scope) as H.
  destruct (dict_get Expr_eq_dec k scope).
  - split; [ intros _; apply H; discriminate | reflexivity ].
  - split; [ discriminate | intros Hin; apply H in Hin; congruence ].
Qed.

Lemma keys_merge {K V} (K_eq_dec : forall a b : K, {a = b} + {a <> b})
      (x : K) (dicts : list (list (K * V))) :
  In x (keys (merge K_eq_dec dicts)) <-> exists d, In d dicts /\ In x (keys d).
Proof.
  unfold merge.
  assert (H : forall acc,
             In x (keys (fold_left (dict_update K_eq_dec) dicts acc)) <->
             In x (keys acc) \/ exists d, In d dicts /\ In x (keys d)).
  { induction dicts as [|d0 dicts IH]; intros acc; simpl.
    - split; [ tauto | intros [H|(d & [] & _)]; exact H ].
    - rewrite IH, keys_dict_update. split.
      + intros [[H|H]|(d & Hd & Hx)];
          [ tauto | right; exists d0; tauto | right; exists d; tauto ].
      + intros [H|(d & [<-|Hd] & Hx)]; [ tauto | tauto | right; exists d; tauto ]. }
  rewrite H. simpl. split; [ intros [[]|H0]; exact H0 | tauto ].
Qed.

Lemma combine_map_r {A B C} (f : B -> C) (x : A) (y : C) (xs : list A) :
  forall ys : list B,
    In (x, y) (combine xs (map f ys)) ->
    exists r, In (x, r) (combine xs ys) /\ f r = y.
Proof.
  induction xs as [|x0 xs IH]; intros [|y0 ys]; simpl; try contradiction.
  intros [H|H].
  - injection H as -> <-. exists y0. split; [ now left | reflexivity ].
  - destruct (IH ys H) as (r & Hr & Hf). exists r. split; [ now right | exact Hf ].
Qed.

Lemma Forall2_combine_In {A B} (P : A -> B -> Prop) (xs : list A) (ys : list B)
      (x : A) (y : B) :
  Forall2 P xs ys -> In (x, y) (combine xs ys) -> P x y.
Proof.
  induction 1 as [|x0 y0 xs ys H0 _ IH]; simpl; [ contradiction | ].
  intros [H|H]; [ injection H as <- <-; exact H0 | auto ].
Qed.

Lemma mapM_raise_from {A B} (f : A -> M B) (e : exn) (xs : list A) :
  forall w w1,
    mapM f xs w = (Raise e, w1) -> exists x w0, In x xs /\ fst (f x w0) = Raise e.
Proof.
  induction xs as [|x xs IH]; intros w w1 H; simpl in H; [ discriminate | ].
  unfold bind in H at 1. destruct (f x w) as [[y|e'|] w'] eqn:E.
  - unfold bind in H at 1.
    destruct (mapM f xs w') as [[ys|e'|] w''] eqn:E2; try discriminate.
    injection H as -> ->. destruct (IH _ _ E2) as (x' & w0 & Hin & Hx).
    exists x', w0. split; [ now right | exact Hx ].
  - injection H as -> ->. exists x, w. split; [ now left | now rewrite E ].
  - discriminate.
Qed.

Lemma mapM_results {A B} (f : A -> M B) (xs : list A) :
  forall ys w w1,
    mapM f xs w = (Ret ys, w1) ->
    Forall2 (fun x y => exists w0 w0', f x w0 = (Ret y, w0')) xs ys.
Proof.
  induction xs as [|x xs IH]; intros ys w w1 H; simpl in H.
  - unfold ret in H. injection H as <- _. constructor.
  - unfold bind in H at 1. destruct (f x w) as [[y|e'|] w'] eqn:E; try discriminate.
    unfold bind in H at 1.
    destruct (mapM f xs w') as [[ys'|e'|] w''] eqn:E2; try discriminate.
    unfold ret in H. injection H as <- _.
    constructor; [ exists w, w'; exact E | eapply IH; eauto ].
Qed.

Lemma In_sorted_key_type (type_key : class_order) (xs sorted_xs : list value) (y : value) :
  sorted_key_type type_key xs = Some sorted_xs -> In y sorted_xs <-> In y xs.
Proof.
  destruct type_key as [key|]; simpl.
  - intros [= <-]. apply In_sorted_by_type.
  - destruct xs as [|a [|b xs]]; intros [= <-]; tauto.
Qed.

Section Lookups.
Variable R : Registry.
Variable type_key : class_order.

Local Abbreviation bottom_up := (bottom_up_until_type_break R type_key).

(** The substituted expression of a node is a node over the substituted
    inputs. *)
Lemma subs_inputs (k n d : string) (ins exprs : list Expr) :
  _subs (dict_of_items Expr_eq_dec
           (filter (fun ie => negb (isidentical (fst ie) (snd ie)))
                   (combine (unique Expr_eq_dec ins) exprs)))
        (Node k n d ins)
  = Node k n d
         (map (_subs (dict_of_items Expr_eq_dec
                        (filter (fun ie => negb (isidentical (fst ie) (snd ie)))
                                (combine (unique Expr_eq_dec ins) exprs))))
              ins).
Proof.
  rewrite subs_unfold.
  destruct (dict_get Expr_eq_dec (Node k n d ins) _) as [e'|] eqn:E; [ | reflexivity ].
  exfalso. apply (@node_not_own_input k n d ins).
  assert (Hkey : In (Node k n d ins)
                    (keys (dict_of_items Expr_eq_dec
                             (filter (fun ie => negb (isidentical (fst ie) (snd ie)))
                                     (combine (unique Expr_eq_dec ins) exprs))))).
  { apply dict_mem_keys with (K_eq_dec := Expr_eq_dec). congruence. }
  unfold dict_of_items in Hkey. apply keys_dict_update in Hkey.
  destruct Hkey as [[]|Hkey].
  unfold keys in Hkey. apply in_map_iff in Hkey. destruct Hkey as ([i e] & Hi & Hin).
  simpl in Hi. subst i. apply filter_In in Hin. destruct Hin as [Hin _].
  apply in_combine_l in Hin. now apply In_unique in Hin.
Qed.

(** What one call returns: a leaf with its binding, or a node. *)
Lemma reduced_key_or_node (e : Expr) (scope : Scope) (w w' : world) (r : Expr * Scope) :
  bottom_up e scope w = (Ret r, w') -> key_or_node (snd r) (fst r).
Proof.
  assert (Hleaf : forall (l : Expr) (v : value), key_or_node [(l, v)] l).
  { intros l v. left. unfold is_key. simpl. destruct (Expr_eq_dec l l); congruence. }
  rewrite bottom_up_unfold.
  destruct (dict_get Expr_eq_dec e scope) as [v|].
  { unfold bind, do_makeleaf, ret. destruct (makeleaf e (leaves w)) as [l st].
    intros [= <- _]. apply Hleaf. }
  unfold bind at 1.
  destruct (mapM _ (unique Expr_eq_dec (_inputs e)) w) as [[reduced|x|] w1] eqn:Ered;
    try discriminate.
  destruct reduced as [|r0 reduced]; [ discriminate | ].
  rewrite after_inputs_sorted by discriminate. cbv zeta.
  destruct (sorted_key_type type_key _) as [new_sorted|]; [ | discriminate ].
  destruct (sorted_key_type type_key _) as [old_sorted|]; [ | discriminate ].
  destruct (type_change new_sorted old_sorted).
  - intros [= <- _]. right. simpl fst.
    destruct e as [n d t|n d v|k n d ins]; [ discriminate Ered | discriminate Ered | ].
    simpl _inputs. now rewrite subs_inputs.
  - unfold bind at 1, do_makeleaf. destruct (makeleaf e (leaves w1)) as [l st].
    unfold bind at 1.
    destruct (mapM (scope_getitem _) _ _) as [[data|x|] w2]; try discriminate.
    unfold bind, compute_up, invoke, ret.
    destruct (match reg_compute_up R _ data _ with Some r1 => r1 | None => Unsupported end);
      try discriminate.
    intros [= <- _]. apply Hleaf.
Qed.

(** Every input of the substituted expression is a key of the merged scope
    or a node. *)
Lemma inputs_key_or_node (k n d : string) (ins : list Expr) (scope : Scope)
      (reduced : list (Expr * Scope)) (w w1 : world) (i' : Expr) :
  mapM (fun i => bottom_up i scope) (unique Expr_eq_dec ins) w = (Ret reduced, w1) ->
  In i' (_inputs (_subs (dict_of_items Expr_eq_dec
                           (filter (fun ie => negb (isidentical (fst ie) (snd ie)))
                                   (combine (unique Expr_eq_dec ins) (map fst reduced))))
                        (Node k n d ins))) ->
  key_or_node (merge Expr_eq_dec (map snd reduced)) i'.
Proof.
  intros Hred Hin.
  pose proof (mapM_length _ _ _ Hred) as Hlen.
  pose proof (mapM_results _ _ _ Hred) as Hall.
  rewrite subs_inputs in Hin. simpl in Hin.
  apply in_map_iff in Hin. destruct Hin as (i & <- & Hi).
  set (uins := unique Expr_eq_dec ins) in *.
  set (exprs := map fst reduced) in *.
  assert (Hlen' : List.length exprs = List.length uins)
    by (unfold exprs; now rewrite length_map).
  assert (Hiu : In i uins) by now apply In_unique.
  destruct (dict_get Expr_eq_dec i (combine uins exprs)) as [e_i|] eqn:Eget.
  2:{ apply dict_get_None in Eget. rewrite combine_keys in Eget by exact Hlen'.
      contradiction. }
  pose proof (dict_get_In _ _ _ Eget) as Hpair.
  apply combine_map_r in Hpair. destruct Hpair as (r & Hr & Hfst).
  assert (Hshape : key_or_node (merge Expr_eq_dec (map snd reduced)) e_i).
  { destruct (@Forall2_combine_In _ _ _ _ _ i r Hall Hr) as (w0 & w0' & Hrun).
    apply reduced_key_or_node in Hrun. rewrite Hfst in Hrun.
    destruct Hrun as [Hkey|Hnode]; [ left | now right ].
    apply is_key_In. apply keys_merge. exists (snd r). split.
    - apply in_map. now apply in_combine_r in Hr.
    - now apply is_key_In. }
  rewrite subs_unfold.
  rewrite (@subs_dict_get uins exprs i Hlen' (NoDup_unique Expr_eq_dec ins)), Eget.
  destruct (isidentical i e_i) eqn:Eid; [ | exact Hshape ].
  apply isidentical_true in Eid. rewrite <- Eid in Hshape. clear Eid Eget.
  destruct i as [n0 d0 t0|n0 d0 v0|k0 n0 d0 ins0]; [ exact Hshape | exact Hshape | ].
  now right.
Qed.

(** The bottom-up evaluator raises KeyError for nodes only: never for a
    symbol, bound or not. *)
Lemma KeyError_is_for_a_node (expr : Expr) :
  forall scope w key,
    fst (bottom_up expr scope w) = Raise (KeyError key) -> is_Symbol key = false.
Proof.
  induction expr as [n d t|n d v|k n d ins IH] using Expr_nested_ind;
    intros scope w key; rewrite bottom_up_unfold;
    destruct (dict_get Expr_eq_dec _ scope) as [v0|];
    try (unfold bind, do_makeleaf, ret;
         match goal with |- context [makeleaf ?e ?st] => destruct (makeleaf e st) end;
         discriminate);
    try discriminate.
  simpl _inputs. unfold bind at 1.
  destruct (mapM _ (unique Expr_eq_dec ins) w) as [[reduced|x|] w1] eqn:Ered.
  - destruct reduced as [|r0 reduced'] eqn:Hreduced; [ discriminate | ].
    rewrite <- Hreduced in *.
    rewrite after_inputs_sorted by (rewrite Hreduced; discriminate). cbv zeta.
    destruct (sorted_key_type type_key _) as [new_sorted|]; [ | discriminate ].
    destruct (sorted_key_type type_key _) as [old_sorted|]; [ | discriminate ].
    destruct (type_change new_sorted old_sorted); [ discriminate | ].
    unfold bind at 1, do_makeleaf. destruct (makeleaf _ (leaves w1)) as [l st].
    unfold bind at 1. rewrite mapM_scope_getitem_find.
    destruct (find _ _) as [i'|] eqn:Efind.
    + simpl. intros [= <-]. apply find_some in Efind. destruct Efind as [Hin Hkey].
      destruct (@inputs_key_or_node k n d ins scope reduced w w1 i' Ered Hin)
        as [H|H]; [ | exact H ].
      rewrite H in Hkey. discriminate.
    + unfold bind, compute_up, invoke, ret.
      destruct (match reg_compute_up R _ _ _ with Some r1 => r1 | None => Unsupported end);
        discriminate.
  - simpl. intros [= ->].
    destruct (mapM_raise_from _ _ _ Ered) as (i & w0 & Hi & Hrun).
    apply In_unique in Hi. rewrite Forall_forall in IH.
    exact (IH i Hi scope w0 key Hrun).
  - discriminate.
Qed.
End Lookups.

Lemma leaves_are_symbols (expr leaf : Expr) :
  In leaf (_leaves expr) -> is_Symbol leaf = true.
Proof.
  intros H. apply In_unique in H. apply terminals_free_symbols in H.
  apply filter_In in H. tauto.
Qed.

(** C10: a leaf of the expression that is not a key of the incoming scope
    never makes the bottom-up evaluator raise a lookup error, in any run:
    the evaluator raises KeyError for nodes only.  The old leaf values are
    read with the total [scope.get], which puts [None] at the place of the
    leaf.  When the comparison is reached (the expression is not bound, its
    inputs have been reduced and the two lists sorted), that [None] is on
    the old side, [type_change] skips its all-primitive exit and decides by
    length and pairwise compatibility, and the evaluator goes the way that
    answer says.  The driver collects its leaf data in the same way and
    hands that list, [None] included, to [compute_down]. *)
Theorem unbound_leaf_reads_None
        (R : Registry) (type_key : class_order) (expr leaf : Expr) (scope : Scope) :
  In leaf (_leaves expr) ->
  dict_get Expr_eq_dec leaf scope = None ->
  (forall w,
      fst (bottom_up_until_type_break R type_key expr scope w) <> Raise (KeyError leaf)) /\
  (forall n,
      nth_error (_leaves expr) n = Some leaf ->
      nth_error (old_data_leaves expr scope) n = Some VNone) /\
  (forall w w1 reduced new_sorted old_sorted,
      dict_get Expr_eq_dec expr scope = None ->
      mapM (fun i => bottom_up_until_type_break R type_key i scope)
           (unique Expr_eq_dec (_inputs expr)) w = (Ret reduced, w1) ->
      reduced <> [] ->
      let new_scope := merge Expr_eq_dec (map snd reduced) in
      let new_expr :=
        _subs (dict_of_items Expr_eq_dec
                 (filter (fun ie => negb (isidentical (fst ie) (snd ie)))
                         (combine (unique Expr_eq_dec (_inputs expr)) (map fst reduced))))
              expr in
      sorted_key_type type_key (values new_scope) = Some new_sorted ->
      sorted_key_type type_key (old_data_leaves expr scope) = Some old_sorted ->
      In VNone old_sorted /\
      type_change new_sorted old_sorted =
      (if negb (Nat.eqb (List.length new_sorted) (List.length old_sorted)) then true
       else negb (all_map2 issubtype (map type old_sorted) (map type new_sorted))) /\
      bottom_up_until_type_break R type_key expr scope w =
      (if type_change new_sorted old_sorted
       then ret (new_expr, new_scope)
       else
         l <- do_makeleaf expr ;;
         _data <- mapM (scope_getitem new_scope) (_inputs new_expr) ;;
         v <- compute_up R new_expr _data new_scope ;;
         ret (l, [(l, v)])) w1) /\
  (forall rounds kw w,
      dict_get Expr_eq_dec expr scope = None ->
      top_then_bottom_then_top_again_etc R type_key (S rounds) expr scope kw w =
      try_except_NotImplementedError
        (compute_down R expr (old_data_leaves expr scope) kw)
        (ns <- bottom_up_until_type_break R type_key expr scope ;;
         es <- reapply_hooks R (fst ns) (snd ns) kw ;;
         top_then_bottom_then_top_again_etc R type_key rounds (fst es) (snd es) no_kwargs)
        w).
Proof.
  intros Hleaf Hget.
  assert (Hnone : scope_get scope leaf = VNone).
  { unfold scope_get. now rewrite Hget. }
  split; [ | split; [ | split ] ].
  - intros w Hrun. apply KeyError_is_for_a_node in Hrun.
    apply leaves_are_symbols in Hleaf. congruence.
  - intros n Hn. unfold old_data_leaves. rewrite nth_error_map, Hn. simpl.
    now rewrite Hnone.
  - intros w w1 reduced new_sorted old_sorted Hfree Hred Hne new_scope new_expr Hnew Hold.
    assert (Hin : In VNone old_sorted).
    { apply (In_sorted_key_type _ _ VNone Hold). unfold old_data_leaves.
      rewrite <- Hnone. now apply in_map. }
    split; [ exact Hin | split ].
    + unfold type_change. rewrite forallb_base_with_None; [ reflexivity | ].
      apply in_or_app. now right.
    + rewrite bottom_up_unfold, Hfree. unfold bind at 1. rewrite Hred.
      rewrite after_inputs_sorted by exact Hne. cbv zeta.
      fold new_scope new_expr. rewrite Hnew, Hold.
      destruct (type_change new_sorted old_sorted); reflexivity.
  - intros rounds kw w Hfree. simpl. now rewrite Hfree.
Qed.

(** C10 at an expression whose inner node is bound and whose symbol is
    not: the [None] read for the symbol is compared with the value of the
    inner node, which is a break. *)
Lemma unbound_leaf_reads_None_witness :
  let scope := [(ex_x_twice, VBackend 0 2)] in
  In ex_x (_leaves ex_x_twice_plus_1) /\
  dict_get Expr_eq_dec ex_x scope = None /\
  nth_error (old_data_leaves ex_x_twice_plus_1 scope) 0 = Some VNone /\
  bottom_up_until_type_break ex_registry (Ordered class_rank) ex_x_twice_plus_1 scope
                             new_world
  = (Ret (Node "Add1" "x" "int" [Symbol "x" "int" None],
          [(Symbol "x" "int" None, VBackend 0 2)]),
     {| leaves := {| _leaf_cache := [(ex_x_twice, Symbol "x" "int" None)];
                     _used_tokens := [("x"%string, None)] |};
        calls := [] |}).
Proof.
  intros scope.
  destruct (@unbound_leaf_reads_None ex_registry (Ordered class_rank)
              ex_x_twice_plus_1 ex_x scope (or_introl eq_refl) eq_refl)
    as (_ & Hnth & Hcompare & _).
  split; [ now left | split; [ reflexivity | split; [ exact (Hnth 0%nat eq_refl) | ] ] ].
  destruct (Hcompare new_world
              {| leaves := {| _leaf_cache := [(ex_x_twice, Symbol "x" "int" None)];
                              _used_tokens := [("x"%string, None)] |};
                 calls := [] |}
              [(Symbol "x" "int" None, [(Symbol "x" "int" None, VBackend 0 2)])]
              [VBackend 0 2] [VNone]
              eq_refl eq_refl ltac:(discriminate) eq_refl eq_refl)
    as (_ & _ & Hrun).
  exact Hrun.
Defined.
